(** * Blink live-view relay: URL parsing, subscription probing, JPEG framing

    A shallow embedding of the streaming core of the Blink dashboard
    ([app_v2.py]) and of the IMMIS diagnostic ([blink_diagnostic.py]).

    Conventions.
    - [bytes] is [list byte]; [str] is [list ascii]: a text whose
      characters are the code points below 256.  The library functions
      ([int], [isdigit], [split], ...) are modelled on these texts; texts
      with other characters are not covered.
    - Python's [find] returns [-1] when the needle is absent; here it
      returns [None].
    - A Python exception is an [Exc] outcome; [try/except] is a function on
      outcomes. *)

From Stdlib Require Import Ascii String.
From Stdlib Require Import List Arith Lia Bool ZArith.
From Stdlib Require Import Init.Byte DecimalString.
From Stdlib Require DecimalZ.
From Equations Require Import Equations.
Import ListNotations.

Set Implicit Arguments.

(* ===================================================================== *)
(** * Sequences: the fragment of Python's [bytes]/[str] API that is used  *)
(* ===================================================================== *)

Section Seq.
Context {A : Type} (eq_dec : forall x y : A, {x = y} + {x <> y}).

(** [buf.startswith(sub)] *)
Fixpoint starts_with (sub buf : list A) : bool :=
  match sub, buf with
  | [], _ => true
  | _ :: _, [] => false
  | a :: sub', b :: buf' => if eq_dec a b then starts_with sub' buf' else false
  end.

(** Leftmost occurrence of [sub] in [buf]; [i] is the absolute offset of
    the head of [buf]. *)
Fixpoint find_at (sub buf : list A) (i : nat) : option nat :=
  if starts_with sub buf then Some i
  else match buf with
       | [] => None
       | _ :: rest => find_at sub rest (S i)
       end.

(** [buf.find(sub, start)] *)
Definition find (sub buf : list A) (start : nat) : option nat :=
  if length buf <? start then None
  else find_at sub (skipn start buf) start.

(** [sub in buf] *)
Definition contains (sub buf : list A) : bool :=
  match find sub buf 0 with Some _ => true | None => false end.

(** [buf[lo:hi]] for [0 <= lo], [0 <= hi] *)
Definition slice (lo hi : nat) (buf : list A) : list A :=
  firstn (hi - lo) (skipn lo buf).

(** [buf == other] *)
Definition seq_eqb (x y : list A) : bool :=
  if list_eq_dec eq_dec x y then true else false.

End Seq.

(* ===================================================================== *)
(** * Exceptions                                                          *)
(* ===================================================================== *)

Definition str := list ascii.

(** A string literal as a [str]. *)
Definition lit (s : string) : str := list_ascii_of_string s.

(** Where a [ValueError] comes from. *)
Inductive value_error : Type :=
| InvalidIntLiteral (text : str)      (* int(text): not an integer literal *)
| IntLimit (digits : N)               (* int(text): more digits than allowed *)
| UnpackMismatch (pieces : nat).      (* host, port = host_port.split(':') *)

(** The exceptions the modelled code meets.  None of them is a parse error
    of the program's own: the sources define no exception class. *)
Inductive exn : Type :=
| ValueError (why : value_error)
| TimeoutError
| OtherException (name : string).

(** [repr(text)] of a [str]: single quotes, or double quotes when the text
    holds a single quote and no double quote; the quote in use and the
    backslash are escaped, tab, line feed and carriage return have their
    letters, and a character that is not printable is written [\xhh]. *)
Definition double_quote : ascii := ascii_of_nat 34.
Definition backslash : ascii := ascii_of_nat 92.

Definition printable (c : ascii) : bool :=
  let n := N_of_ascii c in
  ((32 <=? n) && (n <=? 126) || (161 <=? n) && negb (n =? 173))%N.

Definition hex_digit (n : N) : ascii :=
  if (n <? 10)%N then ascii_of_N (48 + n) else ascii_of_N (87 + n).

Definition repr_char (quote c : ascii) : str :=
  let n := N_of_ascii c in
  if Ascii.eqb c quote || Ascii.eqb c backslash then [backslash; c]
  else if (n =? 9)%N then [backslash; "t"%char]
  else if (n =? 10)%N then [backslash; "n"%char]
  else if (n =? 13)%N then [backslash; "r"%char]
  else if printable c then [c]
  else [backslash; "x"%char; hex_digit (n / 16); hex_digit (n mod 16)].

Definition py_repr (text : str) : str :=
  let quote :=
    if existsb (Ascii.eqb "'"%char) text
       && negb (existsb (Ascii.eqb double_quote) text)
    then double_quote else "'"%char in
  quote :: flat_map (repr_char quote) text ++ [quote].

(** [str(e)]; the literal of a refused [int(text)] is shown as the first
    200 characters of [repr(text)]. *)
Definition exn_str (e : exn) : string :=
  match e with
  | ValueError (InvalidIntLiteral text) =>
      "invalid literal for int() with base 10: "
      ++ string_of_list_ascii (firstn 200 (py_repr text))
  | ValueError (IntLimit digits) =>
      "Exceeds the limit (4300 digits) for integer string conversion: value has "
      ++ NilEmpty.string_of_uint (N.to_uint digits)
      ++ " digits; use sys.set_int_max_str_digits() to increase the limit"
  | ValueError (UnpackMismatch pieces) =>
      if Nat.ltb pieces 2 then
        "not enough values to unpack (expected 2, got "
        ++ NilEmpty.string_of_uint (Nat.to_uint pieces) ++ ")"
      else "too many values to unpack (expected 2)"
  | TimeoutError => EmptyString
  | OtherException name => name
  end%string.

Inductive result (A : Type) : Type :=
| Ok (a : A)
| Exc (e : exn).
Arguments Ok {A} a.
Arguments Exc {A} e.

(* ===================================================================== *)
(** * Frame demuxer: the read loop of [_stream_via_ffmpeg]                *)
(* ===================================================================== *)

Definition bytes := list byte.

Definition bfind := find Byte.byte_eq_dec.

(** [b'\xff\xd8'] and [b'\xff\xd9'] *)
Definition SOI : bytes := [xff; xd8].
Definition EOI : bytes := [xff; xd9].

(** One turn of the inner [while True]: [None] when one of the two [find]s
    fails and the loop breaks, otherwise the frame yielded and the buffer
    left. *)
Definition next_frame (buffer : bytes) : option (bytes * bytes) :=
  match bfind SOI buffer 0 with
  | None => None
  | Some start =>
      match bfind EOI buffer start with
      | None => None
      | Some e => Some (slice start (e + 2) buffer, skipn (e + 2) buffer)
      end
  end.

(** ** Termination of the inner loop: a cut shortens the buffer *)

Lemma starts_with_length (A : Type) (eq_dec : forall x y : A, {x = y} + {x <> y})
    (sub : list A) :
  forall buf, starts_with eq_dec sub buf = true -> length sub <= length buf.
Proof.
  induction sub as [|a sub IH]; intros [|c l]; simpl; try lia; try discriminate.
  destruct (eq_dec a c); [|discriminate].
  intros H. apply IH in H. lia.
Qed.

Lemma find_at_bound (A : Type) (eq_dec : forall x y : A, {x = y} + {x <> y})
    (sub buf : list A) :
  forall i j, find_at eq_dec sub buf i = Some j ->
              i <= j /\ (j - i) + length sub <= length buf.
Proof.
  induction buf as [|b rest IH]; intros i j.
  - simpl. destruct sub; simpl; [|discriminate].
    intros [= <-]. simpl. lia.
  - cbn [find_at].
    destruct (starts_with eq_dec sub (b :: rest)) eqn:Hs.
    + intros [= <-]. apply starts_with_length in Hs. lia.
    + intros H. apply IH in H. simpl. lia.
Qed.

Lemma find_bound (A : Type) (eq_dec : forall x y : A, {x = y} + {x <> y})
    (sub buf : list A) (start j : nat) :
  find eq_dec sub buf start = Some j ->
  start <= j /\ j + length sub <= length buf.
Proof.
  unfold find. destruct (length buf <? start) eqn:Hl; [discriminate|].
  apply Nat.ltb_ge in Hl. intros H. apply find_at_bound in H.
  rewrite length_skipn in H. lia.
Qed.

Lemma next_frame_shrinks (buffer frame rest : bytes) :
  next_frame buffer = Some (frame, rest) -> length rest < length buffer.
Proof.
  unfold next_frame.
  destruct (bfind SOI buffer 0) as [start|]; [|discriminate].
  destruct (bfind EOI buffer start) as [e|] eqn:He; [|discriminate].
  intros [= _ <-]. apply find_bound in He. simpl in He.
  rewrite length_skipn. lia.
Qed.

Definition inspect {A : Type} (a : A) : {b : A | a = b} := exist _ a eq_refl.

(** The inner [while True] run to its [break]: every complete frame is cut
    out of [buffer], the unconsumed tail is kept for the next read. *)
Equations? drain (buffer : bytes) : list bytes * bytes
  by wf (length buffer) lt :=
  drain buffer with inspect (next_frame buffer) => {
    | exist _ None _ => ([], buffer)
    | exist _ (Some (frame, rest)) Hn =>
        let '(frames, final) := drain rest in (frame :: frames, final) }.
Proof.
  eapply next_frame_shrinks; eassumption.
Qed.

(** One turn of the outer loop after the end-of-file test:
    [buffer += chunk], then the inner loop. *)
Definition feed (buffer chunk : bytes) : list bytes * bytes :=
  drain (buffer ++ chunk).

(** What [await process.stdout.read(65536)] gives: a chunk (the empty chunk
    is end of file) or an exception. *)
Inductive read_result : Type :=
| Chunk (chunk : bytes)
| ReadRaises (e : exn).

(** How a generator run ends: its body returns, or an exception leaves it. *)
Inductive exit_status : Type :=
| Returned
| Raised (e : exn).

(** The [try] block of [_stream_via_ffmpeg] run against the successive
    results of [read]; a script that runs out stands for end of file.
    The result is the frames yielded, in order, and how the loop ended. *)
Fixpoint read_loop (reads : list read_result) (buffer : bytes)
  : list bytes * exit_status :=
  match reads with
  | [] => ([], Returned)
  | ReadRaises e :: _ => ([], Raised e)
  | Chunk chunk :: rest =>
      match chunk with
      | [] => ([], Returned)
      | _ :: _ =>
          let '(frames, buffer') := feed buffer chunk in
          let '(later, status) := read_loop rest buffer' in
          (frames ++ later, status)
      end
  end.

(** Frames yielded when the subprocess writes [chunks] and then closes its
    output. *)
Definition stream_frames (chunks : list bytes) : list bytes :=
  fst (read_loop (map Chunk chunks) []).

(** Feeding [chunks] one at a time to a demuxer holding [buffer]. *)
Fixpoint feed_all (buffer : bytes) (chunks : list bytes) : list bytes * bytes :=
  match chunks with
  | [] => ([], buffer)
  | chunk :: rest =>
      let '(frames, buffer') := feed buffer chunk in
      let '(later, final) := feed_all buffer' rest in
      (frames ++ later, final)
  end.

(** ** [_stream_via_ffmpeg]

    The subprocess of one call: [asyncio.create_subprocess_exec] raises
    [spawn] or gives a process whose standard output delivers [output];
    [terminate] is what [process.terminate()] raises when it is called,
    if anything. *)
Record ffmpeg : Type := {
  spawn : option exn;
  output : list read_result;
  terminate : option exn
}.

(** The generator consumed to its end: the frames yielded and how it
    ended.  An exception raised in the [finally] clause replaces the way
    the [try] block was left. *)
Definition _stream_via_ffmpeg (p : ffmpeg) : list bytes * exit_status :=
  match spawn p with
  | Some e => ([], Raised e)
  | None =>
      let '(frames, status) := read_loop (output p) [] in
      (frames, match terminate p with
               | Some e => Raised e
               | None => status
               end)
  end.

(** ** The same function as a generator object

    [anext] resumes the body up to its next [yield]; [aclose] raises
    [GeneratorExit] at the [yield] where the body is suspended.  The
    [finally] clause runs when the [try] block is left. *)

Inductive gen_status : Type :=
| Created        (* not started: no subprocess yet *)
| Suspended      (* at [yield frame] *)
| Finished.

Record ffmpeg_gen : Type := {
  g_status : gen_status;
  g_process : ffmpeg;           (* [output]: what the next reads will give *)
  g_buffer : bytes;
  g_terminate_calls : nat       (* calls of process.terminate() so far *)
}.

Inductive resumed : Type :=
| Yield (frame : bytes)
| StopAsyncIteration
| Raises (e : exn).

Definition with_output (reads : list read_result) (p : ffmpeg) : ffmpeg :=
  {| spawn := spawn p; output := reads; terminate := terminate p |}.

(** The [try] block is left with [r]: the [finally] clause calls
    [process.terminate()]. *)
Definition leave (r : resumed) (p : ffmpeg) (buffer : bytes) (calls : nat)
  : resumed * ffmpeg_gen :=
  (match terminate p with
   | Some e => Raises e
   | None => r
   end,
   {| g_status := Finished; g_process := p; g_buffer := buffer;
      g_terminate_calls := S calls |}).

(** From [chunk = await process.stdout.read(65536)] to the next [yield] or
    to the end of the body. *)
Fixpoint pump (reads : list read_result) (p : ffmpeg) (buffer : bytes)
    (calls : nat) : resumed * ffmpeg_gen :=
  match reads with
  | [] => leave StopAsyncIteration (with_output [] p) buffer calls
  | ReadRaises e :: rest => leave (Raises e) (with_output rest p) buffer calls
  | Chunk [] :: rest => leave StopAsyncIteration (with_output rest p) buffer calls
  | Chunk chunk :: rest =>
      match next_frame (buffer ++ chunk) with
      | Some (frame, buffer') =>
          (Yield frame, {| g_status := Suspended;
                           g_process := with_output rest p;
                           g_buffer := buffer'; g_terminate_calls := calls |})
      | None => pump rest p (buffer ++ chunk) calls
      end
  end.

Definition anext (g : ffmpeg_gen) : resumed * ffmpeg_gen :=
  match g_status g with
  | Created =>
      match spawn (g_process g) with
      | Some e =>
          (Raises e, {| g_status := Finished; g_process := g_process g;
                        g_buffer := g_buffer g;
                        g_terminate_calls := g_terminate_calls g |})
      | None =>
          pump (output (g_process g)) (g_process g) [] (g_terminate_calls g)
      end
  | Suspended =>
      match next_frame (g_buffer g) with
      | Some (frame, buffer') =>
          (Yield frame, {| g_status := Suspended; g_process := g_process g;
                           g_buffer := buffer';
                           g_terminate_calls := g_terminate_calls g |})
      | None =>
          pump (output (g_process g)) (g_process g) (g_buffer g)
            (g_terminate_calls g)
      end
  | Finished => (StopAsyncIteration, g)
  end.

(** [await g.aclose()]: the generator after it, and the exception that
    leaves [aclose], if any. *)
Definition aclose (g : ffmpeg_gen) : ffmpeg_gen * option exn :=
  match g_status g with
  | Created =>
      ({| g_status := Finished; g_process := g_process g;
          g_buffer := g_buffer g; g_terminate_calls := g_terminate_calls g |},
       None)
  | Suspended =>
      ({| g_status := Finished; g_process := g_process g;
          g_buffer := g_buffer g;
          g_terminate_calls := S (g_terminate_calls g) |},
       terminate (g_process g))
  | Finished => (g, None)
  end.

(** The generator made by a call of [_stream_via_ffmpeg]. *)
Definition new_gen (p : ffmpeg) : ffmpeg_gen :=
  {| g_status := Created; g_process := p; g_buffer := [];
     g_terminate_calls := 0 |}.

(** What a consumer does with the generator. *)
Inductive gen_op : Type :=
| Next      (* await anext(g) *)
| Close.    (* await g.aclose() *)

Fixpoint run_ops (ops : list gen_op) (g : ffmpeg_gen) : ffmpeg_gen :=
  match ops with
  | [] => g
  | Next :: rest => run_ops rest (snd (anext g))
  | Close :: rest => run_ops rest (fst (aclose g))
  end.

(** The frames got by calling [anext] until it no longer yields, at most
    [fuel] times. *)
Fixpoint collect (fuel : nat) (g : ffmpeg_gen) : list bytes :=
  match fuel with
  | 0 => []
  | S fuel' =>
      match anext g with
      | (Yield frame, g') => frame :: collect fuel' g'
      | _ => []
      end
  end.

(** What [anext] gives, with the frames collected after it. *)
Definition frames_after (fuel : nat) (r : resumed * ffmpeg_gen) : list bytes :=
  match r with
  | (Yield frame, g) => frame :: collect fuel g
  | _ => []
  end.

(** ** Predicates used in the statements *)

(** [sub] occurs in [buf] at offset [i]. *)
Definition occurs_at (sub buf : bytes) (i : nat) : bool :=
  starts_with Byte.byte_eq_dec sub (skipn i buf).

(** A start marker, some bytes, an end marker. *)
Definition framed (frame : bytes) : Prop :=
  exists payload, frame = SOI ++ payload ++ EOI.

(** Before the generator has finished, [terminate] has not been called;
    afterwards it has been called at most once. *)
Definition terminate_once (g : ffmpeg_gen) : Prop :=
  match g_status g with
  | Finished => g_terminate_calls g <= 1
  | _ => g_terminate_calls g = 0
  end.

(** A generator that has ended and whose [process.terminate()] would
    raise if it were called again. *)
Definition ended_gen : ffmpeg_gen :=
  {| g_status := Finished;
     g_process := {| spawn := None; output := [];
                     terminate := Some (OtherException "ProcessLookupError") |};
     g_buffer := []; g_terminate_calls := 1 |}.

(** A subprocess that writes one frame and exits: [process.terminate()]
    then raises. *)
Definition exited_ffmpeg : ffmpeg :=
  {| spawn := None;
     output := [Chunk [xff; xd8; xff; xd9]];
     terminate := Some (OtherException "ProcessLookupError") |}.

(* ===================================================================== *)
(** * [str] operations                                                    *)
(* ===================================================================== *)

Definition sfind := find ascii_dec.
Definition sstarts := starts_with ascii_dec.
Definition scontains := contains ascii_dec.

(** [s.split(sep)]: pieces between the successive leftmost occurrences of
    [sep].  Python rejects an empty separator; the code never passes one,
    and the model returns [s] whole there. *)
Equations? split (sep s : str) : list str by wf (length s) lt :=
  split [] s := [s];
  split (c :: sep') s with inspect (sfind (c :: sep') s 0) => {
    | exist _ None _ => [s]
    | exist _ (Some i) Hi =>
        firstn i s :: split (c :: sep') (skipn (i + length (c :: sep')) s) }.
Proof.
  apply find_bound in Hi. simpl in Hi.
  rewrite length_skipn. simpl. lia.
Qed.

(** [s.split(sep, 1)] *)
Definition split1 (sep s : str) : list str :=
  match sfind sep s 0 with
  | None => [s]
  | Some i => [firstn i s; skipn (i + length sep) s]
  end.

(** [s.lstrip(c)], [s.strip(c)] for a one-character [c] *)
Fixpoint lstrip_char (c : ascii) (s : str) : str :=
  match s with
  | [] => []
  | a :: rest => if ascii_dec a c then lstrip_char c rest else s
  end.

Definition strip_char (c : ascii) (s : str) : str :=
  rev (lstrip_char c (rev (lstrip_char c s))).

(** ** [int(text)]

    [int] first turns the Unicode whitespace of a text that is not all
    ASCII into spaces (below 256 these are NEL and NBSP; the characters
    28..31 are left as they are) and then parses as C does: whitespace
    (9..13 and 32) is skipped at both ends, a sign may come first, then
    decimal digits, with single underscores allowed between digits.  A
    literal of more than 4300 digits is refused: this is the default limit
    of the interpreter, which the program does not change. *)

Definition is_space (c : ascii) : bool :=
  let n := N_of_ascii c in
  ((9 <=? n) && (n <=? 13) || (n =? 32) || (n =? 133) || (n =? 160))%N.

(** A decimal digit for [int]: below 256, the ASCII digits only. *)
Definition is_digit (c : ascii) : bool :=
  let n := N_of_ascii c in ((48 <=? n) && (n <=? 57))%N.

Definition digit_value (c : ascii) : Z := Z.of_N (N_of_ascii c - 48).

Fixpoint lstrip_space (s : str) : str :=
  match s with
  | [] => []
  | a :: rest => if is_space a then lstrip_space rest else s
  end.

(** The digits at the front of [s], single underscores between digits
    allowed: the number they write after [acc], how many they are after
    [count], and what follows them.  [None] when an underscore is not
    followed by a digit. *)
Fixpoint scan_digits (acc : Z) (count : N) (s : str) : option (Z * N * str) :=
  match s with
  | [] => Some (acc, count, [])
  | c :: rest =>
      if is_digit c then
        let acc' := (10 * acc + digit_value c)%Z in
        let count' := (count + 1)%N in
        match rest with
        | [] => Some (acc', count', [])
        | u :: rest' =>
            if ascii_dec u "_" then
              match rest' with
              | d :: _ => if is_digit d then scan_digits acc' count' rest'
                          else None
              | [] => None
              end
            else scan_digits acc' count' rest
        end
      else Some (acc, count, s)
  end.

(** [sys.int_info.default_max_str_digits] *)
Definition max_str_digits : N := 4300.

(** The sign in front of the digits, if any, and what follows it. *)
Definition take_sign (s : str) : bool * str :=
  match s with
  | c :: rest =>
      if ascii_dec c "-" then (true, rest)
      else if ascii_dec c "+" then (false, rest)
      else (false, s)
  | [] => (false, [])
  end.

(** [int(text)] *)
Definition py_int (text : str) : result Z :=
  let '(negative, s) := take_sign (lstrip_space text) in
  match scan_digits 0 0 s with
  | None => Exc (ValueError (InvalidIntLiteral text))
  | Some (n, count, rest) =>
      if (count =? 0)%N then Exc (ValueError (InvalidIntLiteral text))
      else if (max_str_digits <? count)%N then Exc (ValueError (IntLimit count))
      else
        match lstrip_space rest with
        | [] => Ok (if negative then (- n)%Z else n)
        | _ :: _ => Exc (ValueError (InvalidIntLiteral text))
        end
  end.

(** [c.isdigit()] for a character below 256: the ASCII digits and the
    superscripts two, three and one, which [int] does not take. *)
Definition is_digit_char (c : ascii) : bool :=
  let n := N_of_ascii c in
  (is_digit c || (n =? 178) || (n =? 179) || (n =? 185))%N.

(** [text.isdigit()] *)
Definition isdigit (text : str) : bool :=
  match text with
  | [] => false
  | _ => forallb is_digit_char text
  end.

(* ===================================================================== *)
(** * [IMMISStreamHandler]: URL parsing and the subscription payload      *)
(* ===================================================================== *)

Definition IMMIS_SCHEME : str := lit "immis://".

(** [IMMISStreamHandler._parse_url] *)
Definition _parse_url (url : str) : result (str * Z * str) :=
  let url := if sstarts IMMIS_SCHEME url then skipn 8 url else url in
  let split_path : result (str * str) :=
    if scontains (lit "/") url then
      match split1 (lit "/") url with
      | [host_port; path] => Ok (host_port, lit "/" ++ path)
      | pieces => Exc (ValueError (UnpackMismatch (length pieces)))
      end
    else Ok (url, lit "/") in
  match split_path with
  | Exc e => Exc e
  | Ok (host_port, path) =>
      if scontains (lit ":") host_port then
        match split (lit ":") host_port with
        | [host; port] =>
            match py_int port with
            | Ok n => Ok (host, n, path)
            | Exc e => Exc e
            end
        | pieces => Exc (ValueError (UnpackMismatch (length pieces)))
        end
      else Ok (host_port, 443%Z, path)
  end.

(** [blink_diagnostic.py], [_test_immis], "Parse URL": the same steps with
    the first eight characters dropped whatever they are. *)
Definition _test_immis_parse (url : str) : result (str * Z * str) :=
  let rest := skipn 8 url in
  let '(hostport, path) :=
    if scontains (lit "/") rest then
      match split1 (lit "/") rest with
      | [hostport; path] => (hostport, lit "/" ++ path)
      | _ => (rest, lit "/")      (* never: a split at a [/] that is there *)
      end
    else (rest, lit "/") in
  if scontains (lit ":") hostport then
    match split (lit ":") hostport with
    | [host; port] =>
        match py_int port with
        | Ok n => Ok (host, n, path)
        | Exc e => Exc e
        end
    | pieces => Exc (ValueError (UnpackMismatch (length pieces)))
    end
  else Ok (hostport, 443%Z, path).

(** The value handed to [json.dumps]. *)
Unset Elimination Schemes.
Inductive json : Type :=
| JNull
| JBool (b : bool)
| JInt (n : Z)
| JStr (s : str)
| JObj (fields : list (string * json)).
Set Elimination Schemes.

(** A [StreamWriter]: whether its transport is closing, and how often
    [close()] has been called on it. *)
Record stream_writer : Type := { closing : bool; close_calls : nat }.

(** The writer [open_connection] returns. *)
Definition new_writer : stream_writer := {| closing := false; close_calls := 0 |}.

(** [writer.close()] *)
Definition writer_close (w : stream_writer) : stream_writer :=
  {| closing := true; close_calls := S (close_calls w) |}.

Record IMMISStreamHandler : Type := {
  h_url : str;
  h_auth_token : str;
  h_account_id : Z;
  h_client_id : str;
  h_network_id : Z;
  h_camera_id : Z;
  h_host : str;
  h_port : Z;
  h_path : str;
  h_writer : option stream_writer;
  h_connected : bool
}.

(** [IMMISStreamHandler.__init__] *)
Definition new_handler (url auth_token : str) (account_id : Z) (client_id : str)
    (network_id camera_id : Z) : result IMMISStreamHandler :=
  match _parse_url url with
  | Exc e => Exc e
  | Ok (host, port, path) =>
      Ok {| h_url := url; h_auth_token := auth_token;
            h_account_id := account_id; h_client_id := client_id;
            h_network_id := network_id; h_camera_id := camera_id;
            h_host := host; h_port := port; h_path := path;
            h_writer := None; h_connected := false |}
  end.

(** The ["session"] entry of the payload: [session_id or self.path]. *)
Definition subscription_session (path : str) : str :=
  let session_id : option str :=
    if scontains (lit "session=") path then
      Some (hd [] (split (lit "&") (last (split (lit "session=") path) [])))
    else None in
  match session_id with
  | Some (c :: sid) => c :: sid
  | _ => path
  end.

(** [IMMISStreamHandler._build_subscription], before [json.dumps]: the
    dictionary, or the [ValueError] of [int(self.client_id)]. *)
Definition _build_subscription (h : IMMISStreamHandler) : result json :=
  let client_id : result json :=
    if isdigit (h_client_id h) then
      match py_int (h_client_id h) with
      | Ok n => Ok (JInt n)
      | Exc e => Exc e
      end
    else Ok (JStr (h_client_id h)) in
  match client_id with
  | Exc e => Exc e
  | Ok client =>
      Ok (JObj [ ("type", JStr (lit "subscribe"));
                 ("session", JStr (subscription_session (h_path h)));
                 ("auth_token", JStr (h_auth_token h));
                 ("account_id", JInt (h_account_id h));
                 ("client_id", client);
                 ("network_id", JInt (h_network_id h));
                 ("camera_id", JInt (h_camera_id h));
                 ("options", JObj [ ("video_profile", JStr (lit "hd"));
                                    ("include_audio", JBool false) ]) ]%string)
  end.

Definition set_writer (w : option stream_writer) (h : IMMISStreamHandler)
  : IMMISStreamHandler :=
  {| h_url := h_url h; h_auth_token := h_auth_token h;
     h_account_id := h_account_id h; h_client_id := h_client_id h;
     h_network_id := h_network_id h; h_camera_id := h_camera_id h;
     h_host := h_host h; h_port := h_port h; h_path := h_path h;
     h_writer := w; h_connected := h_connected h |}.

Definition set_connected (c : bool) (h : IMMISStreamHandler)
  : IMMISStreamHandler :=
  {| h_url := h_url h; h_auth_token := h_auth_token h;
     h_account_id := h_account_id h; h_client_id := h_client_id h;
     h_network_id := h_network_id h; h_camera_id := h_camera_id h;
     h_host := h_host h; h_port := h_port h; h_path := h_path h;
     h_writer := h_writer h; h_connected := c |}.

(** [try: ... except: pass] around a call that raises [r] or nothing. *)
Definition try_except_pass (r : option exn) : option exn :=
  match r with
  | Some _ => None
  | None => None
  end.

(** [IMMISStreamHandler.close].  [wait_closed] is what
    [await self.writer.wait_closed()] does: [Some e] when it raises.  The
    second component is the exception that leaves [close], if any. *)
Definition close (wait_closed : option exn) (h : IMMISStreamHandler)
  : IMMISStreamHandler * option exn :=
  match h_writer h with
  | Some w =>
      let h1 := set_writer (Some (writer_close w)) h in
      match try_except_pass wait_closed with
      | Some e => (h1, Some e)
      | None => (set_connected false h1, None)
      end
  | None => (set_connected false h, None)
  end.

(** ** What a reference is compared with *)

(** The number written by the decimal digits [text]. *)
Definition decimal_value (text : str) : Z :=
  fold_left (fun acc c => (10 * acc + digit_value c)%Z) text 0%Z.

Definition SESSION_KEY : str := lit "session=".

(** A character that no integer literal holds: no digit, no whitespace,
    no sign, no underscore. *)
Definition foreign (c : ascii) : Prop :=
  is_digit c = false /\ is_space c = false /\
  c <> "+"%char /\ c <> "-"%char /\ c <> "_"%char.

(** A non-empty text of ASCII decimal digits. *)
Definition decimal_digits (text : str) : bool :=
  match text with
  | [] => false
  | _ => forallb is_digit text
  end.

(** [c] is not a character of [s]. *)
Definition lacks (c : ascii) (s : str) : Prop := ~ In c s.

(** [_parse_url] after the scheme has been dealt with: the text handed to
    the two splits. *)
Definition host_port_of (host_port path : str) : result (str * Z * str) :=
  if scontains (lit ":") host_port then
    match split (lit ":") host_port with
    | [host; port] =>
        match py_int port with
        | Ok n => Ok (host, n, path)
        | Exc e => Exc e
        end
    | pieces => Exc (ValueError (UnpackMismatch (length pieces)))
    end
  else Ok (host_port, 443%Z, path).

(** The entry [key] of a payload. *)
Definition field (key : string) (payload : json) : option json :=
  match payload with
  | JObj fields =>
      option_map snd (List.find (fun kv => String.eqb (fst kv) key) fields)
  | _ => None
  end.


(* ===================================================================== *)
(** * [_test_immis]: TLS probe and the subscription formats               *)
(* ===================================================================== *)

(** What the peer does with the bytes written on one connection. *)
Inductive reply : Type :=
| Reply (data : bytes)           (* reader.read(4096) returns [data] *)
| ReplyTimeout                   (* asyncio.TimeoutError from wait_for *)
| ReplyError (e : exn).          (* the read raises [e]; [TimeoutError] is
                                    caught like [ReplyTimeout] *)

(** What one [asyncio.open_connection] call meets. *)
Inductive connection : Type :=
| ConnectFails (e : exn)
| Connects (drain : option exn) (r : reply).

(** The branch taken on one format, as printed by the loop. *)
Inductive verdict : Type :=
| VideoDetected                  (* "VIDEO DATA DETECTED!" *)
| JsonReply (resp : json)        (* "JSON: ..." *)
| Unparsed                       (* bytes printed, nothing more *)
| ZeroBytes                      (* "0 bytes received" *)
| NoResponse                     (* "Timeout (no response)" *)
| Failed (e : exn).              (* "Error: ..." *)

Record diag : Type := {
  opened : nat;                          (* open_connection calls made *)
  written : list (nat * bytes);          (* (connection, payload), oldest first *)
  closed : list nat;                     (* connections whose writer was closed *)
  verdicts : list (string * verdict);    (* per format tried, oldest first *)
  results : list (string * bool * string)  (* self.results *)
}.

Definition diag0 : diag :=
  {| opened := 0; written := []; closed := []; verdicts := []; results := [] |}.

(** [BlinkDiagnostic.log_result] *)
Definition log_result (test_name : string) (success : bool) (details : string)
    (d : diag) : diag :=
  {| opened := opened d; written := written d; closed := closed d;
     verdicts := verdicts d;
     results := results d ++ [(test_name, success, details)] |}.

Definition note_open (d : diag) : diag :=
  {| opened := S (opened d); written := written d; closed := closed d;
     verdicts := verdicts d; results := results d |}.

Definition note_write (conn : nat) (payload : bytes) (d : diag) : diag :=
  {| opened := opened d; written := written d ++ [(conn, payload)];
     closed := closed d; verdicts := verdicts d; results := results d |}.

Definition note_close (conn : nat) (d : diag) : diag :=
  {| opened := opened d; written := written d; closed := closed d ++ [conn];
     verdicts := verdicts d; results := results d |}.

Definition note_verdict (name : string) (v : verdict) (d : diag) : diag :=
  {| opened := opened d; written := written d; closed := closed d;
     verdicts := verdicts d ++ [(name, v)]; results := results d |}.

(** [b'\x00\x00\x00\x01' in data[:20] or b'\x00\x00\x01' in data[:20]] *)
Definition has_start_code (data : bytes) : bool :=
  contains Byte.byte_eq_dec [x00; x00; x00; x01] (firstn 20 data)
  || contains Byte.byte_eq_dec [x00; x00; x01] (firstn 20 data).

Section Negotiation.
(** [json.dumps(...)] followed by [.encode()], and
    [json.loads(data.decode())] with [None] for any exception: both are
    the library's. *)
Variable json_dumps : json -> bytes.
Variable json_loads : bytes -> option json.

(** The network: what the [k]-th [open_connection] call meets. *)
Variable peer : nat -> connection.

(** The [if data: ... else: ...] block after a read that returned. *)
Definition classify (data : bytes) : verdict :=
  match data with
  | [] => ZeroBytes
  | _ :: _ =>
      if has_start_code data then VideoDetected
      else match json_loads data with
           | Some resp => JsonReply resp
           | None => Unparsed
           end
  end.

(** The [for name, payload in payloads] loop with the final
    [log_result]. *)
Fixpoint try_payloads (payloads : list (string * bytes)) (d : diag) : diag :=
  match payloads with
  | [] => log_result "IMMIS Subscription" false
            "No valid video data received from any format" d
  | (name, payload) :: rest =>
      let conn := opened d in
      let d := note_open d in
      match peer conn with
      | ConnectFails e => try_payloads rest (note_verdict name (Failed e) d)
      | Connects drain r =>
          let d := note_write conn payload d in
          match drain with
          | Some e => try_payloads rest (note_verdict name (Failed e) d)
          | None =>
              match r with
              | ReplyTimeout | ReplyError TimeoutError =>
                  (* except asyncio.TimeoutError, then writer.close() *)
                  try_payloads rest
                    (note_close conn (note_verdict name NoResponse d))
              | ReplyError e =>
                  try_payloads rest (note_verdict name (Failed e) d)
              | Reply data =>
                  match classify data with
                  | VideoDetected =>
                      log_result "IMMIS Subscription" true
                        ("Video data received with '" ++ name ++ "' format")
                        (note_verdict name VideoDetected d)
                  | v =>
                      try_payloads rest
                        (note_close conn (note_verdict name v d))
                  end
              end
          end
      end
  end%string.

(** Identifiers read from the camera and the token file. *)
Record context : Type := {
  camera_id : Z;
  network_id : Z;
  token : str;
  account_id : Z;
  client_id : Z
}.

Definition decimal (n : Z) : str :=
  lit (NilEmpty.string_of_int (Z.to_int n)).

(** The three formats of [_test_immis], in the order of the list. *)
Definition payloads (ctx : context) (path : str) : list (string * bytes) :=
  let session_id := hd [] (split (lit "?") (strip_char "/" path)) in
  [ ("Simple", json_dumps (JObj
       [ ("type", JStr (lit "subscribe"));
         ("session", JStr session_id);
         ("camera_id", JInt (camera_id ctx));
         ("network_id", JInt (network_id ctx)) ]));
    ("With Auth", json_dumps (JObj
       [ ("type", JStr (lit "subscribe"));
         ("session", JStr session_id);
         ("auth_token", JStr (token ctx));
         ("account_id", JInt (account_id ctx));
         ("camera_id", JInt (camera_id ctx));
         ("network_id", JInt (network_id ctx)) ]));
    ("Full", json_dumps (JObj
       [ ("action", JStr (lit "subscribe"));
         ("channel", JStr (lit "liveview/" ++ decimal (network_id ctx)
                             ++ lit "/" ++ decimal (camera_id ctx))%list);
         ("auth_token", JStr (token ctx));
         ("account_id", JInt (account_id ctx));
         ("client_id", JInt (client_id ctx));
         ("network_id", JInt (network_id ctx));
         ("camera_id", JInt (camera_id ctx));
         ("type", JStr (lit "live")) ])) ]%string.

(** [_test_immis] from "[5.2] TLS Connection" to its end: one connection
    to test TLS, then the loop over the formats. *)
Definition _test_immis_connect (formats : list (string * bytes)) : diag :=
  let d := note_open diag0 in
  match peer 0 with
  | ConnectFails e =>
      log_result "IMMIS Connection" false (exn_str e) d
  | Connects _ _ => try_payloads formats d
  end.

(** [socket.gethostbyname(host)] succeeds. *)
Variable resolves : str -> bool.

(** [_test_immis]: the parse, which may raise; the DNS test, after whose
    failure nothing more is done; then the connections. *)
Definition _test_immis (ctx : context) (url : str) : result diag :=
  match _test_immis_parse url with
  | Exc e => Exc e
  | Ok (host, _, path) =>
      if resolves host then Ok (_test_immis_connect (payloads ctx path))
      else Ok diag0
  end.

End Negotiation.

(** What the loop writes when it tries [tried], the first of them on
    connection [conn]: each payload on the connection opened for it, if
    that connection was established. *)
Fixpoint attempt_writes (peer : nat -> connection) (conn : nat)
    (tried : list (string * bytes)) : list (nat * bytes) :=
  match tried with
  | [] => []
  | (_, payload) :: rest =>
      match peer conn with
      | Connects _ _ => [(conn, payload)]
      | ConnectFails _ => []
      end ++ attempt_writes peer (S conn) rest
  end.

(** ** A scripted peer

    The TLS test connects; the first two formats are answered by a JSON
    record, the third by bytes that begin with a start code. *)
Definition json_answer : bytes := list_byte_of_string "{}".

Definition scripted_peer (k : nat) : connection :=
  match k with
  | 0 => Connects None (Reply [])
  | 1 | 2 => Connects None (Reply json_answer)
  | _ => Connects None (Reply [x00; x00; x00; x01; x67])
  end.

(** A stand-in for [json.loads]: only the text [{}] is a record. *)
Definition loads_empty_object (data : bytes) : option json :=
  if seq_eqb Byte.byte_eq_dec data json_answer then Some (JObj []) else None.

Definition three_formats : list (string * bytes) :=
  [ ("Simple", list_byte_of_string "A");
    ("With Auth", list_byte_of_string "B");
    ("Full", list_byte_of_string "C") ]%string.


(* ===================================================================== *)
(** * [stream_camera.mjpeg_stream]                                        *)
(* ===================================================================== *)

Definition CRLF : bytes := [x0d; x0a].
Definition boundary : bytes := list_byte_of_string "--frame" ++ CRLF.
Definition content_type : bytes :=
  list_byte_of_string "Content-Type: image/jpeg" ++ CRLF ++ CRLF.

(** The four [yield]s made for one frame. *)
Definition part (frame : bytes) : list bytes :=
  [boundary; content_type; frame; CRLF].

Definition parts (frames : list bytes) : list bytes := flat_map part frames.

Definition beqb := seq_eqb Byte.byte_eq_dec.

(** [camera.image_from_cache and camera.image_from_cache != last_frame] *)
Definition is_new (image : option bytes) (last_frame : option bytes) : bool :=
  match image with
  | None | Some [] => false
  | Some img =>
      match last_frame with
      | None => true
      | Some l => negb (beqb img l)
      end
  end.

Section LiveView.
(** The account service, as a state [Svc] and the calls made on it.  A
    call gives the next state and the exception it raises, if any. *)
Variable Svc : Type.
Variable get_liveview : Svc -> Svc * result str.
Variable init_livestream : Svc -> Svc * option exn.
Variable livestream_stop : Svc -> Svc * option exn.
Variable snap_picture : Svc -> Svc * option exn.
Variable refresh : Svc -> Svc * option exn.
Variable image_from_cache : Svc -> option bytes.

(** The [try] block of strategy 1.  The last component is [None] when the
    block is left at its end (no branch taken), otherwise how the
    generator leaves it: by [return] or with an exception. *)
Definition video_attempt (p : ffmpeg) (s : Svc)
  : list bytes * Svc * option exit_status :=
  let '(s, r) := get_liveview s in
  match r with
  | Exc e => ([], s, Some (Raised e))
  | Ok url =>
      if sstarts (lit "rtsps://") url then
        let '(frames, status) := _stream_via_ffmpeg p in
        (parts frames, s, Some status)
      else if sstarts (lit "immis://") url then
        let '(s, r) := init_livestream s in
        match r with
        | Some e => ([], s, Some (Raised e))
        | None =>
            let '(frames, status) := _stream_via_ffmpeg p in
            let '(s, r) := livestream_stop s in
            match r with
            | Some e => (parts frames, s, Some (Raised e))
            | None => (parts frames, s, Some status)
            end
        end
      else ([], s, None)
  end.

(** The body of one turn of [for _ in range(600)], inside its [try]. *)
Definition snapshot_round (s : Svc) (last_frame : option bytes)
  : list bytes * Svc * option bytes * option exn :=
  let '(s, r) := snap_picture s in
  match r with
  | Some e => ([], s, last_frame, Some e)
  | None =>
      let '(s, r) := refresh s in
      match r with
      | Some e => ([], s, last_frame, Some e)
      | None =>
          if is_new (image_from_cache s) last_frame then
            match image_from_cache s with
            | Some img => (part img, s, image_from_cache s, None)
            | None => ([], s, last_frame, None)
            end
          else ([], s, last_frame, None)
      end
  end.

(** Strategy 2: [n] turns of the loop; an exception raised in a turn is
    logged and the loop goes on. *)
Fixpoint snapshot_loop (n : nat) (s : Svc) (last_frame : option bytes)
  : list bytes * exit_status :=
  match n with
  | 0 => ([], Returned)
  | S n' =>
      let '(chunks, s, last_frame, _) := snapshot_round s last_frame in
      let '(later, status) := snapshot_loop n' s last_frame in
      (chunks ++ later, status)
  end.

(** [mjpeg_stream]: everything the generator yields, and how it ends. *)
Definition mjpeg_stream (p : ffmpeg) (s : Svc) : list bytes * exit_status :=
  let '(video, s, how) := video_attempt p s in
  match how with
  | Some Returned => (video, Returned)
  | Some (Raised _) | None =>
      let '(snapshots, status) := snapshot_loop 600 s None in
      (video ++ snapshots, status)
  end.

(** ** What the frames are compared with *)

(** The values of [camera.image_from_cache] read at the test of the [if],
    one per turn in which neither call raised. *)
Fixpoint polled (n : nat) (s : Svc) : list (option bytes) :=
  match n with
  | 0 => []
  | S n' =>
      let '(s, r) := snap_picture s in
      match r with
      | Some _ => polled n' s
      | None =>
          let '(s, r) := refresh s in
          match r with
          | Some _ => polled n' s
          | None => image_from_cache s :: polled n' s
          end
      end
  end.

End LiveView.

(** The non-empty images among [images]. *)
Fixpoint images_of (polls : list (option bytes)) : list bytes :=
  match polls with
  | [] => []
  | Some (b :: img) :: rest => (b :: img) :: images_of rest
  | _ :: rest => images_of rest
  end.

(** [images] without the ones equal to their predecessor, [last] being the
    predecessor of the first. *)
Fixpoint distinct_run (last : option bytes) (images : list bytes) : list bytes :=
  match images with
  | [] => []
  | img :: rest =>
      match last with
      | Some l => if beqb img l then distinct_run last rest
                  else img :: distinct_run (Some img) rest
      | None => img :: distinct_run (Some img) rest
      end
  end.

(** No two neighbours of [frames] are equal. *)
Fixpoint no_repeat (frames : list bytes) : Prop :=
  match frames with
  | a :: (b :: _) as rest => a <> b /\ no_repeat rest
  | _ => True
  end.

(** ** A scripted account service

    The state counts the refreshes; the cached image changes at every
    second refresh; asking for the live view times out. *)
Definition counting_liveview (n : nat) : nat * result str := (n, Exc TimeoutError).
Definition counting_call (n : nat) : nat * option exn := (n, None).
Definition counting_refresh (n : nat) : nat * option exn := (S n, None).
Definition counting_image (n : nat) : option bytes :=
  Some [if Nat.even (n / 2) then x01 else x02].

Definition idle_ffmpeg : ffmpeg :=
  {| spawn := None; output := []; terminate := None |}.

(** The frames the snapshot loop is expected to yield from state [s]: the
    distinct consecutive non-empty images of its 600 polls. *)
Definition snapshot_frames (Svc : Type)
    (snap_picture refresh : Svc -> Svc * option exn)
    (image_from_cache : Svc -> option bytes) (s : Svc) : list bytes :=
  distinct_run None (images_of (polled snap_picture refresh image_from_cache 600 s)).


(* ===================================================================== *)
(** * Further models                                                      *)
(* ===================================================================== *)

(** ** What the demuxer drops *)

(** [junk] and [frames] laid out in turn: junk, frame, junk, frame, ... *)
Fixpoint interleave (junk frames : list bytes) : bytes :=
  match junk, frames with
  | j :: junk', f :: frames' => j ++ f ++ interleave junk' frames'
  | _, _ => []
  end.

(** The total number of bytes of [frames]. *)
Definition total_length (frames : list bytes) : nat :=
  fold_right (fun f n => length f + n) 0 frames.


(** ** A scripted subprocess

    It writes one frame in two chunks and closes its output. *)
Definition one_frame_ffmpeg : ffmpeg :=
  {| spawn := None;
     output := [Chunk [xff; xd8; x41]; Chunk [x42; xff; xd9]];
     terminate := None |}.

Definition rtsps_liveview (n : nat) : nat * result str :=
  (n, Ok (lit "rtsps://cam.example/live")).

(** A subprocess that writes one frame; the next read raises. *)
Definition failing_ffmpeg : ffmpeg :=
  {| spawn := None;
     output := [Chunk [xff; xd8; xff; xd9]; ReadRaises TimeoutError];
     terminate := None |}.

(** A camera whose cached image is that same frame, at every poll. *)
Definition same_image (n : nat) : option bytes := Some [xff; xd8; xff; xd9].


(** ** [IMMISStreamHandler]: connecting, subscribing, reading

    [connect] sets reader and writer together; the model keeps the writer
    and reads the presence of the reader off it. *)

(** [IMMISStreamHandler.connect]; [failure] is what [open_connection] or
    [wait_for] raises, if anything. *)
Definition connect (failure : option exn) (h : IMMISStreamHandler)
  : IMMISStreamHandler * bool :=
  match failure with
  | Some _ => (h, false)
  | None =>
      (set_connected true (set_writer (Some new_writer) h), true)
  end.

(** [IMMISStreamHandler.start_stream]; [failure] is what [write] or [drain]
    raises, if anything.  The payload is built before the [try]: the
    [ValueError] of [_build_subscription] leaves [start_stream].  Otherwise
    the result is the value returned and the payload handed to
    [self.writer.write], if the call was made. *)
Definition start_stream (json_dumps : json -> bytes) (failure : option exn)
    (h : IMMISStreamHandler) : result (bool * option bytes) :=
  if negb (h_connected h) then Ok (false, None)
  else
    match _build_subscription h with
    | Exc e => Exc e
    | Ok subscription =>
        let payload := json_dumps subscription in
        match h_writer h with
        | None => Ok (false, None)          (* AttributeError, caught *)
        | Some _ =>
            match failure with
            | Some _ => Ok (false, Some payload)
            | None => Ok (true, Some payload)
            end
        end
    end.

(** [IMMISStreamHandler.read_data] *)
Definition read_data (r : reply) (h : IMMISStreamHandler) : option bytes :=
  match h_writer h with
  | None => None
  | Some _ =>
      match r with
      | Reply data => Some data
      | ReplyTimeout | ReplyError TimeoutError => Some []
      | ReplyError _ => None
      end
  end.

(** What a caller does with a handler. *)
Inductive handler_op : Type :=
| DoConnect (failure : option exn)
| DoStart (failure : option exn)
| DoClose (wait_closed : option exn).

Fixpoint run_handler (ops : list handler_op) (h : IMMISStreamHandler)
  : IMMISStreamHandler :=
  match ops with
  | [] => h
  | DoConnect failure :: rest => run_handler rest (fst (connect failure h))
  | DoStart _ :: rest => run_handler rest h
  | DoClose wait_closed :: rest => run_handler rest (fst (close wait_closed h))
  end.

(** A connected handler has a writer that was not closed. *)
Definition writer_open (h : IMMISStreamHandler) : Prop :=
  h_connected h = true -> h_writer h = Some new_writer.

(** The handler of [immis://h/p], as [__init__] leaves it. *)
Definition sample_handler : IMMISStreamHandler :=
  {| h_url := lit "immis://h/p"; h_auth_token := []; h_account_id := 1;
     h_client_id := []; h_network_id := 2; h_camera_id := 3;
     h_host := lit "h"; h_port := 443; h_path := lit "/p";
     h_writer := None; h_connected := false |}.


(** ** The HTTP handlers of [app_v2.py]

    [blink] is the global: [None] until [initialize_blink] has succeeded,
    then the state of the account service.  A handler gives the state it
    leaves and what it answers. *)

Record camera : Type := {
  cam_name : str;
  cam_id : Z;
  cam_network_id : Z;
  cam_type : option str;          (* camera.camera_type *)
  cam_product_type : option str   (* camera.product_type *)
}.

(** What a handler answers: a value, an [HTTPException] it raised, or
    another exception that leaves it. *)
Inductive answer (A : Type) : Type :=
| Responds (a : A)
| HTTPException (status : nat) (detail : string)
| Unhandled (e : exn).
Arguments Responds {A} a.
Arguments HTTPException {A} status detail.
Arguments Unhandled {A} e.

(** Truth value of a string that may be [None], and [x or y]. *)
Definition truthy (x : option str) : bool :=
  match x with
  | Some (_ :: _) => true
  | _ => false
  end.

Definition py_or (x y : option str) : option str :=
  if truthy x then x else y.

(** The dictionary returned by [get_liveview_url]. *)
Record liveview_info : Type := {
  lv_url : str;
  lv_is_immis : bool;
  lv_camera_type : option str
}.

(** One entry of the list returned by [get_cameras]. *)
Record camera_info : Type := {
  ci_name : str;
  ci_camera_id : str;
  ci_network_id : Z;
  ci_camera_type : option str;
  ci_thumbnail : str
}.

Section Api.
Variable Svc : Type.
(** [blink.cameras.items()], in the order of the dictionary *)
Variable cameras : Svc -> list (str * camera).
Variable snap_picture : camera -> Svc -> Svc * option exn.
Variable refresh : Svc -> Svc * option exn.
Variable image_from_cache : camera -> Svc -> option bytes.
Variable get_liveview : camera -> Svc -> Svc * result str.
Variable record : camera -> Svc -> Svc * option exn.
Variable clip : camera -> Svc -> option str.
(** [str(e)] for an [HTTPException] *)
Variable http_exception_str : nat -> string -> string.

(** [_find_camera] *)
Definition _find_camera (s : Svc) (camera_id : str) : option camera :=
  option_map snd
    (List.find (fun entry => seq_eqb ascii_dec (decimal (cam_id (snd entry)))
                               camera_id)
       (cameras s)).

(** [get_thumbnail] *)
Definition get_thumbnail (blink : option Svc) (camera_id : str)
  : option Svc * answer bytes :=
  match blink with
  | None => (None, HTTPException 503 "Not authenticated")
  | Some s =>
      match _find_camera s camera_id with
      | None => (Some s, HTTPException 404 "Camera not found")
      | Some cam =>
          match image_from_cache cam s with
          | Some (b :: img) => (Some s, Responds (b :: img))
          | _ =>
              let '(s, r) := snap_picture cam s in
              match r with
              | Some e => (Some s, HTTPException 500 (exn_str e))
              | None =>
                  let '(s, r) := refresh s in
                  match r with
                  | Some e => (Some s, HTTPException 500 (exn_str e))
                  | None =>
                      match image_from_cache cam s with
                      | Some (b :: img) => (Some s, Responds (b :: img))
                      | _ =>
                          (* the 404 raised here is caught by
                             [except Exception] *)
                          (Some s,
                           HTTPException 500
                             (http_exception_str 404 "No thumbnail available"))
                      end
                  end
              end
          end
      end
  end%string.

(** [get_liveview_url] *)
Definition get_liveview_url (blink : option Svc) (camera_id : str)
  : option Svc * answer liveview_info :=
  match blink with
  | None => (None, HTTPException 503 "Not authenticated")
  | Some s =>
      match _find_camera s camera_id with
      | None => (Some s, HTTPException 404 "Camera not found")
      | Some cam =>
          let '(s, r) := get_liveview cam s in
          match r with
          | Exc e => (Some s, HTTPException 500 (exn_str e))
          | Ok url =>
              (Some s,
               Responds {| lv_url := url;
                           lv_is_immis :=
                             match url with
                             | [] => false
                             | _ => sstarts (lit "immis://") url
                             end;
                           lv_camera_type :=
                             py_or (cam_type cam) (cam_product_type cam) |})
          end
      end
  end%string.

(** [record_clip] *)
Definition record_clip (blink : option Svc) (camera_id : str)
  : option Svc * answer string :=
  match blink with
  | None => (None, HTTPException 503 "Not authenticated")
  | Some s =>
      match _find_camera s camera_id with
      | None => (Some s, HTTPException 404 "Camera not found")
      | Some cam =>
          let '(s, r) := record cam s in
          match r with
          | Some e => (Some s, HTTPException 500 (exn_str e))
          | None => (Some s, Responds "Recording started")
          end
      end
  end%string.

(** [get_latest_clip]: the refresh is outside any [try]. *)
Definition get_latest_clip (blink : option Svc) (camera_id : str)
  : option Svc * answer (option str) :=
  match blink with
  | None => (None, HTTPException 503 "Not authenticated")
  | Some s =>
      match _find_camera s camera_id with
      | None => (Some s, HTTPException 404 "Camera not found")
      | Some cam =>
          let '(s, r) := refresh s in
          match r with
          | Some e => (Some s, Unhandled e)
          | None =>
              (Some s,
               Responds (if truthy (clip cam s) then clip cam s else None))
          end
      end
  end%string.

(** [get_cameras] *)
Definition get_cameras (blink : option Svc) : answer (list camera_info) :=
  match blink with
  | None => HTTPException 503 "Not authenticated"
  | Some s =>
      Responds
        (map (fun entry =>
                let cam := snd entry in
                {| ci_name := fst entry;
                   ci_camera_id := decimal (cam_id cam);
                   ci_network_id := cam_network_id cam;
                   ci_camera_type :=
                     py_or (py_or (cam_type cam) (cam_product_type cam))
                       (Some (lit "unknown"));
                   ci_thumbnail :=
                     (lit "/api/cameras/" ++ decimal (cam_id cam)
                      ++ lit "/thumbnail")%list |})
           (cameras s))
  end%string.

End Api.


(** ** One format of [_test_immis], seen from its connection

    The branch the loop body takes is decided by what the connection
    opened for the format meets; [writer.close()] is reached after a read
    that returned no video or timed out, and in no other case. *)
Definition attempt (json_loads : bytes -> option json) (c : connection)
    : verdict :=
  match c with
  | ConnectFails e => Failed e
  | Connects (Some e) _ => Failed e
  | Connects None ReplyTimeout => NoResponse
  | Connects None (ReplyError TimeoutError) => NoResponse
  | Connects None (ReplyError e) => Failed e
  | Connects None (Reply data) => classify json_loads data
  end.

Definition closes (v : verdict) : bool :=
  match v with
  | VideoDetected | Failed _ => false
  | JsonReply _ | Unparsed | ZeroBytes | NoResponse => true
  end.

(** The connections closed by the attempts [vs], the first of them made
    on connection [conn]. *)
Fixpoint closed_after (conn : nat) (vs : list (string * verdict)) : list nat :=
  match vs with
  | [] => []
  | (_, v) :: rest =>
      (if closes v then [conn] else []) ++ closed_after (S conn) rest
  end.


(* ===================================================================== *)
(** * [BlinkDiagnostic.run] and its phases                                *)
(* ===================================================================== *)

(** [x or default] for a string that may be [None]. *)
Definition or_str (x : option str) (default : str) : str :=
  match x with
  | Some (c :: t) => c :: t
  | _ => default
  end.

(** [str(n)] for a length. *)
Definition nat_str (n : nat) : string := NilEmpty.string_of_uint (Nat.to_uint n).

(** ** Phase 3: the camera to test *)

Section FindCamera.
(** [str.lower], the library's *)
Variable lower : str -> str.

(** [(cam.camera_type or cam.product_type or "unknown").lower()] *)
Definition cam_type_lower (cam : camera) : str :=
  lower (or_str (py_or (cam_type cam) (cam_product_type cam)) (lit "unknown")).

(** ['mini' in cam_type or 'owl' in cam_type] *)
Definition is_mini (cam : camera) : bool :=
  scontains (lit "mini") (cam_type_lower cam)
  || scontains (lit "owl") (cam_type_lower cam).

(** The loop over [self.blink.cameras.items()]; [selected] is
    [self.camera]. *)
Definition scan_cameras (cams : list (str * camera))
    (selected : option camera) : option camera :=
  fold_left (fun sel entry => if is_mini (snd entry) then Some (snd entry) else sel)
    cams selected.

(** The loop, then the first camera when none was selected. *)
Definition select_camera (cams : list (str * camera))
    (selected : option camera) : option camera :=
  match scan_cameras cams selected with
  | Some cam => Some cam
  | None =>
      match cams with
      | (_, cam) :: _ => Some cam
      | [] => None
      end
  end.
End FindCamera.

(** [str.lower] on ASCII text. *)
Definition lower_char (c : ascii) : ascii :=
  let n := nat_of_ascii c in
  if (65 <=? n) && (n <=? 90) then ascii_of_nat (n + 32) else c.

Definition ascii_lower (s : str) : str := map lower_char s.

(** ** Phase 6: [_test_blinkpy_proxy] *)

(** What the calls of the proxy test meet.  [asyncio.create_task] and the
    five-second sleep are taken to return. *)
Record proxy : Type := {
  px_init : option exn;      (* camera.init_livestream() *)
  px_start : option exn;     (* livestream.start(host, port), the prints *)
  px_connect : option exn;   (* open_connection to the proxy, within 5 s *)
  px_read : reply;           (* reader.read(4096), within 5 s *)
  px_close : option exn;     (* writer.close() *)
  px_stop : option exn       (* feed_task.cancel(); livestream.stop() *)
}.

(** The calls the test has made when it returns. *)
Record proxy_calls : Type := {
  started : bool;            (* livestream.start returned *)
  connected : bool;          (* open_connection returned *)
  close_called : bool;       (* writer.close() *)
  stop_called : bool         (* feed_task.cancel(); livestream.stop() *)
}.

(** [except Exception as e] of the outer [try]. *)
Definition proxy_error (e : exn) (d : diag) : diag :=
  log_result "blinkpy Proxy" false (exn_str e) d.

(** The "Cleanup" lines, inside the outer [try]. *)
Definition proxy_cleanup (p : proxy) (d : diag) : diag :=
  match px_stop p with
  | Some e => proxy_error e d
  | None => d
  end.

Definition _test_blinkpy_proxy (p : proxy) (d : diag) : diag * proxy_calls :=
  match px_init p with
  | Some e =>
      (proxy_error e d,
       {| started := false; connected := false; close_called := false;
          stop_called := false |})
  | None =>
  match px_start p with
  | Some e =>
      (proxy_error e d,
       {| started := false; connected := false; close_called := false;
          stop_called := false |})
  | None =>
  match px_connect p with
  | Some TimeoutError =>
      (proxy_cleanup p
         (log_result "blinkpy Proxy" false "Timeout - no data flowing" d),
       {| started := true; connected := false; close_called := false;
          stop_called := true |})
  | Some e =>
      (proxy_error e d,
       {| started := true; connected := false; close_called := false;
          stop_called := false |})
  | None =>
  match px_read p with
  | ReplyTimeout | ReplyError TimeoutError =>
      (proxy_cleanup p
         (log_result "blinkpy Proxy" false "Timeout - no data flowing" d),
       {| started := true; connected := true; close_called := false;
          stop_called := true |})
  | ReplyError e =>
      (proxy_error e d,
       {| started := true; connected := true; close_called := false;
          stop_called := false |})
  | Reply data =>
      let d :=
        match data with
        | [] => log_result "blinkpy Proxy" false
                  "0 bytes - IMMIS handshake failing" d
        | _ :: _ => log_result "blinkpy Proxy" true
                      ("Received " ++ nat_str (length data) ++ " bytes") d
        end in
      match px_close p with
      | Some TimeoutError =>
          (proxy_cleanup p
             (log_result "blinkpy Proxy" false "Timeout - no data flowing" d),
           {| started := true; connected := true; close_called := true;
              stop_called := true |})
      | Some e =>
          (proxy_error e d,
           {| started := true; connected := true; close_called := true;
              stop_called := false |})
      | None =>
          (proxy_cleanup p d,
           {| started := true; connected := true; close_called := true;
              stop_called := true |})
      end
  end end end end%string.

(** ** Phase 7: [_print_summary] *)

Definition entry : Type := string * bool * string.
Definition entry_test (r : entry) : string := fst (fst r).
Definition entry_success (r : entry) : bool := snd (fst r).
Definition entry_details (r : entry) : string := snd r.

(** The tests whose results [_test_immis] and [_test_blinkpy_proxy] log. *)
Definition immis_or_proxy (r : entry) : Prop :=
  entry_test r = "IMMIS Connection"%string \/
  entry_test r = "IMMIS Subscription"%string \/
  entry_test r = "blinkpy Proxy"%string.

Record summary : Type := {
  sm_passed : nat;
  sm_failed : nat;
  sm_failed_tests : list (string * string);   (* the lines under FAILED TESTS *)
  sm_all_passed : bool    (* "All tests passed!", not the known-issue text *)
}.

Definition proxy_failed (results : list entry) : bool :=
  existsb (fun r => String.eqb (entry_test r) "blinkpy Proxy"
                    && negb (entry_success r)) results.

Definition immis_failed (results : list entry) : bool :=
  existsb (fun r => scontains (lit "IMMIS") (lit (entry_test r))
                    && negb (entry_success r)) results.

Definition _print_summary (results : list entry) : summary :=
  let passed := length (filter entry_success results) in
  let failed := length (filter (fun r => negb (entry_success r)) results) in
  {| sm_passed := passed;
     sm_failed := failed;
     sm_failed_tests :=
       if 0 <? failed then
         map (fun r => (entry_test r, entry_details r))
           (filter (fun r => negb (entry_success r)) results)
       else [];
     sm_all_passed := negb (proxy_failed results || immis_failed results) |}.

(** ** [run]

    What a run of the diagnostic meets outside the program. *)
Record auth : Type := {
  auth_token : str;
  auth_account_id : Z;
  auth_client_id : Z
}.

Record world : Type := {
  w_token_file : string;               (* self.token_file *)
  w_token_file_exists : bool;          (* os.path.exists(self.token_file) *)
  w_load : result auth;                (* open, json.load, the prints of its fields *)
  w_session : option exn;              (* the imports and aiohttp.ClientSession() *)
  w_start : option exn;                (* Blink(...), Auth(...), blink.start() *)
  w_cameras : list (str * camera);     (* blink.cameras after the start *)
  w_liveview : camera -> result str;   (* camera.get_liveview() *)
  w_proxy : proxy
}.

Record report : Type := {
  r_results : list entry;              (* self.results *)
  r_summary : option summary;          (* what _print_summary printed, if called *)
  r_error : option exn;                (* "DIAGNOSTIC ERROR": caught by run *)
  r_session_closed : bool              (* session.close() in the finally *)
}.

(** The results of [_test_immis], which only appends to [self.results],
    added to those logged before. *)
Definition absorb (immis : diag) (d : diag) : diag :=
  {| opened := opened immis; written := written immis; closed := closed immis;
     verdicts := verdicts immis; results := results d ++ results immis |}.

Section Run.
Variable json_dumps : json -> bytes.
Variable json_loads : bytes -> option json.
Variable peer : nat -> connection.
Variable resolves : str -> bool.
Variable lower : str -> str.

Definition stopped (d : diag) (session : bool) : report :=
  {| r_results := results d; r_summary := None; r_error := None;
     r_session_closed := session |}.

Definition diagnostic_error (e : exn) (d : diag) (session : bool) : report :=
  {| r_results := results d; r_summary := None; r_error := Some e;
     r_session_closed := session |}.

(** [run] on a new [BlinkDiagnostic]: no result yet, no camera. *)
Definition run (w : world) : report :=
  if negb (w_token_file_exists w) then
    stopped (log_result "Load Token" false
               ("File not found: " ++ w_token_file w) diag0) false
  else
  match w_load w with
  | Exc e => diagnostic_error e diag0 false
  | Ok a =>
  let d := log_result "Load Token" true "Credentials loaded" diag0 in
  match w_session w with
  | Some e => diagnostic_error e d false
  | None =>
  match w_start w with
  | Some e => diagnostic_error e d true
  | None =>
  let d := log_result "Authentication" true
             (nat_str (length (w_cameras w)) ++ " cameras found") d in
  match select_camera lower (w_cameras w) None with
  | None => stopped (log_result "Find Camera" false "No cameras available" d) true
  | Some cam =>
  let d := log_result "Find Camera" true
             ("Using " ++ string_of_list_ascii (cam_name cam)) d in
  match w_liveview w cam with
  | Exc e => stopped (log_result "Get Liveview URL" false (exn_str e) d) true
  | Ok url =>
  let is_immis := sstarts (lit "immis://") url in
  let d := log_result "Get Liveview URL" true
             ("Protocol: " ++ if is_immis then "IMMIS" else "RTSP") d in
  let ctx := {| camera_id := cam_id cam; network_id := cam_network_id cam;
                token := auth_token a; account_id := auth_account_id a;
                client_id := auth_client_id a |} in
  match (if is_immis
         then _test_immis json_dumps json_loads peer resolves ctx url
         else Ok diag0) with
  | Exc e => diagnostic_error e d true
  | Ok immis =>
  let d := fst (_test_blinkpy_proxy (w_proxy w) (absorb immis d)) in
  {| r_results := results d;
     r_summary := Some (_print_summary (results d));
     r_error := None;
     r_session_closed := true |}
  end end end end end end%string.

End Run.

(** ** A run in which everything answers

    One Mini camera with an RTSP address; the proxy delivers two bytes. *)
Definition hall_camera : camera :=
  {| cam_name := lit "Hall"; cam_id := 7; cam_network_id := 1;
     cam_type := Some (lit "Mini"); cam_product_type := None |}.

Definition answering_proxy : proxy :=
  {| px_init := None; px_start := None; px_connect := None;
     px_read := Reply [x00; x01]; px_close := None; px_stop := None |}.

Definition answering_world : world :=
  {| w_token_file := "blink_token.json";
     w_token_file_exists := true;
     w_load := Ok {| auth_token := lit "t"; auth_account_id := 1;
                     auth_client_id := 2 |};
     w_session := None;
     w_start := None;
     w_cameras := [(lit "Hall", hall_camera)];
     w_liveview := fun _ => Ok (lit "rtsps://cam.example/live");
     w_proxy := answering_proxy |}.

Definition answering_report : report :=
  run (fun _ => []) loads_empty_object scripted_peer (fun _ => true)
    ascii_lower answering_world.


(* ===================================================================== *)
(** * Properties                                                          *)
(* ===================================================================== *)

Example drain_two :
  drain [xff; xd8; x01; x02; xff; xd9; xff; xd8; x03; xff; xd9; xff; xd8; x04]
  = ([[xff; xd8; x01; x02; xff; xd9]; [xff; xd8; x03; xff; xd9]], [xff; xd8; x04]).
Proof. reflexivity. Qed.

Example drain_junk :
  drain [x00; xff; xd9; x07; xff; xd8; x01; xff; xd9; x09]
  = ([[xff; xd8; x01; xff; xd9]], [x09]).
Proof. reflexivity. Qed.

Example stream_split :
  stream_frames [[xff]; [xd8; x01]; [xff]; [xd9; xff; xd8]; [xff; xd9]]
  = [[xff; xd8; x01; xff; xd9]; [xff; xd8; xff; xd9]].
Proof. reflexivity. Qed.


(* ===================================================================== *)
(** * Searching                                                           *)
(* ===================================================================== *)

Section SeqFacts.
Context {A : Type} (eq_dec : forall x y : A, {x = y} + {x <> y}).

Lemma starts_with_app (sub tail : list A) :
  starts_with eq_dec sub (sub ++ tail) = true.
Proof.
  induction sub as [|a sub IH]; simpl; [reflexivity|].
  destruct (eq_dec a a); [assumption | congruence].
Qed.

Lemma starts_with_inv (sub : list A) :
  forall buf, starts_with eq_dec sub buf = true ->
              buf = sub ++ skipn (length sub) buf.
Proof.
  induction sub as [|a sub IH]; intros [|b buf]; simpl; try discriminate;
    try reflexivity.
  destruct (eq_dec a b) as [->|]; [|discriminate].
  intros H. f_equal. apply IH, H.
Qed.

Lemma starts_with_grow (sub : list A) :
  forall buf more, starts_with eq_dec sub buf = true ->
                   starts_with eq_dec sub (buf ++ more) = true.
Proof.
  induction sub as [|a sub IH]; intros [|b buf] more; simpl;
    try discriminate; try reflexivity.
  destruct (eq_dec a b); [apply IH | discriminate].
Qed.

Lemma starts_with_grow_false (sub : list A) :
  forall buf more, starts_with eq_dec sub buf = false ->
                   length sub <= length buf ->
                   starts_with eq_dec sub (buf ++ more) = false.
Proof.
  induction sub as [|a sub IH]; intros [|b buf] more; simpl;
    try discriminate; try lia.
  destruct (eq_dec a b); [|reflexivity].
  intros H Hl. apply IH; [assumption | lia].
Qed.

Lemma find_at_shift (sub buf : list A) :
  forall i, find_at eq_dec sub buf (S i)
            = option_map S (find_at eq_dec sub buf i).
Proof.
  induction buf as [|b rest IH]; intros i; cbn [find_at].
  - destruct (starts_with eq_dec sub []); reflexivity.
  - destruct (starts_with eq_dec sub (b :: rest)); [reflexivity | apply IH].
Qed.

Lemma find_at_none_shift (sub buf : list A) (i k : nat) :
  find_at eq_dec sub buf i = None -> find_at eq_dec sub buf k = None.
Proof.
  revert i k. induction buf as [|b rest IH]; intros i k; cbn [find_at].
  - destruct (starts_with eq_dec sub []); [discriminate | reflexivity].
  - destruct (starts_with eq_dec sub (b :: rest)); [discriminate|].
    apply IH.
Qed.

(** Appending bytes does not move an occurrence already found. *)
Lemma find_at_grow (sub buf more : list A) :
  forall i j, find_at eq_dec sub buf i = Some j ->
              find_at eq_dec sub (buf ++ more) i = Some j.
Proof.
  induction buf as [|b rest IH]; intros i j H.
  - cbn [find_at] in H.
    destruct (starts_with eq_dec sub []) eqn:Hs; [|discriminate].
    injection H as <-.
    destruct sub; [|discriminate]. destruct more; reflexivity.
  - pose proof (find_at_bound _ _ _ _ H) as [Hij Hlen].
    cbn [find_at] in H. change ((b :: rest) ++ more) with (b :: (rest ++ more)).
    cbn [find_at]. change (b :: (rest ++ more)) with ((b :: rest) ++ more).
    destruct (starts_with eq_dec sub (b :: rest)) eqn:Hs.
    + rewrite (starts_with_grow _ _ more Hs). assumption.
    + pose proof (find_at_bound _ _ _ _ H) as [Hij' Hlen'].
      rewrite starts_with_grow_false; [apply IH, H | assumption |].
      simpl. lia.
Qed.

Lemma find_grow (sub buf more : list A) (start j : nat) :
  find eq_dec sub buf start = Some j ->
  find eq_dec sub (buf ++ more) start = Some j.
Proof.
  unfold find. destruct (length buf <? start) eqn:Hl; [discriminate|].
  apply Nat.ltb_ge in Hl. intros H.
  rewrite length_app.
  replace (length buf + length more <? start) with false
    by (symmetry; apply Nat.ltb_ge; lia).
  rewrite skipn_app. replace (start - length buf) with 0 by lia.
  rewrite skipn_O. apply find_at_grow, H.
Qed.

(** An occurrence found after appending that lies within the old bytes
    was already there. *)
Lemma find_at_shrink (sub buf more : list A) :
  forall i j, find_at eq_dec sub (buf ++ more) i = Some j ->
              (j - i) + length sub <= length buf ->
              find_at eq_dec sub buf i = Some j.
Proof.
  induction buf as [|b rest IH]; intros i j H Hlen.
  - simpl in Hlen. destruct sub; [|simpl in Hlen; lia].
    simpl in H |- *. destruct more; simpl in H; assumption.
  - change ((b :: rest) ++ more) with (b :: (rest ++ more)) in H.
    cbn [find_at] in H |- *.
    change (b :: (rest ++ more)) with ((b :: rest) ++ more) in H.
    destruct (starts_with eq_dec sub (b :: rest)) eqn:Hs.
    + rewrite (starts_with_grow _ _ more Hs) in H. assumption.
    + destruct (starts_with eq_dec sub ((b :: rest) ++ more)) eqn:Hs'.
      * injection H as <-. simpl in Hlen.
        rewrite starts_with_grow_false in Hs'; [discriminate | assumption |].
        simpl. lia.
      * pose proof (find_at_bound _ _ _ _ H) as [Hij _].
        apply IH; [assumption|]. simpl in Hlen. lia.
Qed.

Lemma find_shrink (sub buf more : list A) (start j : nat) :
  find eq_dec sub (buf ++ more) start = Some j ->
  j + length sub <= length buf ->
  find eq_dec sub buf start = Some j.
Proof.
  intros H Hlen. pose proof (find_bound _ _ _ _ H) as [Hsj _].
  unfold find in H |- *.
  destruct (length (buf ++ more) <? start); [discriminate|].
  replace (length buf <? start) with false
    by (symmetry; apply Nat.ltb_ge; lia).
  rewrite skipn_app in H. replace (start - length buf) with 0 in H by lia.
  rewrite skipn_O in H. eapply find_at_shrink; [eassumption|].
  rewrite length_skipn. lia.
Qed.

(** What [find] finds is an occurrence, and the leftmost from [start]. *)
Lemma find_at_occurrence (sub buf : list A) :
  forall i j, find_at eq_dec sub buf i = Some j ->
    starts_with eq_dec sub (skipn (j - i) buf) = true /\
    forall k, k < j - i -> starts_with eq_dec sub (skipn k buf) = false.
Proof.
  induction buf as [|b rest IH]; intros i j H; cbn [find_at] in H.
  - destruct (starts_with eq_dec sub []) eqn:Hs; [|discriminate].
    injection H as <-. rewrite Nat.sub_diag. split; [assumption | lia].
  - destruct (starts_with eq_dec sub (b :: rest)) eqn:Hs.
    + injection H as <-. rewrite Nat.sub_diag. split; [assumption | lia].
    + pose proof (find_at_bound _ _ _ _ H) as [Hij _].
      apply IH in H. destruct H as [Hocc Hleft].
      replace (j - i) with (S (j - S i)) by lia. split; [assumption|].
      intros [|k] Hk; [assumption|]. apply Hleft. lia.
Qed.

Lemma find_occurrence (sub buf : list A) (start j : nat) :
  find eq_dec sub buf start = Some j ->
  start <= j /\
  starts_with eq_dec sub (skipn j buf) = true /\
  forall k, start <= k < j -> starts_with eq_dec sub (skipn k buf) = false.
Proof.
  intros H. pose proof (find_bound _ _ _ _ H) as [Hsj _].
  unfold find in H. destruct (length buf <? start); [discriminate|].
  apply find_at_occurrence in H. destruct H as [Hocc Hleft].
  split; [assumption|]. split.
  - rewrite skipn_skipn in Hocc. replace (j - start + start) with j in Hocc by lia.
    assumption.
  - intros k Hk. specialize (Hleft (k - start)).
    rewrite skipn_skipn in Hleft. replace (k - start + start) with k in Hleft by lia.
    apply Hleft. lia.
Qed.

End SeqFacts.


(* ===================================================================== *)
(** * Frame demuxer                                                       *)
(* ===================================================================== *)

Lemma drain_step (buffer : bytes) :
  drain buffer =
  match next_frame buffer with
  | None => ([], buffer)
  | Some (frame, rest) =>
      let '(frames, final) := drain rest in (frame :: frames, final)
  end.
Proof.
  funelim (drain buffer);
    match goal with H : next_frame _ = _ |- _ => rewrite H end; reflexivity.
Qed.

Lemma bfind_zero (sub buf : bytes) :
  bfind sub buf 0 = find_at Byte.byte_eq_dec sub buf 0.
Proof. reflexivity. Qed.

(** Induction on the length of a sequence, the measure of [drain] and of
    [split]. *)
Lemma length_ind (A : Type) (P : list A -> Prop) :
  (forall l : list A, (forall b : list A, length b < length l -> P b) -> P l) ->
  forall l : list A, P l.
Proof.
  intros step l.
  induction l as [l IH] using (induction_ltof1 _ (@length A)).
  apply step, IH.
Qed.

Lemma next_frame_grow (buffer more frame rest : bytes) :
  next_frame buffer = Some (frame, rest) ->
  next_frame (buffer ++ more) = Some (frame, rest ++ more).
Proof.
  unfold next_frame.
  destruct (bfind SOI buffer 0) as [start|] eqn:Hs; [|discriminate].
  destruct (bfind EOI buffer start) as [e|] eqn:He; [|discriminate].
  intros [= <- <-].
  unfold bfind in *.
  rewrite (find_grow _ _ _ more _ Hs), (find_grow _ _ _ more _ He).
  apply find_bound in He. simpl in He.
  unfold slice. rewrite !skipn_app, firstn_app, length_skipn.
  replace (e + 2 - start - (length buffer - start)) with 0 by lia.
  replace (start - length buffer) with 0 by lia.
  replace (e + 2 - length buffer) with 0 by lia.
  rewrite firstn_O, app_nil_r, skipn_O. reflexivity.
Qed.

(** Draining resumes: what a longer buffer gives is what the shorter one
    gave, followed by what its remainder gives with the new bytes. *)
Lemma drain_app (more : bytes) :
  forall buffer,
    drain (buffer ++ more) =
    let '(frames, rest) := drain buffer in
    let '(later, final) := drain (rest ++ more) in
    (frames ++ later, final).
Proof.
  induction buffer as [buffer IH] using length_ind.
  rewrite (drain_step buffer).
  destruct (next_frame buffer) as [[frame rest]|] eqn:Hn.
  - rewrite (drain_step (buffer ++ more)), (next_frame_grow _ more Hn).
    rewrite (IH rest (next_frame_shrinks _ Hn)).
    destruct (drain rest) as [frames rest'].
    destruct (drain (rest' ++ more)) as [later final]. reflexivity.
  - destruct (drain (buffer ++ more)) as [later final]. reflexivity.
Qed.

(** What [drain] leaves holds no complete frame. *)
Lemma drain_rest_drained :
  forall buffer frames rest,
    drain buffer = (frames, rest) -> next_frame rest = None.
Proof.
  induction buffer as [buffer IH] using length_ind.
  intros frames rest. rewrite drain_step.
  destruct (next_frame buffer) as [[frame rest0]|] eqn:Hn.
  - destruct (drain rest0) as [fs final] eqn:Hd. intros [= _ <-].
    eapply IH; [eapply next_frame_shrinks; eassumption | eassumption].
  - intros [= _ <-]. assumption.
Qed.

Lemma drain_drained (buffer : bytes) :
  next_frame buffer = None -> drain buffer = ([], buffer).
Proof. intros H. rewrite drain_step, H. reflexivity. Qed.

Lemma feed_all_concat :
  forall chunks buffer,
    next_frame buffer = None ->
    feed_all buffer chunks = drain (buffer ++ concat chunks).
Proof.
  induction chunks as [|chunk rest IH]; intros buffer Hb; simpl.
  - rewrite app_nil_r, drain_drained; [reflexivity | assumption].
  - unfold feed. rewrite app_assoc, (drain_app (concat rest) (buffer ++ chunk)).
    destruct (drain (buffer ++ chunk)) as [frames buffer'] eqn:Hd.
    rewrite IH; [reflexivity|]. eapply drain_rest_drained; eassumption.
Qed.

Lemma read_loop_chunks :
  forall chunks buffer,
    Forall (fun c => c <> []) chunks ->
    read_loop (map Chunk chunks) buffer = (fst (feed_all buffer chunks), Returned).
Proof.
  induction chunks as [|chunk rest IH]; intros buffer Hne; simpl.
  - reflexivity.
  - inversion Hne as [|c l Hc Hrest]; subst.
    destruct chunk as [|b chunk]; [congruence|].
    destruct (feed buffer (b :: chunk)) as [frames buffer'].
    rewrite (IH buffer' Hrest).
    destruct (feed_all buffer' rest) as [later final]. reflexivity.
Qed.

Lemma stream_frames_whole (data : bytes) :
  stream_frames [data] = fst (drain data).
Proof.
  unfold stream_frames. simpl. destruct data as [|b data].
  - rewrite drain_drained; reflexivity.
  - unfold feed. simpl. destruct (drain (b :: data)) as [frames rest].
    simpl. apply app_nil_r.
Qed.

(** ** Markers inside a payload *)

Lemma EOI_not_at_SOI (tail : bytes) :
  starts_with Byte.byte_eq_dec EOI (xff :: xd8 :: tail) = false.
Proof. reflexivity. Qed.

Lemma EOI_not_after_d8 (tail : bytes) :
  starts_with Byte.byte_eq_dec EOI (xd8 :: tail) = false.
Proof. reflexivity. Qed.

(** In [payload ++ EOI ++ tail] the leftmost end marker is the one written
    after a [payload] that holds none. *)
Lemma find_at_EOI_after (tail : bytes) :
  forall payload i,
    find_at Byte.byte_eq_dec EOI payload 0 = None ->
    find_at Byte.byte_eq_dec EOI (payload ++ EOI ++ tail) i
    = Some (i + length payload).
Proof.
  induction payload as [|b payload IH]; intros i Hnone.
  - simpl. f_equal. lia.
  - cbn [find_at] in Hnone.
    destruct (starts_with Byte.byte_eq_dec EOI (b :: payload)) eqn:Hs;
      [discriminate|].
    apply find_at_none_shift with (k := 0) in Hnone.
    change ((b :: payload) ++ EOI ++ tail) with (b :: (payload ++ EOI ++ tail)).
    cbn [find_at].
    replace (starts_with Byte.byte_eq_dec EOI (b :: payload ++ EOI ++ tail))
      with false.
    + rewrite (IH (S i) Hnone). f_equal. simpl. lia.
    + symmetry. unfold EOI in *. simpl in Hs |- *.
      destruct (Byte.byte_eq_dec xff b); [|reflexivity].
      destruct payload as [|c payload]; simpl in Hs |- *; [reflexivity|].
      destruct (Byte.byte_eq_dec xd9 c); [discriminate | reflexivity].
Qed.

Lemma find_at_EOI_absent :
  forall payload,
    find_at Byte.byte_eq_dec EOI payload 0 = None ->
    find_at Byte.byte_eq_dec EOI (SOI ++ payload) 0 = None.
Proof.
  intros payload Hnone. unfold SOI. simpl app.
  cbn [find_at]. rewrite EOI_not_at_SOI.
  cbn [find_at]. rewrite EOI_not_after_d8.
  destruct payload as [|b payload].
  - reflexivity.
  - eapply find_at_none_shift, Hnone.
Qed.

(** A start marker, a payload without end marker, an end marker: one frame. *)
Lemma next_frame_framed (payload tail : bytes) :
  bfind EOI payload 0 = None ->
  next_frame (SOI ++ payload ++ EOI ++ tail) = Some (SOI ++ payload ++ EOI, tail).
Proof.
  rewrite bfind_zero. intros Hnone. unfold next_frame.
  assert (Hs : bfind SOI (SOI ++ payload ++ EOI ++ tail) 0 = Some 0)
    by reflexivity.
  rewrite Hs.
  assert (He : bfind EOI (SOI ++ payload ++ EOI ++ tail) 0
               = Some (2 + length payload)).
  { rewrite bfind_zero. unfold SOI. simpl app.
    cbn [find_at]. rewrite EOI_not_at_SOI.
    cbn [find_at]. rewrite EOI_not_after_d8.
    destruct payload as [|b payload].
    - reflexivity.
    - exact (find_at_EOI_after tail (b :: payload) 2 Hnone). }
  rewrite He. unfold slice. rewrite skipn_O, Nat.sub_0_r.
  replace (2 + length payload + 2) with (length (SOI ++ payload ++ EOI))
    by (rewrite !length_app; simpl; lia).
  replace (SOI ++ payload ++ EOI ++ tail) with ((SOI ++ payload ++ EOI) ++ tail)
    by (rewrite <- !app_assoc; reflexivity).
  rewrite firstn_app, Nat.sub_diag, firstn_all, firstn_O, app_nil_r.
  rewrite skipn_app, Nat.sub_diag, skipn_all, skipn_O. reflexivity.
Qed.


Lemma next_frame_cut (buffer frame rest : bytes) :
  next_frame buffer = Some (frame, rest) ->
  exists start e,
    bfind SOI buffer 0 = Some start /\
    bfind EOI buffer start = Some e /\
    frame = slice start (e + 2) buffer /\
    rest = skipn (e + 2) buffer.
Proof.
  unfold next_frame.
  destruct (bfind SOI buffer 0) as [start|] eqn:Hs; [|discriminate].
  destruct (bfind EOI buffer start) as [e|] eqn:He; [|discriminate].
  intros [= <- <-]. exists start, e. auto.
Qed.

Lemma cut_is_framed (buffer : bytes) (start e : nat) :
  occurs_at SOI buffer start = true ->
  occurs_at EOI buffer e = true ->
  start <= e ->
  framed (slice start (e + 2) buffer).
Proof.
  unfold occurs_at, slice. intros Hs He Hle.
  replace e with ((e - start) + start) in He by lia.
  rewrite <- skipn_skipn in He.
  replace (e + 2 - start) with ((e - start) + 2) by lia.
  generalize dependent (skipn start buffer). generalize (e - start).
  clear. intros n l Hs He.
  apply starts_with_inv in Hs.
  remember (skipn (length SOI) l) as m eqn:Hm. clear Hm. subst l.
  destruct n as [|[|n]].
  - change (skipn 0 (SOI ++ m)) with (xff :: xd8 :: m) in He.
    rewrite EOI_not_at_SOI in He. discriminate.
  - change (skipn 1 (SOI ++ m)) with (xd8 :: m) in He.
    rewrite EOI_not_after_d8 in He. discriminate.
  - change (skipn (S (S n)) (SOI ++ m)) with (skipn n m) in He.
    apply starts_with_inv in He.
    exists (firstn n m).
    change (firstn (S (S n) + 2) (SOI ++ m)) with (SOI ++ firstn (n + 2) m).
    f_equal.
    assert (Hn : n <= length m).
    { destruct (Nat.le_gt_cases n (length m)) as [|Hgt]; [assumption|].
      rewrite skipn_all2 in He by lia. discriminate. }
    rewrite <- (firstn_skipn n m) at 1. rewrite He.
    rewrite firstn_app, length_firstn.
    replace (n + 2 - Nat.min n (length m)) with 2 by lia.
    rewrite firstn_firstn. replace (Nat.min (n + 2) n) with n by lia.
    reflexivity.
Qed.

(** C2 (as amended): a frame is cut from the leftmost start marker of the
    buffer to the leftmost end marker at or after it, markers included;
    two frames written back to back whose payloads hold no end marker come
    out as two frames of [n + 4] and [m + 4] bytes with nothing left; and
    a start marker not yet followed by an end marker yields nothing. *)
Theorem frame_boundaries :
  (forall buffer frame rest,
      next_frame buffer = Some (frame, rest) ->
      exists start e,
        bfind SOI buffer 0 = Some start /\
        occurs_at SOI buffer start = true /\
        (forall k, k < start -> occurs_at SOI buffer k = false) /\
        bfind EOI buffer start = Some e /\
        start <= e /\
        occurs_at EOI buffer e = true /\
        (forall k, start <= k < e -> occurs_at EOI buffer k = false) /\
        frame = slice start (e + 2) buffer /\
        rest = skipn (e + 2) buffer /\
        framed frame) /\
  (forall p1 p2,
      bfind EOI p1 0 = None -> bfind EOI p2 0 = None ->
      drain (SOI ++ p1 ++ EOI ++ SOI ++ p2 ++ EOI)
      = ([SOI ++ p1 ++ EOI; SOI ++ p2 ++ EOI], []) /\
      length (SOI ++ p1 ++ EOI) = length p1 + 4 /\
      length (SOI ++ p2 ++ EOI) = length p2 + 4) /\
  (forall buffer frames rest,
      drain buffer = (frames, rest) ->
      Forall framed frames /\ next_frame rest = None) /\
  (forall buffer start,
      bfind SOI buffer 0 = Some start -> bfind EOI buffer start = None ->
      drain buffer = ([], buffer)).
Proof.
  assert (Hcut : forall buffer frame rest,
      next_frame buffer = Some (frame, rest) ->
      exists start e,
        bfind SOI buffer 0 = Some start /\
        occurs_at SOI buffer start = true /\
        (forall k, k < start -> occurs_at SOI buffer k = false) /\
        bfind EOI buffer start = Some e /\
        start <= e /\
        occurs_at EOI buffer e = true /\
        (forall k, start <= k < e -> occurs_at EOI buffer k = false) /\
        frame = slice start (e + 2) buffer /\
        rest = skipn (e + 2) buffer /\
        framed frame).
  { intros buffer frame rest Hn.
    destruct (next_frame_cut _ Hn) as (start & e & Hs & He & -> & ->).
    destruct (find_occurrence _ _ _ _ Hs) as (_ & Hso & Hsl).
    destruct (find_occurrence _ _ _ _ He) as (Hle & Heo & Hel).
    exists start, e. repeat split; try assumption.
    - intros k Hk. apply Hsl. lia.
    - apply cut_is_framed; assumption. }
  split; [exact Hcut|]. split; [|split].
  - intros p1 p2 H1 H2. split; [|rewrite !length_app; simpl; lia].
    rewrite drain_step.
    replace (SOI ++ p1 ++ EOI ++ SOI ++ p2 ++ EOI)
      with (SOI ++ p1 ++ EOI ++ (SOI ++ p2 ++ EOI ++ [])).
    2:{ rewrite app_nil_r. reflexivity. }
    rewrite (next_frame_framed _ _ H1).
    rewrite drain_step, (next_frame_framed _ _ H2).
    rewrite drain_step. reflexivity.
  - induction buffer as [buffer IH] using length_ind.
    intros frames rest. rewrite drain_step.
    destruct (next_frame buffer) as [[frame rest0]|] eqn:Hn.
    + destruct (drain rest0) as [fs final] eqn:Hd. intros [= <- <-].
      destruct (IH rest0 (next_frame_shrinks _ Hn) _ _ Hd) as [Hall Hrest].
      split; [|assumption]. constructor; [|assumption].
      destruct (Hcut _ _ _ Hn) as (start & e & H). apply H.
    + intros [= <- <-]. split; [constructor | assumption].
  - intros buffer start Hs He. apply drain_drained.
    unfold next_frame. rewrite Hs, He. reflexivity.
Qed.

Lemma frame_boundaries_witness :
  bfind EOI [x41] 0 = None /\ bfind EOI [x42; x43] 0 = None /\
  drain (SOI ++ [x41] ++ EOI ++ SOI ++ [x42; x43] ++ EOI)
  = ([SOI ++ [x41] ++ EOI; SOI ++ [x42; x43] ++ EOI], []).
Proof.
  split; [reflexivity|]. split; [reflexivity|].
  apply (proj1 (proj2 frame_boundaries) [x41] [x42; x43]); reflexivity.
Defined.

(** C2, as first stated, fails: a payload may itself hold the two marker
    bytes.  With the four payload bytes [FF D9 FF D8] in the first frame,
    the buffer [FF D8 <4 bytes> FF D9 FF D8 FF D9] gives three frames of
    four bytes, not two frames of 8 and 4. *)
Lemma two_frames_counterexample :
  let p1 := [xff; xd9; xff; xd8] in
  let p2 := @nil byte in
  fst (drain (SOI ++ p1 ++ EOI ++ SOI ++ p2 ++ EOI))
  = [SOI ++ EOI; SOI ++ EOI; SOI ++ EOI] /\
  map (@length byte) (fst (drain (SOI ++ p1 ++ EOI ++ SOI ++ p2 ++ EOI)))
  <> [length p1 + 4; length p2 + 4].
Proof.
  split; [reflexivity | discriminate].
Qed.

(** C3: the frames do not depend on how the bytes are cut into chunks, and
    a frame whose end marker arrives with a later chunk comes out once,
    whole. *)
Theorem chunking_independent :
  (forall chunks,
      fst (feed_all [] chunks) = fst (feed [] (concat chunks))) /\
  (forall chunks,
      Forall (fun c => c <> []) chunks ->
      stream_frames chunks = stream_frames [concat chunks]) /\
  (forall data,
      stream_frames (map (fun b => [b]) data) = stream_frames [data]) /\
  (forall c1 c2 start e,
      bfind SOI c1 0 = Some start ->
      bfind EOI c1 start = None ->
      bfind EOI (c1 ++ c2) start = Some e ->
      next_frame (skipn (e + 2) (c1 ++ c2)) = None ->
      feed [] c1 = ([], c1) /\
      feed c1 c2 = ([slice start (e + 2) (c1 ++ c2)], skipn (e + 2) (c1 ++ c2)) /\
      stream_frames [c1; c2] = [slice start (e + 2) (c1 ++ c2)] /\
      start < length c1 < e + 2).
Proof.
  assert (Hfeed : forall chunks,
             fst (feed_all [] chunks) = fst (feed [] (concat chunks))).
  { intros chunks. unfold feed. rewrite feed_all_concat; reflexivity. }
  assert (Hstream : forall chunks,
             Forall (fun c => c <> []) chunks ->
             stream_frames chunks = stream_frames [concat chunks]).
  { intros chunks Hne. unfold stream_frames at 1.
    rewrite (read_loop_chunks _ Hne). simpl fst.
    rewrite Hfeed, stream_frames_whole. reflexivity. }
  split; [exact Hfeed|]. split; [exact Hstream|]. split.
  - intros data. rewrite Hstream.
    + f_equal. f_equal. induction data as [|b data IH]; simpl; congruence.
    + induction data; constructor; [discriminate | assumption].
  - intros c1 c2 start e Hs He1 He Hrest.
    pose proof (find_bound _ _ _ _ Hs) as [_ Hsl]. simpl in Hsl.
    pose proof (find_bound _ _ _ _ He) as [Hse Hel]. simpl in Hel.
    assert (Hlen : start < length c1 < e + 2).
    { split; [lia|].
      destruct (Nat.le_gt_cases (e + 2) (length c1)) as [Hin|]; [|assumption].
      unfold bfind in *.
      rewrite (find_shrink _ _ _ _ _ He) in He1 by (simpl; lia).
      discriminate. }
    assert (H1 : feed [] c1 = ([], c1)).
    { unfold feed. simpl. apply drain_drained.
      unfold next_frame. rewrite Hs, He1. reflexivity. }
    assert (H2 : feed c1 c2
                 = ([slice start (e + 2) (c1 ++ c2)], skipn (e + 2) (c1 ++ c2))).
    { assert (Hs2 : bfind SOI (c1 ++ c2) 0 = Some start)
        by (apply find_grow; exact Hs).
      unfold feed. rewrite drain_step. unfold next_frame at 1.
      rewrite Hs2, He, drain_drained by assumption. reflexivity. }
    repeat split; try assumption; try lia.
    unfold stream_frames. simpl.
    destruct c1 as [|b1 c1]; [simpl in Hsl; lia|].
    rewrite H1.
    destruct c2 as [|b2 c2].
    + exfalso. rewrite app_nil_r in He. rewrite He in He1. discriminate.
    + rewrite H2. reflexivity.
Qed.

Lemma chunking_independent_witness :
  bfind SOI [x00; xff; xd8; x41] 0 = Some 1 /\
  bfind EOI [x00; xff; xd8; x41] 1 = None /\
  stream_frames [[x00; xff; xd8; x41]; [x42; xff; xd9; x43]]
  = [[xff; xd8; x41; x42; xff; xd9]] /\
  stream_frames [[xff]; [xd8; x41]; [xff]; [xd9]]
  = stream_frames [concat [[xff]; [xd8; x41]; [xff]; [xd9]]].
Proof.
  split; [reflexivity|]. split; [reflexivity|]. split.
  - apply (proj2 (proj2 (proj2 chunking_independent))
             [x00; xff; xd8; x41] [x42; xff; xd9; x43] 1 5); reflexivity.
  - apply (proj1 (proj2 chunking_independent)).
    repeat constructor; discriminate.
Defined.

Lemma find_at_EOI_zeros (n i : nat) :
  find_at Byte.byte_eq_dec EOI (repeat x00 n) i = None.
Proof.
  revert i. induction n as [|n IH]; intros i; [reflexivity|].
  simpl repeat. cbn [find_at].
  replace (starts_with Byte.byte_eq_dec EOI (x00 :: repeat x00 n)) with false
    by reflexivity.
  apply IH.
Qed.

(** A start marker and a payload without end marker: nothing to cut. *)
Lemma held_payload (payload : bytes) :
  bfind EOI payload 0 = None ->
  feed [] (SOI ++ payload) = ([], SOI ++ payload).
Proof.
  intros Hnone. unfold feed. rewrite app_nil_l. apply drain_drained.
  unfold next_frame.
  replace (bfind SOI (SOI ++ payload) 0) with (Some 0) by reflexivity.
  rewrite bfind_zero in *.
  rewrite find_at_EOI_absent by assumption. reflexivity.
Qed.

Lemma held_whole (n : nat) :
  feed [] (SOI ++ repeat x00 n) = ([], SOI ++ repeat x00 n).
Proof.
  apply held_payload. rewrite bfind_zero. apply find_at_EOI_zeros.
Qed.

(** C4 (as amended): the demuxer has no bound on the bytes it holds and no
    overflow error.  A start marker followed by any bytes that hold no end
    marker is held whole, however many they are, and for every [n] there
    are [n] such bytes; no frame comes out and the demuxer goes on
    working: the end marker, when it comes, completes the frame of
    [n + 4] bytes.  The loop raises only what a read raised. *)
Theorem buffer_unbounded :
  (forall payload,
      bfind EOI payload 0 = None ->
      let held := SOI ++ payload in
      feed [] held = ([], held) /\
      length (snd (feed [] held)) = length payload + 2 /\
      feed held EOI = ([held ++ EOI], []) /\
      length (held ++ EOI) = length payload + 4) /\
  (forall n, bfind EOI (repeat x00 n) 0 = None /\ length (repeat x00 n) = n) /\
  (forall chunks buffer,
      snd (read_loop (map Chunk chunks) buffer) = Returned) /\
  (forall reads buffer e,
      snd (read_loop reads buffer) = Raised e -> In (ReadRaises e) reads).
Proof.
  split; [|split; [|split]].
  - intros payload Hnone held.
    assert (H1 : feed [] held = ([], held)) by (apply held_payload; assumption).
    split; [assumption|]. split; [|split].
    + rewrite H1. cbn [snd]. unfold held. rewrite length_app. simpl. lia.
    + unfold feed, held. rewrite drain_step.
      replace ((SOI ++ payload) ++ EOI)
        with (SOI ++ payload ++ EOI ++ [])
        by (rewrite app_nil_r, <- app_assoc; reflexivity).
      rewrite (next_frame_framed _ _ Hnone).
      replace (drain []) with (@nil bytes, @nil byte) by reflexivity.
      rewrite app_nil_r. reflexivity.
    + unfold held. rewrite !length_app. simpl. lia.
  - intros n. split; [|apply repeat_length].
    rewrite bfind_zero. apply find_at_EOI_zeros.
  - induction chunks as [|chunk rest IH]; intros buffer; simpl; [reflexivity|].
    destruct chunk as [|b chunk]; [reflexivity|].
    destruct (feed buffer (b :: chunk)) as [frames buffer'].
    specialize (IH buffer').
    destruct (read_loop (map Chunk rest) buffer') as [later status].
    exact IH.
  - induction reads as [|r rest IH]; intros buffer e; simpl; [discriminate|].
    destruct r as [chunk|e'].
    + destruct chunk as [|b chunk]; [discriminate|].
      destruct (feed buffer (b :: chunk)) as [frames buffer'].
      specialize (IH buffer' e).
      destruct (read_loop rest buffer') as [later status].
      simpl in *. intros H. right. apply IH, H.
    + simpl. intros [= ->]. left. reflexivity.
Qed.

Lemma buffer_unbounded_witness :
  bfind EOI [x41; xff; x41; xd9] 0 = None /\
  feed [] (SOI ++ [x41; xff; x41; xd9]) = ([], SOI ++ [x41; xff; x41; xd9]) /\
  feed (SOI ++ [x41; xff; x41; xd9]) EOI
  = ([SOI ++ [x41; xff; x41; xd9] ++ EOI], []) /\
  snd (read_loop [Chunk [xff]; ReadRaises TimeoutError] []) = Raised TimeoutError /\
  In (ReadRaises TimeoutError) [Chunk [xff]; ReadRaises TimeoutError].
Proof.
  assert (Hnone : bfind EOI [x41; xff; x41; xd9] 0 = None) by reflexivity.
  assert (H : snd (read_loop [Chunk [xff]; ReadRaises TimeoutError] [])
              = Raised TimeoutError) by reflexivity.
  destruct (proj1 buffer_unbounded _ Hnone) as (H1 & _ & H2 & _).
  split; [exact Hnone|]. split; [exact H1|]. split.
  - rewrite H2. rewrite <- app_assoc. reflexivity.
  - split; [exact H|].
    exact (proj2 (proj2 (proj2 buffer_unbounded)) _ _ _ H).
Defined.

(** C4, as first stated, fails: no limit bounds what the demuxer holds. *)
Lemma no_overflow_bound :
  ~ exists limit, forall chunks, length (snd (feed_all [] chunks)) <= limit.
Proof.
  intros [limit H].
  specialize (H [SOI ++ repeat x00 limit]).
  simpl in H.
  change (feed [] (xff :: xd8 :: repeat x00 limit))
    with (feed [] (SOI ++ repeat x00 limit)) in H.
  rewrite held_whole in H. simpl in H. rewrite repeat_length in H. lia.
Qed.


(* ===================================================================== *)
(** * Splitting strings                                                   *)
(* ===================================================================== *)

Section OneChar.
Context {A : Type} (eq_dec : forall x y : A, {x = y} + {x <> y}).

Lemma find_at_char_absent (c : A) (s : list A) :
  ~ In c s -> forall i, find_at eq_dec [c] s i = None.
Proof.
  induction s as [|a s IH]; intros Hc i; [reflexivity|].
  cbn [find_at starts_with].
  destruct (eq_dec c a) as [->|]; [exfalso; apply Hc; left; reflexivity|].
  apply IH. intros Hin. apply Hc. right. assumption.
Qed.

Lemma find_at_char_first (c : A) (s tail : list A) :
  ~ In c s -> forall i, find_at eq_dec [c] (s ++ c :: tail) i = Some (i + length s).
Proof.
  induction s as [|a s IH]; intros Hc i.
  - cbn [app find_at starts_with]. destruct (eq_dec c c); [|congruence].
    simpl. f_equal. lia.
  - change ((a :: s) ++ c :: tail) with (a :: (s ++ c :: tail)).
    cbn [find_at starts_with].
    destruct (eq_dec c a) as [->|]; [exfalso; apply Hc; left; reflexivity|].
    rewrite IH; [f_equal; simpl; lia|].
    intros Hin. apply Hc. right. assumption.
Qed.

Lemma find_at_present (sub buf : list A) :
  forall j i, starts_with eq_dec sub (skipn j buf) = true ->
              j <= length buf ->
              exists k, find_at eq_dec sub buf i = Some (i + k) /\ k <= j.
Proof.
  induction buf as [|b rest IH]; intros j i Hocc Hj.
  - simpl in Hj. assert (j = 0) by lia. subst j. simpl in Hocc.
    exists 0. cbn [find_at]. rewrite Hocc. split; [f_equal; lia | lia].
  - cbn [find_at].
    destruct (starts_with eq_dec sub (b :: rest)) eqn:Hs.
    + exists 0. split; [f_equal; lia | lia].
    + destruct j as [|j]; [simpl in Hocc; congruence|].
      simpl in Hocc, Hj.
      destruct (IH j (S i) Hocc ltac:(lia)) as (k & Hk & Hkj).
      exists (S k). rewrite Hk. split; [f_equal; lia | lia].
Qed.

End OneChar.

Lemma firstn_prefix (A : Type) (s t : list A) : firstn (length s) (s ++ t) = s.
Proof. rewrite firstn_app, Nat.sub_diag, firstn_all, firstn_O. apply app_nil_r. Qed.

Lemma skipn_prefix (A : Type) (s t : list A) : skipn (length s) (s ++ t) = t.
Proof. rewrite skipn_app, Nat.sub_diag, skipn_all. reflexivity. Qed.

Lemma skipn_past (A : Type) (s : list A) (c : A) (t : list A) :
  skipn (length s + 1) (s ++ c :: t) = t.
Proof.
  replace (length s + 1) with (length (s ++ [c])) by apply length_app.
  replace (s ++ c :: t) with ((s ++ [c]) ++ t) by (rewrite <- app_assoc; reflexivity).
  apply skipn_prefix.
Qed.

Lemma sfind_zero (sub s : str) : sfind sub s 0 = find_at ascii_dec sub s 0.
Proof. reflexivity. Qed.

Lemma split_step (sep s : str) :
  sep <> [] ->
  split sep s =
  match sfind sep s 0 with
  | None => [s]
  | Some i => firstn i s :: split sep (skipn (i + length sep) s)
  end.
Proof.
  intros Hsep. destruct sep as [|c sep']; [congruence|]. clear Hsep.
  funelim (split (c :: sep') s);
    match goal with H : sfind _ _ _ = _ |- _ => rewrite H end; reflexivity.
Qed.

Lemma split_absent (sep s : str) :
  sep <> [] -> sfind sep s 0 = None -> split sep s = [s].
Proof. intros Hsep H. rewrite split_step, H by assumption. reflexivity. Qed.

Lemma split_nonempty (sep s : str) : sep <> [] -> split sep s <> [].
Proof.
  intros Hsep. rewrite split_step by assumption.
  destruct (sfind sep s 0); discriminate.
Qed.

Lemma scontains_char (c : ascii) (s tail : str) :
  scontains [c] (s ++ c :: tail) = true.
Proof.
  unfold scontains, contains. fold sfind. rewrite sfind_zero.
  destruct (@find_at_present _ ascii_dec [c] (s ++ c :: tail) (length s) 0)
    as (k & Hk & _).
  - rewrite skipn_app, Nat.sub_diag, skipn_all. simpl.
    destruct (ascii_dec c c); [reflexivity | congruence].
  - rewrite length_app. lia.
  - rewrite Hk. reflexivity.
Qed.

Lemma scontains_char_absent (c : ascii) (s : str) :
  lacks c s -> scontains [c] s = false.
Proof.
  intros Hc. unfold scontains, contains. fold sfind.
  rewrite sfind_zero, find_at_char_absent; [reflexivity | assumption].
Qed.

Lemma split1_char (c : ascii) (s tail : str) :
  lacks c s -> split1 [c] (s ++ c :: tail) = [s; tail].
Proof.
  intros Hc. unfold split1. rewrite sfind_zero, find_at_char_first by assumption.
  cbn [Nat.add length]. rewrite firstn_prefix, skipn_past. reflexivity.
Qed.

Lemma split_char_two (c : ascii) (s t : str) :
  lacks c s -> lacks c t -> split [c] (s ++ c :: t) = [s; t].
Proof.
  intros Hs Ht.
  rewrite split_step, sfind_zero, find_at_char_first by (assumption || discriminate).
  cbn [Nat.add length]. rewrite firstn_prefix, skipn_past.
  rewrite split_absent; [reflexivity | discriminate |].
  rewrite sfind_zero. apply find_at_char_absent. assumption.
Qed.

Lemma split_char_whole (c : ascii) (s : str) :
  lacks c s -> split [c] s = [s].
Proof.
  intros Hs. apply split_absent; [discriminate|]. rewrite sfind_zero.
  apply find_at_char_absent. assumption.
Qed.

(** ["session="] does not overlap a shifted copy of itself. *)
Lemma session_key_unbordered (t tail : str) :
  0 < length t < 8 -> sstarts SESSION_KEY (t ++ SESSION_KEY ++ tail) = false.
Proof.
  intros Hlen.
  destruct t as [|t1 [|t2 [|t3 [|t4 [|t5 [|t6 [|t7 [|t8 t]]]]]]]];
    simpl in Hlen; try lia; clear Hlen;
    unfold sstarts, SESSION_KEY, lit;
    cbn [list_ascii_of_string app starts_with];
    repeat match goal with
           | |- context [ascii_dec ?a ?b] =>
               destruct (ascii_dec a b); try reflexivity; try congruence; subst
           end.
Qed.


Lemma last_cons (A : Type) (x : A) (l : list A) (d : A) :
  l <> [] -> last (x :: l) d = last l d.
Proof. destruct l; [congruence | reflexivity]. Qed.

(** The last piece of a split at ["session="] is what follows the last
    occurrence of the key. *)
Lemma last_split_session (s : str) :
  sfind SESSION_KEY s 0 = None ->
  forall a, last (split SESSION_KEY (a ++ SESSION_KEY ++ s)) [] = s.
Proof.
  intros Hs a. induction a as [a IH] using length_ind.
  assert (Hkey : SESSION_KEY <> []) by discriminate.
  rewrite split_step by assumption.
  destruct (@find_at_present _ ascii_dec SESSION_KEY (a ++ SESSION_KEY ++ s)
              (length a) 0) as (k & Hk & Hka).
  { rewrite skipn_prefix. apply starts_with_app. }
  { rewrite length_app. lia. }
  simpl Nat.add in Hk. rewrite sfind_zero, Hk.
  assert (Hocc : sstarts SESSION_KEY (skipn k (a ++ SESSION_KEY ++ s)) = true).
  { rewrite <- sfind_zero in Hk. apply find_occurrence in Hk. apply Hk. }
  destruct (Nat.eq_dec k (length a)) as [->|Hne].
  - change (length SESSION_KEY) with 8.
    replace (a ++ SESSION_KEY ++ s) with ((a ++ SESSION_KEY) ++ s) at 2
      by (rewrite <- app_assoc; reflexivity).
    replace (length a + 8) with (length (a ++ SESSION_KEY))
      by (rewrite length_app; reflexivity).
    rewrite skipn_prefix, split_absent by assumption. reflexivity.
  - rewrite last_cons by (apply split_nonempty; assumption).
    rewrite skipn_app in Hocc. replace (k - length a) with 0 in Hocc by lia.
    rewrite skipn_O in Hocc.
    destruct (Nat.le_gt_cases (k + 8) (length a)) as [Hin|Hover].
    + change (length SESSION_KEY) with 8.
      rewrite skipn_app. replace (k + 8 - length a) with 0 by lia.
      rewrite skipn_O. apply IH. rewrite length_skipn. lia.
    + rewrite session_key_unbordered in Hocc; [discriminate|].
      rewrite length_skipn. lia.
Qed.

(* ===================================================================== *)
(** * [int]                                                               *)
(* ===================================================================== *)

Lemma digit_not_space (c : ascii) : is_digit c = true -> is_space c = false.
Proof.
  unfold is_digit, is_space. cbv zeta.
  rewrite andb_true_iff, !N.leb_le. intros [H1 H2].
  rewrite !orb_false_iff, andb_false_iff, !N.eqb_neq, !N.leb_gt. lia.
Qed.

Lemma digit_is_not (c d : ascii) : is_digit d = false -> is_digit c = true -> c <> d.
Proof. intros Hd Hc ->. congruence. Qed.

Lemma digits_lack (d : ascii) (text : str) :
  is_digit d = false -> forallb is_digit text = true -> lacks d text.
Proof.
  intros Hd Hall Hin. rewrite forallb_forall in Hall.
  apply Hall in Hin. congruence.
Qed.

Lemma lstrip_space_digits (text : str) :
  forallb is_digit text = true -> lstrip_space text = text.
Proof.
  destruct text as [|c text]; [reflexivity|]. cbn [forallb lstrip_space].
  intros H. apply andb_true_iff in H. destruct H as [Hc _].
  rewrite (digit_not_space _ Hc). reflexivity.
Qed.

(** A run of digits is scanned to its end. *)
Lemma scan_digits_all :
  forall text acc count,
    forallb is_digit text = true ->
    scan_digits acc count text
    = Some (fold_left (fun a c => (10 * a + digit_value c)%Z) text acc,
            (count + N.of_nat (length text))%N, []).
Proof.
  induction text as [|c rest IH]; intros acc count Hall.
  - simpl. rewrite N.add_0_r. reflexivity.
  - simpl in Hall. apply andb_true_iff in Hall. destruct Hall as [Hc Hrest].
    cbn [scan_digits fold_left]. rewrite Hc.
    destruct rest as [|u rest'].
    + reflexivity.
    + assert (Hu : is_digit u = true)
        by (simpl in Hrest; apply andb_true_iff in Hrest; apply Hrest).
      destruct (ascii_dec u "_") as [->|_]; [discriminate Hu|].
      rewrite IH by assumption.
      replace (count + 1 + N.of_nat (length (u :: rest')))%N
        with (count + N.of_nat (length (c :: u :: rest')))%N; [reflexivity|].
      change (length (c :: u :: rest')) with (S (length (u :: rest'))). lia.
Qed.

(** [int] on a literal of decimal digits within the limit. *)
Lemma py_int_digits (text : str) :
  text <> [] -> forallb is_digit text = true ->
  (N.of_nat (length text) <= max_str_digits)%N ->
  py_int text = Ok (decimal_value text).
Proof.
  destruct text as [|c rest]; [congruence|]. intros _ Hall Hlen.
  unfold py_int. rewrite (lstrip_space_digits _ Hall).
  assert (Hc : is_digit c = true)
    by (simpl in Hall; apply andb_true_iff in Hall; apply Hall).
  unfold take_sign.
  destruct (ascii_dec c "-") as [->|_]; [discriminate Hc|].
  destruct (ascii_dec c "+") as [->|_]; [discriminate Hc|].
  rewrite scan_digits_all by assumption. rewrite N.add_0_l.
  destruct (N.eqb_spec (N.of_nat (length (c :: rest))) 0) as [H0|_];
    [simpl in H0; lia|].
  destruct (N.ltb_spec max_str_digits (N.of_nat (length (c :: rest))));
    [lia|].
  reflexivity.
Qed.

(** ... and beyond the limit. *)
Lemma py_int_too_long (text : str) :
  forallb is_digit text = true ->
  (max_str_digits < N.of_nat (length text))%N ->
  py_int text = Exc (ValueError (IntLimit (N.of_nat (length text)))).
Proof.
  intros Hall Hlen. unfold py_int. rewrite (lstrip_space_digits _ Hall).
  assert (Hsign : take_sign text = (false, text)).
  { destruct text as [|c rest]; [reflexivity|].
    assert (Hc : is_digit c = true)
      by (simpl in Hall; apply andb_true_iff in Hall; apply Hall).
    unfold take_sign.
    destruct (ascii_dec c "-") as [->|_]; [discriminate Hc|].
    destruct (ascii_dec c "+") as [->|_]; [discriminate Hc|].
    reflexivity. }
  rewrite Hsign, scan_digits_all by assumption. rewrite N.add_0_l.
  destruct (N.eqb_spec (N.of_nat (length text)) 0) as [H0|_];
    [unfold max_str_digits in Hlen; lia|].
  destruct (N.ltb_spec max_str_digits (N.of_nat (length text))); [|lia].
  reflexivity.
Qed.

Lemma py_int_raises_value_error (text : str) (e : exn) :
  py_int text = Exc e -> exists why, e = ValueError why.
Proof.
  unfold py_int. destruct (take_sign (lstrip_space text)) as [negative s].
  destruct (scan_digits 0 0 s) as [[[n count] rest]|];
    [|intros [= <-]; eauto].
  destruct (count =? 0)%N; [intros [= <-]; eauto|].
  destruct (max_str_digits <? count)%N; [intros [= <-]; eauto|].
  destruct (lstrip_space rest); [discriminate|intros [= <-]; eauto].
Qed.

Lemma lstrip_space_lacks (c : ascii) (s : str) :
  is_space c = false -> In c s -> In c (lstrip_space s).
Proof.
  intros Hc. induction s as [|a s IH]; [intros []|].
  cbn [lstrip_space]. destruct (is_space a) eqn:Ha; [|tauto].
  intros [->|Hin]; [congruence | apply IH, Hin].
Qed.

Lemma scan_digits_rest (c : ascii) :
  is_digit c = false -> c <> "_"%char ->
  forall s acc count n count' rest,
    scan_digits acc count s = Some (n, count', rest) -> In c s -> In c rest.
Proof.
  intros Hd Hu. induction s as [s IH] using length_ind.
  intros acc count n count' rest. destruct s as [|a s]; [intros _ []|].
  cbn [scan_digits]. destruct (is_digit a) eqn:Ha.
  2:{ intros [= _ _ <-]. tauto. }
  assert (Hca : c <> a) by (intros ->; congruence).
  destruct s as [|u s'].
  - intros _ [H|[]]. congruence.
  - destruct (ascii_dec u "_") as [->|Hnu].
    + destruct s' as [|d s'']; [discriminate|].
      destruct (is_digit d) eqn:Hdd; [|discriminate].
      intros Hscan [H|[H|Hin]]; try congruence.
      eapply IH; [|exact Hscan|exact Hin]. simpl. lia.
    + intros Hscan [H|Hin]; [congruence|].
      eapply IH; [|exact Hscan|exact Hin]. simpl. lia.
Qed.

Lemma take_sign_lacks (c : ascii) (s : str) :
  c <> "+"%char -> c <> "-"%char -> In c s -> In c (snd (take_sign s)).
Proof.
  intros Hp Hm. destruct s as [|a s]; [tauto|]. unfold take_sign.
  destruct (ascii_dec a "-") as [->|_]; [intros [H|H]; [congruence | exact H]|].
  destruct (ascii_dec a "+") as [->|_]; [intros [H|H]; [congruence | exact H]|].
  tauto.
Qed.

(** The empty text and a text with a foreign character are no integer
    literals. *)
Lemma py_int_foreign (text : str) :
  text = [] \/ (exists c, In c text /\ foreign c) ->
  exists why, py_int text = Exc (ValueError why).
Proof.
  intros [->|(c & Hin & Hd & Hs & Hp & Hm & Hu)]; [eexists; reflexivity|].
  unfold py_int.
  pose proof (take_sign_lacks _ Hp Hm (lstrip_space_lacks _ _ Hs Hin)) as Hin1.
  destruct (take_sign (lstrip_space text)) as [negative s]. simpl in Hin1.
  destruct (scan_digits 0 0 s) as [[[n count] rest]|] eqn:Hscan;
    [|eexists; reflexivity].
  destruct (count =? 0)%N; [eexists; reflexivity|].
  destruct (max_str_digits <? count)%N; [eexists; reflexivity|].
  pose proof (scan_digits_rest Hd Hu _ _ _ Hscan Hin1) as Hin2.
  apply (lstrip_space_lacks _ _ Hs) in Hin2.
  destruct (lstrip_space rest); [destruct Hin2 | eexists; reflexivity].
Qed.

Example py_int_443 : py_int (lit "443") = Ok 443%Z.
Proof. reflexivity. Qed.

Example py_int_forms :
  py_int (lit " 8_080 ") = Ok 8080%Z /\ py_int (lit "-7") = Ok (-7)%Z /\
  py_int [] = Exc (ValueError (InvalidIntLiteral [])) /\
  py_int (lit "4 4") = Exc (ValueError (InvalidIntLiteral (lit "4 4"))) /\
  py_int (lit "_1") = Exc (ValueError (InvalidIntLiteral (lit "_1"))) /\
  py_int (lit "1__0") = Exc (ValueError (InvalidIntLiteral (lit "1__0"))) /\
  py_int (lit "1_") = Exc (ValueError (InvalidIntLiteral (lit "1_"))) /\
  py_int (lit "https") = Exc (ValueError (InvalidIntLiteral (lit "https"))).
Proof. repeat split; reflexivity. Qed.

(** NBSP and NEL are whitespace for [int]; the separators 28..31 and the
    superscript digits are not taken. *)
Example py_int_whitespace :
  py_int [ascii_of_nat 160; "9"%char; ascii_of_nat 133] = Ok 9%Z /\
  (exists why, py_int [ascii_of_nat 28; "9"%char; ascii_of_nat 31]
               = Exc (ValueError why)) /\
  (exists why, py_int [ascii_of_nat 178] = Exc (ValueError why)) /\
  isdigit [ascii_of_nat 178] = true.
Proof. repeat split; try reflexivity; eexists; reflexivity. Qed.

Example py_int_limit :
  py_int (repeat "1"%char 4301) = Exc (ValueError (IntLimit 4301)).
Proof. vm_compute. reflexivity. Qed.

(* ===================================================================== *)
(** * [_parse_url]                                                        *)
(* ===================================================================== *)

Lemma parse_url_immis (body : str) :
  _parse_url (IMMIS_SCHEME ++ body)
  = if scontains (lit "/") body then
      match split1 (lit "/") body with
      | [host_port; path] => host_port_of host_port (lit "/" ++ path)
      | pieces => Exc (ValueError (UnpackMismatch (length pieces)))
      end
    else host_port_of body (lit "/").
Proof.
  unfold _parse_url.
  replace (sstarts IMMIS_SCHEME (IMMIS_SCHEME ++ body)) with true
    by (symmetry; apply starts_with_app).
  change (skipn 8 (IMMIS_SCHEME ++ body)) with body.
  destruct (scontains (lit "/") body); [|reflexivity].
  destruct (split1 (lit "/") body) as [|? [|? [|? ?]]]; reflexivity.
Qed.

Lemma parse_url_other (url : str) :
  sstarts IMMIS_SCHEME url = false ->
  _parse_url url
  = if scontains (lit "/") url then
      match split1 (lit "/") url with
      | [host_port; path] => host_port_of host_port (lit "/" ++ path)
      | pieces => Exc (ValueError (UnpackMismatch (length pieces)))
      end
    else host_port_of url (lit "/").
Proof.
  intros H. unfold _parse_url. rewrite H.
  destruct (scontains (lit "/") url); [|reflexivity].
  destruct (split1 (lit "/") url) as [|? [|? [|? ?]]]; reflexivity.
Qed.

Lemma no_scheme_without_colon (url : str) :
  lacks ":" url -> sstarts IMMIS_SCHEME url = false.
Proof.
  intros Hc. destruct (sstarts IMMIS_SCHEME url) eqn:H; [|reflexivity].
  apply starts_with_inv in H. exfalso. apply Hc. rewrite H.
  apply in_or_app. left. simpl. tauto.
Qed.

Lemma host_port_of_both (host port path : str) :
  lacks ":" host -> lacks ":" port ->
  host_port_of (host ++ lit ":" ++ port) path
  = match py_int port with
    | Ok n => Ok (host, n, path)
    | Exc e => Exc e
    end.
Proof.
  intros Hh Hp. unfold host_port_of.
  change (host ++ lit ":" ++ port) with (host ++ ":"%char :: port).
  change (lit ":") with [":"%char].
  rewrite scontains_char, split_char_two by assumption. reflexivity.
Qed.

Lemma host_port_of_host (host path : str) :
  lacks ":" host -> host_port_of host path = Ok (host, 443%Z, path).
Proof.
  intros Hh. unfold host_port_of. change (lit ":") with [":"%char].
  rewrite scontains_char_absent by assumption. reflexivity.
Qed.

Lemma body_with_path (host_port path : str) :
  lacks "/" host_port ->
  (if scontains (lit "/") (host_port ++ lit "/" ++ path) then
      match split1 (lit "/") (host_port ++ lit "/" ++ path) with
      | [hp; p] => host_port_of hp (lit "/" ++ p)
      | pieces => Exc (ValueError (UnpackMismatch (length pieces)))
      end
    else host_port_of (host_port ++ lit "/" ++ path) (lit "/"))
  = host_port_of host_port (lit "/" ++ path).
Proof.
  intros H. change (host_port ++ lit "/" ++ path) with (host_port ++ "/"%char :: path).
  change (lit "/") with ["/"%char].
  rewrite scontains_char, split1_char by assumption. reflexivity.
Qed.

Lemma lacks_app (c : ascii) (s t : str) :
  lacks c s -> lacks c t -> lacks c (s ++ t).
Proof. unfold lacks. intros Hs Ht Hin. apply in_app_or in Hin. tauto. Qed.

Lemma lacks_colon_cons (c : ascii) (s : str) :
  c <> ":"%char -> lacks ":" s -> lacks ":" (c :: s).
Proof. unfold lacks. intros Hc Hs [H|H]; [congruence | tauto]. Qed.

Lemma subscription_session_query (path s : str) :
  s <> [] -> lacks "&" s -> sfind SESSION_KEY s 0 = None ->
  subscription_session (path ++ SESSION_KEY ++ s) = s.
Proof.
  intros Hne Hamp Hkey. unfold subscription_session.
  fold SESSION_KEY.
  assert (Hc : scontains SESSION_KEY (path ++ SESSION_KEY ++ s) = true).
  { unfold scontains, contains. fold sfind. rewrite sfind_zero.
    destruct (@find_at_present _ ascii_dec SESSION_KEY (path ++ SESSION_KEY ++ s)
                (length path) 0) as (k & Hk & _).
    - rewrite skipn_prefix. apply starts_with_app.
    - rewrite length_app. lia.
    - rewrite Hk. reflexivity. }
  rewrite Hc, last_split_session by assumption.
  change (lit "&") with ["&"%char]. rewrite split_char_whole by assumption.
  destruct s; [congruence | reflexivity].
Qed.

Lemma subscription_session_plain (path : str) :
  scontains SESSION_KEY path = false -> subscription_session path = path.
Proof.
  intros H. unfold subscription_session. fold SESSION_KEY. rewrite H. reflexivity.
Qed.

(** [str(e)] of the errors of [int]: the literal is shown as [repr] writes
    it, and a text that is too long is refused for its length before the
    rest of it is looked at. *)
Example exn_str_int :
  exn_str (ValueError (InvalidIntLiteral (lit "https")))
  = "invalid literal for int() with base 10: 'https'"%string /\
  py_repr (lit "a'b") = double_quote :: lit "a'b" ++ [double_quote] /\
  map nat_of_ascii
    (py_repr (map ascii_of_nat [0; 9; 10; 13; 31; 127; 128; 160; 161; 173; 174; 255; 92; 11; 39]))
  = [34; 92; 120; 48; 48; 92; 116; 92; 110; 92; 114; 92; 120; 49; 102; 92; 120; 55; 102; 92; 120; 56; 48; 92; 120; 97; 48; 161; 92; 120; 97; 100; 174; 255; 92; 92; 92; 120; 48; 98; 39; 34] /\
  String.length (exn_str (ValueError (InvalidIntLiteral (repeat "x"%char 300))))
  = 240 /\
  py_int (repeat "1"%char 4301 ++ lit "x") = Exc (ValueError (IntLimit 4301)) /\
  exn_str (ValueError (IntLimit 4301))
  = ("Exceeds the limit (4300 digits) for integer string conversion: "
     ++ "value has 4301 digits; use sys.set_int_max_str_digits() "
     ++ "to increase the limit")%string.
Proof. vm_compute. repeat split. Qed.


Lemma scontains_false (sub s : str) :
  scontains sub s = false -> sfind sub s 0 = None.
Proof.
  unfold scontains, contains. fold sfind.
  destruct (sfind sub s 0); [discriminate | reflexivity].
Qed.

Lemma parse_host_port_path (h p path : str) :
  lacks ":" h -> lacks "/" h -> lacks ":" p -> lacks "/" p ->
  _parse_url (IMMIS_SCHEME ++ h ++ lit ":" ++ p ++ lit "/" ++ path)
  = match py_int p with
    | Ok n => Ok (h, n, lit "/" ++ path)
    | Exc e => Exc e
    end.
Proof.
  intros Hh1 Hh2 Hp1 Hp2. rewrite parse_url_immis.
  replace (h ++ lit ":" ++ p ++ lit "/" ++ path)
    with ((h ++ lit ":" ++ p) ++ lit "/" ++ path)
    by (rewrite <- !app_assoc; reflexivity).
  rewrite body_with_path.
  - apply host_port_of_both; assumption.
  - apply lacks_app; [assumption|]. apply lacks_app; [|assumption].
    unfold lacks, lit. simpl. intuition discriminate.
Qed.

Lemma parse_host_path (h path : str) :
  lacks ":" h -> lacks "/" h ->
  _parse_url (IMMIS_SCHEME ++ h ++ lit "/" ++ path) = Ok (h, 443%Z, lit "/" ++ path).
Proof.
  intros Hh1 Hh2. rewrite parse_url_immis, body_with_path by assumption.
  apply host_port_of_host. assumption.
Qed.

(** C7: an [immis://] reference with host [h], a port [p] of decimal
    digits (at most 4300 of them, the most [int] converts), a path and a
    [session=s] query parses to host [h], port [p] and session [s];
    without a port the port is 443; without a [session=] part the session
    is the path as it stands.  The session is the one of every payload the
    handler builds; it builds one unless the client id passes [isdigit]
    and is refused by [int]. *)
Theorem parse_reference (h p path s : str) :
  lacks ":" h -> lacks "/" h ->
  decimal_digits p = true -> (N.of_nat (length p) <= max_str_digits)%N ->
  s <> [] -> lacks "&" s -> scontains SESSION_KEY s = false ->
  let query := lit "?" ++ SESSION_KEY ++ s in
  _parse_url (IMMIS_SCHEME ++ h ++ lit ":" ++ p ++ lit "/" ++ path ++ query)
  = Ok (h, decimal_value p, lit "/" ++ path ++ query) /\
  subscription_session (lit "/" ++ path ++ query) = s /\
  (forall token account client network camera,
      exists handler,
        new_handler
          (IMMIS_SCHEME ++ h ++ lit ":" ++ p ++ lit "/" ++ path ++ query)
          token account client network camera = Ok handler /\
        h_host handler = h /\ h_port handler = decimal_value p /\
        subscription_session (h_path handler) = s /\
        (forall payload,
            _build_subscription handler = Ok payload ->
            field "session" payload = Some (JStr s)) /\
        (isdigit client = false \/ (exists n, py_int client = Ok n) ->
         exists payload, _build_subscription handler = Ok payload) /\
        (forall e, isdigit client = true -> py_int client = Exc e ->
                   _build_subscription handler = Exc e)) /\
  _parse_url (IMMIS_SCHEME ++ h ++ lit "/" ++ path ++ query)
  = Ok (h, 443%Z, lit "/" ++ path ++ query) /\
  (scontains SESSION_KEY (lit "/" ++ path) = false ->
   _parse_url (IMMIS_SCHEME ++ h ++ lit ":" ++ p ++ lit "/" ++ path)
   = Ok (h, decimal_value p, lit "/" ++ path) /\
   subscription_session (lit "/" ++ path) = lit "/" ++ path).
Proof.
  intros Hh1 Hh2 Hp Hlen Hs Hamp Hkey query.
  assert (Hne : p <> []) by (intros ->; discriminate Hp).
  assert (Hall : forallb is_digit p = true)
    by (unfold decimal_digits in Hp; destruct p; [discriminate | assumption]).
  assert (Hp1 : lacks ":" p) by (apply digits_lack; [reflexivity | assumption]).
  assert (Hp2 : lacks "/" p) by (apply digits_lack; [reflexivity | assumption]).
  assert (Hfull :
    _parse_url (IMMIS_SCHEME ++ h ++ lit ":" ++ p ++ lit "/" ++ path ++ query)
    = Ok (h, decimal_value p, lit "/" ++ path ++ query)).
  { rewrite parse_host_port_path, py_int_digits by assumption. reflexivity. }
  assert (Hsession : subscription_session (lit "/" ++ path ++ query) = s).
  { unfold query.
    replace (lit "/" ++ path ++ lit "?" ++ SESSION_KEY ++ s)
      with ((lit "/" ++ path ++ lit "?") ++ SESSION_KEY ++ s)
      by (rewrite <- !app_assoc; reflexivity).
    apply subscription_session_query; try assumption.
    apply scontains_false. assumption. }
  split; [exact Hfull|]. split; [exact Hsession|]. split; [|split].
  - intros token account client network camera.
    unfold new_handler. rewrite Hfull. eexists. split; [reflexivity|].
    cbn [h_host h_port h_path]. split; [reflexivity|]. split; [reflexivity|].
    split; [exact Hsession|].
    unfold _build_subscription. cbn [h_path h_client_id].
    rewrite Hsession.
    split; [|split].
    + intros payload.
      destruct (isdigit client); [destruct (py_int client) as [n|e]|];
        try discriminate; intros [= <-]; reflexivity.
    + intros [Hd|[n Hn]].
      * rewrite Hd. eexists. reflexivity.
      * rewrite Hn. destruct (isdigit client); eexists; reflexivity.
    + intros e Hd He. rewrite Hd, He. reflexivity.
  - apply parse_host_path; assumption.
  - intros Hplain. split.
    + rewrite parse_host_port_path, py_int_digits by assumption. reflexivity.
    + apply subscription_session_plain. assumption.
Qed.

Lemma parse_reference_witness :
  _parse_url (lit "immis://rtc.example.net:8443/live/cam7?session=a1b2")
  = Ok (lit "rtc.example.net", 8443%Z, lit "/live/cam7?session=a1b2") /\
  subscription_session (lit "/live/cam7?session=a1b2") = lit "a1b2".
Proof.
  assert (H := @parse_reference (lit "rtc.example.net") (lit "8443")
                 (lit "live/cam7") (lit "a1b2")).
  destruct H as (H1 & H2 & _).
  - unfold lacks, lit. simpl. intuition discriminate.
  - unfold lacks, lit. simpl. intuition discriminate.
  - reflexivity.
  - vm_compute. discriminate.
  - discriminate.
  - unfold lacks, lit. simpl. intuition discriminate.
  - reflexivity.
  - split; [exact H1 | exact H2].
Defined.

Lemma parse_errors_are_value_errors (url : str) (e : exn) :
  _parse_url url = Exc e -> exists why, e = ValueError why.
Proof.
  assert (Hhp : forall hp path, host_port_of hp path = Exc e ->
                                exists why, e = ValueError why).
  { intros hp path. unfold host_port_of.
    destruct (scontains (lit ":") hp); [|discriminate].
    destruct (split (lit ":") hp) as [|host [|port [|? ?]]];
      try (intros [= <-]; eexists; reflexivity).
    destruct (py_int port) as [n|e'] eqn:Hint; [discriminate|].
    intros [= <-]. eapply py_int_raises_value_error, Hint. }
  destruct (sstarts IMMIS_SCHEME url) eqn:Hscheme.
  - apply starts_with_inv in Hscheme. rewrite Hscheme.
    fold IMMIS_SCHEME. rewrite parse_url_immis.
    destruct (scontains (lit "/") _); [|apply Hhp].
    destruct (split1 (lit "/") _) as [|? [|? [|? ?]]];
      try (intros [= <-]; eexists; reflexivity).
    apply Hhp.
  - rewrite parse_url_other by assumption.
    destruct (scontains (lit "/") _); [|apply Hhp].
    destruct (split1 (lit "/") _) as [|? [|? [|? ?]]];
      try (intros [= <-]; eexists; reflexivity).
    apply Hhp.
Qed.

Lemma parse_plain_host (s : str) :
  lacks ":" s -> lacks "/" s -> _parse_url s = Ok (s, 443%Z, lit "/").
Proof.
  intros Hc Hs.
  rewrite parse_url_other by (apply no_scheme_without_colon; assumption).
  change (lit "/") with ["/"%char].
  rewrite scontains_char_absent by assumption.
  apply host_port_of_host. assumption.
Qed.

(** C8 (as amended): the parser checks neither the scheme nor the host.  A
    text without [:] and [/] is taken whole as the host, with port 443 and
    path [/]; an empty host segment gives the empty host; the only failure
    is a [ValueError].  Parsing is a function of the text alone. *)
Theorem parse_accepts_unschemed :
  (forall s, lacks ":" s -> lacks "/" s ->
             _parse_url s = Ok (s, 443%Z, lit "/")) /\
  (forall path,
      _parse_url (IMMIS_SCHEME ++ lit "/" ++ path) = Ok ([], 443%Z, lit "/" ++ path)) /\
  _parse_url IMMIS_SCHEME = Ok ([], 443%Z, lit "/") /\
  _parse_url [] = Ok ([], 443%Z, lit "/") /\
  (forall url e, _parse_url url = Exc e -> exists why, e = ValueError why).
Proof.
  split; [|split; [|split; [|split]]].
  - apply parse_plain_host.
  - intros path. apply (@parse_host_path [] path); intros [].
  - reflexivity.
  - reflexivity.
  - apply parse_errors_are_value_errors.
Qed.

Lemma parse_accepts_unschemed_witness :
  _parse_url (lit "camera-7") = Ok (lit "camera-7", 443%Z, lit "/").
Proof.
  apply (proj1 parse_accepts_unschemed);
    unfold lacks, lit; simpl; intuition discriminate.
Defined.

(** C8, as first stated, fails: a text with no scheme and a reference with
    an empty host are both parsed, not refused. *)
Lemma unschemed_counterexample :
  _parse_url (lit "example.com/live")
  = Ok (lit "example.com", 443%Z, lit "/live") /\
  _parse_url (lit "immis:///live?session=1")
  = Ok ([], 443%Z, lit "/live?session=1").
Proof. split; reflexivity. Qed.

Lemma test_immis_parse_eq (url : str) :
  _test_immis_parse url = _parse_url (IMMIS_SCHEME ++ skipn 8 url).
Proof.
  rewrite parse_url_immis. unfold _test_immis_parse.
  generalize (skipn 8 url) as rest. intros rest.
  unfold scontains, contains, split1. fold sfind.
  destruct (sfind (lit "/") rest 0); reflexivity.
Qed.

(** C10: [_parse_url] parses whatever it is given.  A text without [:] and
    [/] is a host on port 443, scheme or not.  In a host segment [h:p] the
    port goes to [int], and what [int] raises leaves the parser as it is,
    a [ValueError] and nothing else, with or without the [immis://]
    prefix; [int] raises on the empty text and on every text that holds a
    character other than digits, whitespace, signs and underscores.  Every
    [rtsp://] and [rtsps://] reference is such a case, with host segment
    [rtsp:] or [rtsps:] and an empty port.  The diagnostic parses what
    follows the first eight characters the same way. *)
Theorem parse_unvalidated :
  (forall s, lacks ":" s -> lacks "/" s ->
             sstarts IMMIS_SCHEME s = false /\
             _parse_url s = Ok (s, 443%Z, lit "/")) /\
  (forall h p tail e,
      lacks ":" h -> lacks "/" h -> lacks ":" p -> lacks "/" p ->
      py_int p = Exc e ->
      tail = [] \/ (exists t, tail = lit "/" ++ t) ->
      (exists why, e = ValueError why) /\
      _parse_url (IMMIS_SCHEME ++ h ++ lit ":" ++ p ++ tail) = Exc e /\
      (sstarts IMMIS_SCHEME (h ++ lit ":" ++ p ++ tail) = false ->
       _parse_url (h ++ lit ":" ++ p ++ tail) = Exc e)) /\
  (forall p,
      p = [] \/ (exists c, In c p /\ foreign c) ->
      exists why, py_int p = Exc (ValueError why)) /\
  (forall rest,
      split1 (lit "/") (lit "rtsp://" ++ rest) = [lit "rtsp:"; lit "/" ++ rest] /\
      _parse_url (lit "rtsp://" ++ rest) = Exc (ValueError (InvalidIntLiteral [])) /\
      split1 (lit "/") (lit "rtsps://" ++ rest) = [lit "rtsps:"; lit "/" ++ rest] /\
      _parse_url (lit "rtsps://" ++ rest) = Exc (ValueError (InvalidIntLiteral []))) /\
  (forall url, _test_immis_parse url = _parse_url (IMMIS_SCHEME ++ skipn 8 url)).
Proof.
  split; [|split; [|split; [|split]]].
  - intros s Hc Hs. split; [apply no_scheme_without_colon; assumption|].
    apply parse_plain_host; assumption.
  - intros h p tail e Hh1 Hh2 Hp1 Hp2 Hint Htail.
    assert (Hbody :
      (if scontains (lit "/") (h ++ lit ":" ++ p ++ tail) then
         match split1 (lit "/") (h ++ lit ":" ++ p ++ tail) with
         | [hp; q] => host_port_of hp (lit "/" ++ q)
         | pieces => Exc (ValueError (UnpackMismatch (length pieces)))
         end
       else host_port_of (h ++ lit ":" ++ p ++ tail) (lit "/"))
      = Exc e).
    { destruct Htail as [->|[t ->]].
      - rewrite app_nil_r. change (lit "/") with ["/"%char].
        rewrite scontains_char_absent.
        + rewrite host_port_of_both, Hint by assumption. reflexivity.
        + apply lacks_app; [assumption|]. apply lacks_app; [|assumption].
          unfold lacks, lit. simpl. intuition discriminate.
      - replace (h ++ lit ":" ++ p ++ lit "/" ++ t)
          with ((h ++ lit ":" ++ p) ++ lit "/" ++ t)
          by (rewrite <- !app_assoc; reflexivity).
        rewrite body_with_path.
        + rewrite host_port_of_both, Hint by assumption. reflexivity.
        + apply lacks_app; [assumption|]. apply lacks_app; [|assumption].
          unfold lacks, lit. simpl. intuition discriminate. }
    split; [eapply py_int_raises_value_error, Hint|]. split.
    + rewrite parse_url_immis. exact Hbody.
    + intros Hscheme. rewrite parse_url_other by assumption. exact Hbody.
  - apply py_int_foreign.
  - intros rest. repeat split; reflexivity.
  - apply test_immis_parse_eq.
Qed.

Lemma parse_unvalidated_witness :
  _parse_url (lit "immis://host:port/live")
  = Exc (ValueError (InvalidIntLiteral (lit "port"))) /\
  _parse_url (lit "host:/live") = Exc (ValueError (InvalidIntLiteral [])).
Proof.
  assert (Hlacks : forall c, c <> "h"%char -> c <> "o"%char -> c <> "s"%char ->
                             c <> "t"%char -> lacks c (lit "host")).
  { intros c H1 H2 H3 H4. unfold lacks, lit. simpl. intuition congruence. }
  assert (Hport : forall c, c <> "p"%char -> c <> "o"%char -> c <> "r"%char ->
                            c <> "t"%char -> lacks c (lit "port")).
  { intros c H1 H2 H3 H4. unfold lacks, lit. simpl. intuition congruence. }
  split.
  - refine (proj1 (proj2 (proj1 (proj2 parse_unvalidated)
                      (lit "host") (lit "port") (lit "/live") _ _ _ _ _ _ _))).
    + apply Hlacks; discriminate.
    + apply Hlacks; discriminate.
    + apply Hport; discriminate.
    + apply Hport; discriminate.
    + reflexivity.
    + right. exists (lit "live"). reflexivity.
  - refine (proj2 (proj2 (proj1 (proj2 parse_unvalidated)
                      (lit "host") [] (lit "/live") _ _ _ _ _ _ _)) _).
    + apply Hlacks; discriminate.
    + apply Hlacks; discriminate.
    + intros [].
    + intros [].
    + reflexivity.
    + right. exists (lit "live"). reflexivity.
    + reflexivity.
Defined.


(* ===================================================================== *)
(** * [_test_immis]                                                       *)
(* ===================================================================== *)

Section NegotiationFacts.
Variable peer : nat -> connection.

Lemma attempt_writes_range (tried : list (string * bytes)) :
  forall conn w, In w (attempt_writes peer conn tried) ->
                 conn <= fst w < conn + length tried.
Proof.
  induction tried as [|[name payload] rest IH]; intros conn w; simpl; [tauto|].
  intros Hin. apply in_app_or in Hin. destruct Hin as [Hin|Hin].
  - destruct (peer conn); simpl in Hin; [tauto|].
    destruct Hin as [<-|[]]. simpl. lia.
  - apply IH in Hin. lia.
Qed.

Lemma attempt_writes_fresh (tried : list (string * bytes)) :
  forall conn, NoDup (map fst (attempt_writes peer conn tried)).
Proof.
  induction tried as [|[name payload] rest IH]; intros conn; simpl;
    [constructor|].
  rewrite map_app. destruct (peer conn); simpl; [apply IH|].
  constructor; [|apply IH].
  intros Hin. apply in_map_iff in Hin. destruct Hin as (w & Hw & Hin).
  apply attempt_writes_range in Hin. lia.
Qed.

Variable json_loads : bytes -> option json.

(** One run of the loop from state [d]: [k] formats are tried, in the
    order of the list, each on the connection opened for it. *)
Lemma try_payloads_trace (formats : list (string * bytes)) :
  forall d,
  exists k vs,
    k <= length formats /\
    opened (try_payloads json_loads peer formats d) = opened d + k /\
    verdicts (try_payloads json_loads peer formats d) = verdicts d ++ vs /\
    map fst vs = map fst (firstn k formats) /\
    written (try_payloads json_loads peer formats d)
    = written d ++ attempt_writes peer (opened d) (firstn k formats).
Proof.
  induction formats as [|[name payload] rest IH]; intros d.
  - exists 0, []. simpl. rewrite !app_nil_r. repeat split; lia.
  - assert (Hnext : forall d1 v ws,
               opened d1 = S (opened d) ->
               verdicts d1 = verdicts d ++ [(name, v)] ->
               written d1 = written d ++ ws ->
               ws = match peer (opened d) with
                    | Connects _ _ => [(opened d, payload)]
                    | ConnectFails _ => []
                    end ->
               exists k vs,
                 k <= length ((name, payload) :: rest) /\
                 opened (try_payloads json_loads peer rest d1) = opened d + k /\
                 verdicts (try_payloads json_loads peer rest d1) = verdicts d ++ vs /\
                 map fst vs = map fst (firstn k ((name, payload) :: rest)) /\
                 written (try_payloads json_loads peer rest d1)
                 = written d
                   ++ attempt_writes peer (opened d)
                        (firstn k ((name, payload) :: rest))).
    { intros d1 v ws Ho Hv Hw Hws.
      destruct (IH d1) as (k & vs & Hk & Hopen & Hverd & Hnames & Hwr).
      exists (S k), ((name, v) :: vs). simpl.
      rewrite Hopen, Hverd, Hwr, Ho, Hv, Hw, Hws, <- !app_assoc, Hnames.
      repeat split; try lia. }
    assert (Hstop : forall d1 ws,
               opened d1 = S (opened d) ->
               verdicts d1 = verdicts d ++ [(name, VideoDetected)] ->
               written d1 = written d ++ ws ->
               ws = match peer (opened d) with
                    | Connects _ _ => [(opened d, payload)]
                    | ConnectFails _ => []
                    end ->
               exists k vs,
                 k <= length ((name, payload) :: rest) /\
                 opened d1 = opened d + k /\
                 verdicts d1 = verdicts d ++ vs /\
                 map fst vs = map fst (firstn k ((name, payload) :: rest)) /\
                 written d1
                 = written d
                   ++ attempt_writes peer (opened d)
                        (firstn k ((name, payload) :: rest))).
    { intros d1 ws Ho Hv Hw Hws.
      exists 1, [(name, VideoDetected)]. simpl.
      rewrite Ho, Hv, Hw, Hws, app_nil_r. repeat split; lia. }
    cbn [try_payloads].
    destruct (peer (opened d)) as [e|drain r] eqn:Hpeer.
    + eapply Hnext; try reflexivity. simpl. rewrite app_nil_r. reflexivity.
    + destruct drain as [e|]; [eapply Hnext; reflexivity|].
      destruct r as [data| |[why| |other]]; try (eapply Hnext; reflexivity).
      destruct (classify json_loads data) eqn:Hc;
        try (eapply Hnext; reflexivity).
      eapply Hstop; reflexivity.
Qed.

Lemma classify_cases (data : bytes) :
  data <> [] ->
  classify json_loads data
  = if has_start_code data then VideoDetected
    else match json_loads data with
         | Some resp => JsonReply resp
         | None => Unparsed
         end.
Proof. destruct data; [congruence | reflexivity]. Qed.

Lemma try_payloads_rejected (name : string) (payload : bytes)
    (rest : list (string * bytes)) (d : diag) (data : bytes) (v : verdict) :
  peer (opened d) = Connects None (Reply data) ->
  classify json_loads data = v ->
  v <> VideoDetected ->
  try_payloads json_loads peer ((name, payload) :: rest) d
  = try_payloads json_loads peer rest
      (note_close (opened d)
         (note_verdict name v (note_write (opened d) payload (note_open d)))).
Proof.
  intros Hpeer Hc Hv. cbn [try_payloads]. rewrite Hpeer, Hc.
  destruct v; congruence.
Qed.

Lemma try_payloads_video (name : string) (payload : bytes)
    (rest : list (string * bytes)) (d : diag) (data : bytes) :
  peer (opened d) = Connects None (Reply data) ->
  classify json_loads data = VideoDetected ->
  try_payloads json_loads peer ((name, payload) :: rest) d
  = log_result "IMMIS Subscription" true
      ("Video data received with '" ++ name ++ "' format")%string
      (note_verdict name VideoDetected
         (note_write (opened d) payload (note_open d))).
Proof.
  intros Hpeer Hc. cbn [try_payloads]. rewrite Hpeer, Hc. reflexivity.
Qed.

End NegotiationFacts.


(** C5 (as amended): the formats are tried in the order of the list, each
    on a connection opened for it and written to once; the loop opens at
    most one connection per format, and [_test_immis] opens one more
    before the loop, to test TLS.  When the first two formats are answered
    by a JSON record and the third by bytes with a start code, success is
    logged for the third: three connections for the formats, four in all. *)
Theorem probe_attempts (json_loads : bytes -> option json)
    (peer : nat -> connection) :
  (forall formats d,
      exists k vs,
        k <= length formats /\
        opened (try_payloads json_loads peer formats d) = opened d + k /\
        verdicts (try_payloads json_loads peer formats d) = verdicts d ++ vs /\
        map fst vs = map fst (firstn k formats) /\
        written (try_payloads json_loads peer formats d)
        = written d ++ attempt_writes peer (opened d) (firstn k formats) /\
        NoDup (map fst (attempt_writes peer (opened d) (firstn k formats)))) /\
  (forall formats,
      opened (_test_immis_connect json_loads peer formats) <= length formats + 1) /\
  (forall n1 p1 n2 p2 n3 p3 w0 r0 a1 a2 a3 j1 j2,
      peer 0 = Connects w0 r0 ->
      peer 1 = Connects None (Reply a1) ->
      peer 2 = Connects None (Reply a2) ->
      peer 3 = Connects None (Reply a3) ->
      a1 <> [] -> has_start_code a1 = false -> json_loads a1 = Some j1 ->
      a2 <> [] -> has_start_code a2 = false -> json_loads a2 = Some j2 ->
      has_start_code (firstn 4 a3) = true ->
      let d := _test_immis_connect json_loads peer
                 [(n1, p1); (n2, p2); (n3, p3)] in
      results d
      = [("IMMIS Subscription", true,
          "Video data received with '" ++ n3 ++ "' format")%string] /\
      verdicts d = [(n1, JsonReply j1); (n2, JsonReply j2); (n3, VideoDetected)] /\
      written d = [(1, p1); (2, p2); (3, p3)] /\
      closed d = [1; 2] /\
      opened d = 4).
Proof.
  split; [|split].
  - intros formats d.
    destruct (try_payloads_trace peer json_loads formats d)
      as (k & vs & Hk & Ho & Hv & Hn & Hw).
    exists k, vs. repeat split; try assumption. apply attempt_writes_fresh.
  - intros formats. unfold _test_immis_connect.
    destruct (peer 0); [simpl; lia|].
    destruct (try_payloads_trace peer json_loads formats (note_open diag0))
      as (k & vs & Hk & Ho & _).
    rewrite Ho. simpl. lia.
  - intros n1 p1 n2 p2 n3 p3 w0 r0 a1 a2 a3 j1 j2 H0 H1 H2 H3
      Ha1 Hc1 Hj1 Ha2 Hc2 Hj2 Hc3 d.
    assert (Hv3 : has_start_code a3 = true).
    { unfold has_start_code in *. rewrite firstn_firstn in Hc3.
      apply orb_true_iff in Hc3. apply orb_true_iff.
      assert (Hgrow : forall sub, contains Byte.byte_eq_dec sub (firstn 4 a3) = true ->
                                  contains Byte.byte_eq_dec sub (firstn 20 a3) = true).
      { intros sub. unfold contains.
        destruct (find Byte.byte_eq_dec sub (firstn 4 a3) 0) as [i|] eqn:Hf;
          [|discriminate].
        intros _.
        replace (firstn 20 a3) with (firstn 4 a3 ++ firstn 16 (skipn 4 a3)).
        - rewrite (find_grow _ _ _ _ _ Hf). reflexivity.
        - rewrite <- (firstn_skipn 4 a3) at 3. rewrite firstn_app.
          destruct (Nat.le_gt_cases 4 (length a3)) as [Hlen|Hlen].
          + rewrite length_firstn. replace (Nat.min 4 (length a3)) with 4 by lia.
            rewrite firstn_firstn. reflexivity.
          + rewrite length_firstn, firstn_firstn.
            replace (Nat.min 4 (length a3)) with (length a3) by lia.
            rewrite (skipn_all2 a3) by lia. rewrite !firstn_nil.
            replace (Nat.min 20 4) with 4 by reflexivity. reflexivity. }
      simpl Nat.min in Hc3. destruct Hc3 as [H|H]; [left | right]; apply Hgrow, H. }
    assert (Hne3 : a3 <> []) by (intros ->; discriminate Hv3).
    assert (Hk1 : classify json_loads a1 = JsonReply j1)
      by (rewrite classify_cases, Hc1, Hj1 by assumption; reflexivity).
    assert (Hk2 : classify json_loads a2 = JsonReply j2)
      by (rewrite classify_cases, Hc2, Hj2 by assumption; reflexivity).
    assert (Hk3 : classify json_loads a3 = VideoDetected)
      by (rewrite classify_cases, Hv3 by assumption; reflexivity).
    unfold d, _test_immis_connect. rewrite H0.
    rewrite (@try_payloads_rejected peer json_loads n1 p1 _ _ a1 (JsonReply j1))
      by (assumption || discriminate).
    rewrite (@try_payloads_rejected peer json_loads n2 p2 _ _ a2 (JsonReply j2))
      by (assumption || discriminate).
    rewrite (@try_payloads_video peer json_loads n3 p3 _ _ a3)
      by assumption.
    repeat split.
Qed.


Lemma probe_attempts_witness :
  opened (_test_immis_connect loads_empty_object scripted_peer three_formats) = 4 /\
  written (_test_immis_connect loads_empty_object scripted_peer three_formats)
  = [(1, list_byte_of_string "A"); (2, list_byte_of_string "B");
     (3, list_byte_of_string "C")].
Proof.
  destruct (proj2 (proj2 (probe_attempts loads_empty_object scripted_peer))
              "Simple"%string (list_byte_of_string "A")
              "With Auth"%string (list_byte_of_string "B")
              "Full"%string (list_byte_of_string "C")
              None (Reply []) json_answer json_answer
              [x00; x00; x00; x01; x67] (JObj []) (JObj []))
    as (_ & _ & Hw & _ & Ho); try reflexivity; try discriminate.
  split; [exact Ho | exact Hw].
Defined.

(** C5, as first stated, fails: with three formats of which the third
    succeeds, [_test_immis] has opened four connections, one more than
    there are formats. *)
Lemma probe_attempts_counterexample :
  let d := _test_immis_connect loads_empty_object scripted_peer three_formats in
  results d
  = [("IMMIS Subscription", true, "Video data received with 'Full' format")%string] /\
  opened d = 4 /\
  ~ opened d <= length three_formats.
Proof.
  repeat split. vm_compute. lia.
Qed.

Lemma no_start_code_in_text (n : nat) : has_start_code (repeat x41 n) = false.
Proof.
  assert (Hfind : forall sub m i,
             find_at Byte.byte_eq_dec (x00 :: sub) (repeat x41 m) i = None).
  { intros sub. induction m as [|m IH]; intros i; [reflexivity|].
    simpl repeat. cbn [find_at starts_with].
    destruct (Byte.byte_eq_dec x00 x41); [discriminate | apply IH]. }
  assert (Hcut : forall m k, firstn k (repeat x41 m) = repeat x41 (Nat.min k m)).
  { induction m as [|m IH]; intros [|k]; simpl; try reflexivity.
    f_equal. apply IH. }
  unfold has_start_code, contains, find. rewrite Hcut.
  cbn [Nat.ltb Nat.leb skipn]. rewrite !Hfind. reflexivity.
Qed.

(** C6 (as amended): a non-empty answer is video exactly when its first 20
    bytes hold a start code; otherwise it is reported as a JSON record
    when it parses as one and as plain bytes when it does not, and in both
    cases, whatever its length, the format is given up: the connection is
    closed and the next format is tried. *)
Theorem reply_classification (json_loads : bytes -> option json) :
  (forall data, has_start_code data = has_start_code (firstn 20 data)) /\
  (forall data,
      data <> [] -> has_start_code data = true ->
      classify json_loads data = VideoDetected) /\
  (forall data resp,
      data <> [] -> has_start_code data = false ->
      json_loads data = Some resp ->
      classify json_loads data = JsonReply resp) /\
  (forall data,
      data <> [] -> has_start_code data = false ->
      json_loads data = None ->
      classify json_loads data = Unparsed) /\
  (forall peer name payload rest d data,
      peer (opened d) = Connects None (Reply data) ->
      data <> [] ->
      (has_start_code data = true ->
       try_payloads json_loads peer ((name, payload) :: rest) d
       = log_result "IMMIS Subscription" true
           ("Video data received with '" ++ name ++ "' format")%string
           (note_verdict name VideoDetected
              (note_write (opened d) payload (note_open d)))) /\
      (has_start_code data = false ->
       try_payloads json_loads peer ((name, payload) :: rest) d
       = try_payloads json_loads peer rest
           (note_close (opened d)
              (note_verdict name (classify json_loads data)
                 (note_write (opened d) payload (note_open d)))))).
Proof.
  split; [|split; [|split; [|split]]].
  - intros data. unfold has_start_code. rewrite firstn_firstn. reflexivity.
  - intros data Hne Hc. rewrite classify_cases, Hc by assumption. reflexivity.
  - intros data resp Hne Hc Hj.
    rewrite classify_cases, Hc, Hj by assumption. reflexivity.
  - intros data Hne Hc Hj.
    rewrite classify_cases, Hc, Hj by assumption. reflexivity.
  - intros peer name payload rest d data Hpeer Hne. split; intros Hc.
    + apply try_payloads_video with (data := data); [assumption|].
      rewrite classify_cases, Hc by assumption. reflexivity.
    + apply try_payloads_rejected with (data := data);
        [assumption | reflexivity |].
      rewrite classify_cases, Hc by assumption.
      destruct (json_loads data); discriminate.
Qed.

Lemma reply_classification_witness :
  classify loads_empty_object json_answer = JsonReply (JObj []) /\
  classify loads_empty_object (repeat x41 5000) = Unparsed.
Proof.
  split.
  - apply (proj1 (proj2 (proj2 (reply_classification loads_empty_object))));
      [discriminate | reflexivity | reflexivity].
  - apply (proj1 (proj2 (proj2 (proj2 (reply_classification loads_empty_object)))));
      [discriminate | apply no_start_code_in_text | reflexivity].
Defined.

(** C6, as first stated, fails in its last case: no length makes an answer
    without start code a success. *)
Lemma no_length_threshold :
  ~ exists threshold,
      forall (json_loads : bytes -> option json) (data : bytes),
        data <> [] -> has_start_code data = false -> json_loads data = None ->
        (classify json_loads data = VideoDetected <-> threshold < length data).
Proof.
  intros [threshold H].
  specialize (H (fun _ => None) (repeat x41 (S threshold))).
  destruct H as [_ H].
  - discriminate.
  - apply no_start_code_in_text.
  - reflexivity.
  - rewrite repeat_length in H. specialize (H (Nat.lt_succ_diag_r threshold)).
    rewrite classify_cases, no_start_code_in_text in H by discriminate.
    discriminate.
Qed.


(* ===================================================================== *)
(** * Teardown                                                            *)
(* ===================================================================== *)

Lemma leave_terminate_once (r : resumed) (p : ffmpeg) (buffer : bytes) :
  terminate_once (snd (leave r p buffer 0)).
Proof. unfold terminate_once. simpl. lia. Qed.

Lemma pump_terminate_once (reads : list read_result) (p : ffmpeg) :
  forall buffer, terminate_once (snd (pump reads p buffer 0)).
Proof.
  induction reads as [|r rest IH]; intros buffer; cbn [pump].
  - apply leave_terminate_once.
  - destruct r as [[|b chunk]|e]; try apply leave_terminate_once.
    destruct (next_frame (buffer ++ b :: chunk)) as [[frame buffer']|].
    + reflexivity.
    + apply IH.
Qed.

Lemma anext_terminate_once (g : ffmpeg_gen) :
  terminate_once g -> terminate_once (snd (anext g)).
Proof.
  unfold anext. intros H. destruct (g_status g) eqn:Hs.
  - unfold terminate_once in H. rewrite Hs in H. rewrite H.
    destruct (spawn (g_process g)).
    + unfold terminate_once. simpl. lia.
    + apply pump_terminate_once.
  - unfold terminate_once in H. rewrite Hs in H. rewrite H.
    destruct (next_frame (g_buffer g)) as [[frame buffer']|].
    + reflexivity.
    + apply pump_terminate_once.
  - exact H.
Qed.

Lemma aclose_terminate_once (g : ffmpeg_gen) :
  terminate_once g -> terminate_once (fst (aclose g)).
Proof.
  unfold aclose, terminate_once. destruct (g_status g) eqn:Hs; simpl.
  - intros ->. lia.
  - intros ->. lia.
  - rewrite Hs. tauto.
Qed.

Lemma run_ops_terminate_once (ops : list gen_op) :
  forall g, terminate_once g -> terminate_once (run_ops ops g).
Proof.
  induction ops as [|[|] rest IH]; intros g H; simpl.
  - exact H.
  - apply IH, anext_terminate_once, H.
  - apply IH, aclose_terminate_once, H.
Qed.

Lemma terminate_once_bound (g : ffmpeg_gen) :
  terminate_once g -> g_terminate_calls g <= 1.
Proof. unfold terminate_once. destruct (g_status g); lia. Qed.




(* ===================================================================== *)
(** * [mjpeg_stream]                                                      *)
(* ===================================================================== *)

Lemma beqb_false (x y : bytes) : beqb x y = false -> x <> y.
Proof.
  unfold beqb, seq_eqb. destruct (list_eq_dec Byte.byte_eq_dec x y);
    [discriminate | auto].
Qed.

Lemma distinct_run_head (images : list bytes) :
  forall l x rest,
    distinct_run (Some l) images = x :: rest -> x <> l.
Proof.
  induction images as [|img images IH]; intros l x rest; simpl; [discriminate|].
  destruct (beqb img l) eqn:Heq.
  - apply IH.
  - intros [= <- _]. apply beqb_false, Heq.
Qed.

Lemma distinct_run_no_repeat (images : list bytes) :
  forall last, no_repeat (distinct_run last images).
Proof.
  induction images as [|img images IH]; intros last; simpl; [exact I|].
  assert (Hcons : no_repeat (img :: distinct_run (Some img) images)).
  { specialize (IH (Some img)).
    destruct (distinct_run (Some img) images) as [|x rest] eqn:Hrun;
      [exact I|].
    split; [|exact IH].
    intros ->. eapply distinct_run_head; [exact Hrun | reflexivity]. }
  destruct last as [l|]; [|exact Hcons].
  destruct (beqb img l); [apply IH | exact Hcons].
Qed.

Section LiveViewFacts.
Variable Svc : Type.
Variable get_liveview : Svc -> Svc * result str.
Variable init_livestream : Svc -> Svc * option exn.
Variable livestream_stop : Svc -> Svc * option exn.
Variable snap_picture : Svc -> Svc * option exn.
Variable refresh : Svc -> Svc * option exn.
Variable image_from_cache : Svc -> option bytes.

Let loop := snapshot_loop snap_picture refresh image_from_cache.
Let polls := polled snap_picture refresh image_from_cache.

Lemma snapshot_loop_frames (n : nat) :
  forall s last,
    loop n s last
    = (parts (distinct_run last (images_of (polls n s))), Returned).
Proof.
  unfold loop, polls.
  induction n as [|n IH]; intros s last; [reflexivity|].
  cbn [snapshot_loop polled]. unfold snapshot_round.
  destruct (snap_picture s) as [s1 [e|]].
  - rewrite IH. reflexivity.
  - destruct (refresh s1) as [s2 [e|]].
    + rewrite IH. reflexivity.
    + destruct (image_from_cache s2) as [[|b img]|] eqn:Himg.
      * simpl. rewrite IH. reflexivity.
      * simpl images_of. cbn [distinct_run is_new].
        destruct last as [l|].
        -- destruct (beqb (b :: img) l); simpl negb; cbv iota;
             rewrite IH; reflexivity.
        -- rewrite IH. reflexivity.
      * simpl. rewrite IH. reflexivity.
Qed.

End LiveViewFacts.


(* ===================================================================== *)
(** * The generator object yields the frames of the loop                  *)
(* ===================================================================== *)

Lemma drain_some (buffer frame rest : bytes) :
  next_frame buffer = Some (frame, rest) ->
  drain buffer = (frame :: fst (drain rest), snd (drain rest)).
Proof.
  intros H. rewrite drain_step, H. destruct (drain rest). reflexivity.
Qed.

Lemma collect_step (fuel : nat) (g : ffmpeg_gen) :
  collect (S fuel) g = frames_after fuel (anext g).
Proof. cbn [collect]. destruct (anext g) as [[frame| |e] g']; reflexivity. Qed.

Lemma frames_after_leave (fuel : nat) (r : resumed) (p : ffmpeg)
    (buffer : bytes) (calls : nat) :
  (forall frame, r <> Yield frame) ->
  frames_after fuel (leave r p buffer calls) = [].
Proof.
  intros Hr. unfold leave, frames_after.
  destruct (terminate p); [reflexivity|].
  destruct r; [exfalso; eapply Hr; reflexivity | reflexivity | reflexivity].
Qed.

(** A generator suspended with [buffer] yields what is left in the buffer
    and then what the remaining reads add; [pump] yields the latter. *)
Lemma collect_suspended (reads : list read_result) (calls : nat) :
  (forall p buffer fuel,
      length (fst (read_loop reads buffer)) <= fuel ->
      frames_after fuel (pump reads p buffer calls)
      = fst (read_loop reads buffer)) /\
  (forall p buffer fuel,
      output p = reads ->
      length (fst (drain buffer))
      + length (fst (read_loop reads (snd (drain buffer)))) < fuel ->
      collect fuel {| g_status := Suspended; g_process := p;
                      g_buffer := buffer; g_terminate_calls := calls |}
      = fst (drain buffer) ++ fst (read_loop reads (snd (drain buffer)))).
Proof.
  assert (Hsusp : forall reads,
    (forall p buffer fuel,
        length (fst (read_loop reads buffer)) <= fuel ->
        frames_after fuel (pump reads p buffer calls)
        = fst (read_loop reads buffer)) ->
    forall buffer p fuel,
      output p = reads ->
      length (fst (drain buffer))
      + length (fst (read_loop reads (snd (drain buffer)))) < fuel ->
      collect fuel {| g_status := Suspended; g_process := p;
                      g_buffer := buffer; g_terminate_calls := calls |}
      = fst (drain buffer) ++ fst (read_loop reads (snd (drain buffer)))).
  { intros rs Hpump.
    induction buffer as [buffer IHb] using length_ind. intros p fuel Hout Hfuel.
    destruct fuel as [|fuel]; [lia|].
    rewrite collect_step. unfold anext.
    cbn [g_status g_buffer g_process g_terminate_calls].
    destruct (next_frame buffer) as [[frame buffer']|] eqn:Hn.
    - rewrite (drain_some _ Hn) in Hfuel |- *. cbn [fst snd] in Hfuel |- *.
      simpl in Hfuel. cbn [frames_after]. rewrite IHb.
      + reflexivity.
      + eapply next_frame_shrinks; eassumption.
      + assumption.
      + lia.
    - rewrite (drain_drained _ Hn) in Hfuel |- *. cbn [fst snd app] in Hfuel |- *.
      rewrite Hout. apply Hpump. lia. }
  induction reads as [|r rest IH].
  - assert (Hpump : forall p buffer fuel,
               length (fst (read_loop [] buffer)) <= fuel ->
               frames_after fuel (pump [] p buffer calls)
               = fst (read_loop [] buffer)).
    { intros p buffer fuel _. cbn [pump read_loop fst].
      apply frames_after_leave. discriminate. }
    split; [exact Hpump|]. intros p buffer fuel. apply Hsusp. exact Hpump.
  - destruct IH as [IHpump IHsusp].
    assert (Hpump : forall p buffer fuel,
               length (fst (read_loop (r :: rest) buffer)) <= fuel ->
               frames_after fuel (pump (r :: rest) p buffer calls)
               = fst (read_loop (r :: rest) buffer)).
    { intros p buffer fuel. cbn [pump read_loop].
      destruct r as [[|b chunk]|e].
      - intros _. apply frames_after_leave. discriminate.
      - unfold feed. intros Hfuel.
        destruct (next_frame (buffer ++ b :: chunk)) as [[frame buffer']|] eqn:Hn.
        + rewrite (drain_some _ Hn) in Hfuel |- *.
          destruct (read_loop rest (snd (drain buffer'))) as [later status] eqn:Hr.
          cbn [fst snd] in Hfuel |- *. cbn [frames_after]. simpl app. f_equal.
          rewrite IHsusp.
          * rewrite Hr. reflexivity.
          * reflexivity.
          * rewrite Hr. simpl in Hfuel. rewrite length_app in Hfuel.
            simpl. lia.
        + rewrite (drain_drained _ Hn) in Hfuel |- *.
          destruct (read_loop rest (buffer ++ b :: chunk)) as [later status] eqn:Hr.
          cbn [fst snd app] in Hfuel |- *.
          rewrite IHpump; rewrite Hr; [reflexivity | exact Hfuel].
      - intros _. apply frames_after_leave. discriminate. }
    split; [exact Hpump|]. intros p buffer fuel. apply Hsusp. exact Hpump.
Qed.

(** Calling [anext] until it no longer yields gives the frames of
    [_stream_via_ffmpeg]; one call more than there are frames is enough. *)
Lemma generator_frames (p : ffmpeg) (fuel : nat) :
  length (fst (_stream_via_ffmpeg p)) < fuel ->
  collect fuel (new_gen p) = fst (_stream_via_ffmpeg p).
Proof.
  unfold _stream_via_ffmpeg. intros Hfuel.
  destruct fuel as [|fuel]; [lia|].
  rewrite collect_step. unfold anext, new_gen.
  cbn [g_status g_process g_buffer g_terminate_calls].
  destruct (spawn p); [reflexivity|].
  destruct (read_loop (output p) []) as [frames status] eqn:Hr.
  cbn [fst] in Hfuel |- *.
  rewrite (proj1 (collect_suspended (output p) 0)); rewrite Hr;
    [reflexivity | simpl; lia].
Qed.

Example generator_frames_ex :
  collect 3 (new_gen {| spawn := None;
                        output := [Chunk [xff; xd8; x01]; Chunk [xff; xd9; xff];
                                   Chunk [xd8; xff; xd9; x07]];
                        terminate := None |})
  = [[xff; xd8; x01; xff; xd9]; [xff; xd8; xff; xd9]].
Proof. reflexivity. Qed.


(* ===================================================================== *)
(** * More on splitting                                                   *)
(* ===================================================================== *)

Section OneCharInverse.
Context {A : Type} (eq_dec : forall x y : A, {x = y} + {x <> y}).

Lemma find_at_char_none (c : A) (s : list A) :
  forall i, find_at eq_dec [c] s i = None -> ~ In c s.
Proof.
  induction s as [|a s IH]; intros i H; [intros []|].
  cbn [find_at starts_with] in H.
  destruct (eq_dec c a) as [->|Hne]; [discriminate|].
  intros [Hin|Hin]; [congruence|]. exact (IH _ H Hin).
Qed.

Lemma find_at_char_some (c : A) (s : list A) :
  forall i j, find_at eq_dec [c] s i = Some j ->
    exists before after,
      s = before ++ c :: after /\ ~ In c before /\ j = i + length before.
Proof.
  induction s as [|a s IH]; intros i j H; [discriminate|].
  cbn [find_at starts_with] in H.
  destruct (eq_dec c a) as [->|Hne].
  - injection H as <-. exists [], s. simpl. repeat split; [tauto | lia].
  - destruct (IH _ _ H) as (before & after & -> & Hb & ->).
    exists (a :: before), after. simpl. repeat split; [|lia].
    intros [Hin|Hin]; [congruence | tauto].
Qed.

End OneCharInverse.

Lemma sfind_char_some (c : ascii) (s : str) (j : nat) :
  sfind [c] s 0 = Some j ->
  exists before after,
    s = before ++ c :: after /\ lacks c before /\ j = length before.
Proof.
  rewrite sfind_zero. intros H.
  destruct (find_at_char_some _ _ _ _ H) as (b & a & Hs & Hb & Hj).
  exists b, a. auto.
Qed.

Lemma sfind_char_none (c : ascii) (s : str) :
  sfind [c] s 0 = None -> lacks c s.
Proof. rewrite sfind_zero. apply find_at_char_none. Qed.

(** The pieces of a split at a character, when there are two. *)
Lemma split_char_two_inv (c : ascii) (s host port : str) :
  split [c] s = [host; port] ->
  s = host ++ c :: port /\ lacks c host /\ lacks c port.
Proof.
  rewrite split_step by discriminate.
  destruct (sfind [c] s 0) as [j|] eqn:Hf; [|discriminate].
  destruct (sfind_char_some _ _ Hf) as (b & a & -> & Hb & ->).
  cbn [length Nat.add]. rewrite firstn_prefix, skipn_past.
  intros [= <- Hrest]. rewrite split_step in Hrest by discriminate.
  destruct (sfind [c] a 0) as [k|] eqn:Hk.
  - exfalso. injection Hrest as _ Hnil.
    exact (split_nonempty (sep := [c]) _ ltac:(discriminate) Hnil).
  - injection Hrest as <-. repeat split; try assumption.
    apply sfind_char_none. assumption.
Qed.

Lemma split_char_many (c : ascii) (s : str) :
  scontains [c] s = true -> 2 <= length (split [c] s).
Proof.
  unfold scontains, contains. fold sfind. rewrite split_step by discriminate.
  destruct (sfind [c] s 0); [|discriminate]. intros _.
  simpl.
  destruct (split [c] (skipn (n + 1) s)) eqn:Hs; [|simpl; lia].
  exfalso. exact (split_nonempty (sep := [c]) _ ltac:(discriminate) Hs).
Qed.

Lemma scontains_char_iff (c : ascii) (s : str) :
  scontains [c] s = false <-> lacks c s.
Proof.
  split; [|apply scontains_char_absent].
  intros H. apply sfind_char_none, scontains_false, H.
Qed.

(** What [host_port_of] accepts, and what it gives. *)
Lemma host_port_of_ok (hp path h q : str) (p : Z) :
  host_port_of hp path = Ok (h, p, q) <->
  q = path /\ lacks ":" h /\
  ((hp = h /\ p = 443%Z) \/
   exists port, hp = h ++ lit ":" ++ port /\ lacks ":" port /\
                py_int port = Ok p).
Proof.
  unfold host_port_of. change (lit ":") with [":"%char].
  destruct (scontains [":"%char] hp) eqn:Hc.
  - split.
    + destruct (split [":"%char] hp) as [|host [|port [|x l]]] eqn:Hs;
        try discriminate.
      destruct (py_int port) as [n|e'] eqn:Hint; [|discriminate].
      intros [= <- <- <-].
      destruct (split_char_two_inv _ _ Hs) as (-> & Hh & Hp).
      repeat split; try assumption. right. exists port. auto.
    + intros (-> & Hh & [[-> ->]|(port & -> & Hp & Hint)]).
      * apply scontains_char_absent in Hh. congruence.
      * change (h ++ [":"%char] ++ port) with (h ++ ":"%char :: port).
        rewrite split_char_two, Hint by assumption. reflexivity.
  - apply scontains_char_iff in Hc. split.
    + intros [= <- <- <-]. repeat split; auto.
    + intros (-> & Hh & [[-> ->]|(port & -> & Hp & Hint)]); [reflexivity|].
      exfalso. apply Hc. apply in_or_app. right. left. reflexivity.
Qed.

(** The text [_parse_url] works on once the scheme is dealt with. *)
Lemma parse_url_body (url : str) :
  _parse_url url
  = let body := if sstarts IMMIS_SCHEME url then skipn 8 url else url in
    if scontains (lit "/") body then
      match split1 (lit "/") body with
      | [host_port; path] => host_port_of host_port (lit "/" ++ path)
      | pieces => Exc (ValueError (UnpackMismatch (length pieces)))
      end
    else host_port_of body (lit "/").
Proof.
  unfold _parse_url. cbv zeta.
  destruct (scontains (lit "/") _); [|reflexivity].
  destruct (split1 (lit "/") _) as [|? [|? [|? ?]]]; reflexivity.
Qed.

Lemma body_split (body : str) :
  (lacks "/" body /\ scontains (lit "/") body = false) \/
  (exists hp rest, body = hp ++ lit "/" ++ rest /\ lacks "/" hp /\
                   scontains (lit "/") body = true /\
                   split1 (lit "/") body = [hp; rest]).
Proof.
  change (lit "/") with ["/"%char].
  destruct (scontains ["/"%char] body) eqn:Hc.
  - right. unfold scontains, contains in Hc. fold sfind in Hc.
    destruct (sfind ["/"%char] body 0) as [j|] eqn:Hf; [|discriminate].
    destruct (sfind_char_some _ _ Hf) as (b & a & -> & Hb & ->).
    exists b, a. repeat split; try assumption.
    apply split1_char. assumption.
  - left. split; [|reflexivity]. apply scontains_char_iff. assumption.
Qed.


(** X1: what [_parse_url] accepts and what it returns.  The text after the
    optional [immis://] is cut at its first [/]; the part before it is the
    host, or host, [:] and a text that [int] converts.  The parse succeeds
    exactly on such texts, with the value of [int] as port, or 443 when
    there is no [:], and with path [/] when there is no [/]. *)
Theorem parse_url_accepts (url h path : str) (p : Z) :
  let body := if sstarts IMMIS_SCHEME url then skipn 8 url else url in
  _parse_url url = Ok (h, p, path) <->
  exists host_port tail,
    body = host_port ++ tail /\ lacks "/" host_port /\
    ((tail = [] /\ path = lit "/") \/
     (exists rest, tail = lit "/" ++ rest /\ path = tail)) /\
    lacks ":" h /\
    ((host_port = h /\ p = 443%Z) \/
     (exists port, host_port = h ++ lit ":" ++ port /\ lacks ":" port /\
                   py_int port = Ok p)).
Proof.
  intros body. rewrite parse_url_body. fold body. cbv zeta.
  destruct (body_split body) as [[Hl Hc]|(hp & rest & Hb & Hl & Hc & Hs)].
  - rewrite Hc, host_port_of_ok. split.
    + intros (-> & Hh & Hcase). exists body, []. rewrite app_nil_r.
      repeat split; auto.
    + intros (hp & tail & Hb & Hhp & Htail & Hh & Hcase).
      destruct Htail as [[-> ->]|(rest & -> & ->)].
      * rewrite app_nil_r in Hb. subst hp. auto.
      * exfalso. apply Hl. rewrite Hb. apply in_or_app. right. left. reflexivity.
  - rewrite Hc, Hs, host_port_of_ok. split.
    + intros (-> & Hh & Hcase). exists hp, (lit "/" ++ rest).
      repeat split; auto. right. exists rest. auto.
    + intros (hp' & tail & Hb' & Hhp & Htail & Hh & Hcase).
      destruct Htail as [[-> ->]|(rest' & -> & ->)].
      * exfalso. rewrite app_nil_r in Hb'. subst hp'. apply Hhp. rewrite Hb.
        apply in_or_app. right. left. reflexivity.
      * assert (Heq : hp = hp' /\ rest = rest').
        { rewrite Hb in Hb'. clear - Hb' Hl Hhp.
          revert hp' Hb' Hhp. induction hp as [|a hp IH]; intros [|b hp'] Heq Hhp.
          - injection Heq as ->. auto.
          - exfalso. injection Heq as <- _. apply Hhp. left. reflexivity.
          - exfalso. injection Heq as -> _. apply Hl. left. reflexivity.
          - injection Heq as -> Heq.
            destruct (IH (fun H => Hl (or_intror H)) hp' Heq
                         (fun H => Hhp (or_intror H))) as [-> ->]. auto. }
        destruct Heq as [<- <-]. auto.
Qed.

Lemma parse_url_accepts_witness :
  exists host_port tail,
    lit "cam.example:8443/live/7" = host_port ++ tail /\ lacks "/" host_port /\
    ((tail = [] /\ lit "/live/7" = lit "/") \/
     (exists rest, tail = lit "/" ++ rest /\ lit "/live/7" = tail)) /\
    lacks ":" (lit "cam.example") /\
    ((host_port = lit "cam.example" /\ 8443%Z = 443%Z) \/
     (exists port, host_port = lit "cam.example" ++ lit ":" ++ port /\
                   lacks ":" port /\ py_int port = Ok 8443%Z)).
Proof.
  exact (proj1 (parse_url_accepts (lit "immis://cam.example:8443/live/7")
                  (lit "cam.example") (lit "/live/7") 8443%Z) eq_refl).
Defined.

(** X2: every successful parse returns a path that begins with [/] and a
    host without [/] and [:]; the host alone parses to itself with the
    defaults; and the scheme is optional: a text that does not begin with
    [immis://] parses as the same text with the scheme put in front. *)
Theorem parse_url_shape :
  (forall url h p path,
      _parse_url url = Ok (h, p, path) ->
      sstarts (lit "/") path = true /\ lacks "/" h /\ lacks ":" h /\
      _parse_url h = Ok (h, 443%Z, lit "/")) /\
  (forall url,
      sstarts IMMIS_SCHEME url = false ->
      _parse_url (IMMIS_SCHEME ++ url) = _parse_url url).
Proof.
  split.
  - intros url h p path Hok.
    rewrite parse_url_body in Hok. cbv zeta in Hok.
    set (body := if sstarts IMMIS_SCHEME url then skipn 8 url else url) in Hok.
    assert (Hshape : sstarts (lit "/") path = true /\ lacks "/" h /\ lacks ":" h).
    { destruct (body_split body) as [[Hl Hc]|(hp & rest & Hb & Hl & Hc & Hs)].
      - rewrite Hc in Hok. apply host_port_of_ok in Hok.
        destruct Hok as (-> & Hh & Hcase). repeat split; try assumption.
        destruct Hcase as [[Hb _]|(port & Hb & _)]; rewrite Hb in Hl.
        + assumption.
        + intros Hin. apply Hl. apply in_or_app. left. assumption.
      - rewrite Hc, Hs in Hok. apply host_port_of_ok in Hok.
        destruct Hok as (-> & Hh & Hcase). repeat split; try assumption.
        destruct Hcase as [[<- _]|(port & -> & _)].
        + assumption.
        + intros Hin. apply Hl. apply in_or_app. left. assumption. }
    destruct Hshape as (Hp & Hh1 & Hh2). repeat split; try assumption.
    apply parse_plain_host; assumption.
  - intros url Hscheme.
    rewrite parse_url_immis, parse_url_other by assumption. reflexivity.
Qed.

Lemma parse_url_shape_witness :
  sstarts (lit "/") (lit "/live") = true /\ lacks "/" (lit "h") /\
  lacks ":" (lit "h") /\ _parse_url (lit "h") = Ok (lit "h", 443%Z, lit "/").
Proof.
  exact (proj1 parse_url_shape (lit "h:1/live") (lit "h") 1%Z (lit "/live") eq_refl).
Defined.

Lemma split_char_head_lacks (c : ascii) (s : str) :
  lacks c (hd [] (split [c] s)).
Proof.
  rewrite split_step by discriminate.
  destruct (sfind [c] s 0) as [j|] eqn:Hf.
  - destruct (sfind_char_some _ _ Hf) as (b & a & -> & Hb & ->).
    cbn [hd]. rewrite firstn_prefix. assumption.
  - apply sfind_char_none. assumption.
Qed.

(** A text that holds [session=] ends with a last one. *)
Lemma last_session_key (path : str) :
  scontains SESSION_KEY path = true ->
  exists before tail,
    path = before ++ SESSION_KEY ++ tail /\ scontains SESSION_KEY tail = false.
Proof.
  induction path as [path IH] using length_ind. intros Hc.
  unfold scontains, contains in Hc. fold sfind in Hc.
  destruct (sfind SESSION_KEY path 0) as [k|] eqn:Hk; [clear Hc|discriminate].
  pose proof (find_bound _ _ _ _ Hk) as [_ Hlen].
  apply find_occurrence in Hk. destruct Hk as (_ & Hocc & _).
  apply starts_with_inv in Hocc. change (length SESSION_KEY) with 8 in *.
  rewrite skipn_skipn in Hocc.
  assert (Hpath : path = firstn k path ++ SESSION_KEY ++ skipn (8 + k) path).
  { rewrite <- Hocc. symmetry. apply firstn_skipn. }
  destruct (scontains SESSION_KEY (skipn (8 + k) path)) eqn:Hrest.
  - destruct (IH (skipn (8 + k) path)) as (b & tail & Hb & Ht).
    + rewrite length_skipn. lia.
    + exact Hrest.
    + exists (firstn k path ++ SESSION_KEY ++ b), tail. split; [|exact Ht].
      rewrite Hpath at 1. rewrite Hb, <- !app_assoc. reflexivity.
  - exists (firstn k path), (skipn (8 + k) path). auto.
Qed.

(** The text up to the first [&]. *)
Lemma split_amp_head (tail : str) :
  exists value rest,
    tail = value ++ rest /\ lacks "&" value /\
    (rest = [] \/ exists r, rest = "&"%char :: r) /\
    hd [] (split ["&"%char] tail) = value.
Proof.
  rewrite split_step by discriminate.
  destruct (sfind ["&"%char] tail 0) as [j|] eqn:Hf.
  - destruct (sfind_char_some _ _ Hf) as (b & a & -> & Hb & ->).
    exists b, ("&"%char :: a). cbn [hd]. rewrite firstn_prefix.
    repeat split; [assumption | right; eauto].
  - exists tail, []. rewrite app_nil_r. cbn [hd].
    repeat split; [apply sfind_char_none; assumption | left; reflexivity].
Qed.

(** X3: the session sent in the subscription.  When the path holds
    [session=], it is the text between the last [session=] and the next
    [&] (or the end), unless that text is empty; otherwise it is the whole
    path.  It is never empty for a non-empty path, and a path made by
    [_parse_url] begins with [/]: every payload that a handler builds
    carries a non-empty session.  The handler builds a payload unless the
    client id passes [isdigit] and [int] refuses it; the [ValueError] then
    leaves [_build_subscription]. *)
Theorem subscription_session_nonempty :
  (forall path,
      (scontains SESSION_KEY path = false /\ subscription_session path = path) \/
      (exists before tail value rest,
          path = before ++ SESSION_KEY ++ tail /\
          scontains SESSION_KEY tail = false /\
          tail = value ++ rest /\ lacks "&" value /\
          (rest = [] \/ exists r, rest = "&"%char :: r) /\
          subscription_session path
          = match value with [] => path | _ :: _ => value end)) /\
  (forall path, path <> [] -> subscription_session path <> []) /\
  (forall url token account client network camera handler,
      new_handler url token account client network camera = Ok handler ->
      subscription_session (h_path handler) <> [] /\
      (forall payload,
          _build_subscription handler = Ok payload ->
          field "session" payload
          = Some (JStr (subscription_session (h_path handler)))) /\
      (forall e,
          _build_subscription handler = Exc e <->
          isdigit client = true /\ py_int client = Exc e)).
Proof.
  assert (Hcases : forall path,
      (scontains SESSION_KEY path = false /\ subscription_session path = path) \/
      (exists before tail value rest,
          path = before ++ SESSION_KEY ++ tail /\
          scontains SESSION_KEY tail = false /\
          tail = value ++ rest /\ lacks "&" value /\
          (rest = [] \/ exists r, rest = "&"%char :: r) /\
          subscription_session path
          = match value with [] => path | _ :: _ => value end)).
  { intros path. destruct (scontains SESSION_KEY path) eqn:Hc.
    - right. destruct (last_session_key _ Hc) as (before & tail & Hp & Ht).
      destruct (split_amp_head tail) as (value & rest & Htail & Hv & Hr & Hhd).
      exists before, tail, value, rest.
      repeat split; try assumption.
      unfold subscription_session. fold SESSION_KEY. rewrite Hc.
      rewrite Hp at 1.
      rewrite last_split_session by (apply scontains_false; assumption).
      change (lit "&") with ["&"%char]. rewrite Hhd.
      destruct value; reflexivity.
    - left. split; [reflexivity|].
      apply subscription_session_plain. assumption. }
  assert (Hne : forall path, path <> [] -> subscription_session path <> []).
  { intros path Hp.
    destruct (Hcases path)
      as [[_ ->]|(before & tail & value & rest & _ & _ & _ & _ & _ & ->)];
      [assumption|].
    destruct value; [assumption | discriminate]. }
  split; [exact Hcases|]. split; [exact Hne|].
  intros url token account client network camera handler Hnew.
  unfold new_handler in Hnew.
  destruct (_parse_url url) as [[[h p] path]|e] eqn:Hparse; [|discriminate].
  injection Hnew as <-. cbn [h_path].
  split; [|split].
  - apply Hne. intros ->.
    rewrite parse_url_body in Hparse. cbv zeta in Hparse.
    destruct (scontains (lit "/") _).
    + destruct (split1 (lit "/") _) as [|? [|? [|? ?]]]; try discriminate.
      apply host_port_of_ok in Hparse. destruct Hparse as (H & _). discriminate.
    + apply host_port_of_ok in Hparse. destruct Hparse as (H & _). discriminate.
  - intros payload. unfold _build_subscription. cbn [h_path h_client_id].
    destruct (isdigit client); [destruct (py_int client) as [n|e]|];
      try discriminate; intros [= <-]; reflexivity.
  - intros e. unfold _build_subscription. cbn [h_client_id].
    destruct (isdigit client); [destruct (py_int client) as [n|e']|].
    + split; [discriminate | intros [_ H]; discriminate H].
    + split; [intros [= <-]; auto | intros [_ [= <-]]; reflexivity].
    + split; [discriminate | intros [H _]; discriminate H].
Qed.

Lemma subscription_session_nonempty_witness :
  subscription_session (lit "/live?session=&x=1") <> [].
Proof.
  apply (proj1 (proj2 subscription_session_nonempty)). discriminate.
Defined.


(* ===================================================================== *)
(** * Frame demuxer: what is kept and what is dropped                     *)
(* ===================================================================== *)

Lemma next_frame_parts (buffer frame rest : bytes) :
  next_frame buffer = Some (frame, rest) ->
  exists junk,
    buffer = junk ++ frame ++ rest /\ bfind SOI junk 0 = None /\ framed frame.
Proof.
  intros Hn.
  destruct (next_frame_cut _ Hn) as (start & e & Hs & He & -> & ->).
  pose proof (find_bound _ _ _ _ Hs) as [_ Hsl]. simpl in Hsl.
  pose proof (find_bound _ _ _ _ He) as [Hse Hel]. simpl in Hel.
  destruct (find_occurrence _ _ _ _ Hs) as (_ & Hso & _).
  destruct (find_occurrence _ _ _ _ He) as (_ & Heo & _).
  exists (firstn start buffer). split; [|split].
  - unfold slice.
    rewrite <- (firstn_skipn start buffer) at 1. f_equal.
    rewrite <- (firstn_skipn (e + 2 - start) (skipn start buffer)) at 1.
    f_equal. rewrite skipn_skipn. f_equal. lia.
  - destruct (bfind SOI (firstn start buffer) 0) as [j|] eqn:Hj; [|reflexivity].
    exfalso. pose proof (find_bound _ _ _ _ Hj) as [_ Hjl]. simpl in Hjl.
    rewrite length_firstn in Hjl.
    unfold bfind in *.
    apply (find_grow _ _ _ (skipn start buffer)) in Hj.
    rewrite firstn_skipn in Hj. rewrite Hj in Hs. injection Hs as ->. lia.
  - apply cut_is_framed; assumption.
Qed.

Lemma drain_parts :
  forall buffer frames rest,
    drain buffer = (frames, rest) ->
    exists junk,
      length junk = length frames /\
      buffer = interleave junk frames ++ rest /\
      Forall (fun j => bfind SOI j 0 = None) junk /\
      Forall framed frames /\
      next_frame rest = None.
Proof.
  induction buffer as [buffer IH] using length_ind.
  intros frames rest. rewrite drain_step.
  destruct (next_frame buffer) as [[frame rest0]|] eqn:Hn.
  - destruct (drain rest0) as [fs final] eqn:Hd. intros [= <- <-].
    destruct (IH rest0 (next_frame_shrinks _ Hn) _ _ Hd)
      as (junk & Hlen & Hb & Hj & Hf & Hr).
    destruct (next_frame_parts _ Hn) as (j & Hbuf & Hjn & Hfr).
    exists (j :: junk). repeat split.
    + simpl. congruence.
    + simpl. rewrite <- !app_assoc, <- Hb. exact Hbuf.
    + constructor; assumption.
    + constructor; assumption.
    + assumption.
  - intros [= <- <-]. exists []. repeat split; auto.
Qed.

Lemma interleave_length (junk frames : list bytes) :
  length junk = length frames ->
  length (interleave junk frames) = total_length junk + total_length frames.
Proof.
  revert frames. induction junk as [|j junk IH]; intros [|f frames] Hlen;
    try discriminate; [reflexivity|].
  simpl. rewrite !length_app, IH by (simpl in Hlen; lia).
  unfold total_length. simpl. lia.
Qed.

Lemma framed_length (frame : bytes) : framed frame -> 4 <= length frame.
Proof. intros [payload ->]. rewrite !length_app. simpl. lia. Qed.

Lemma total_length_framed (frames : list bytes) :
  Forall framed frames -> 4 * length frames <= total_length frames.
Proof.
  induction 1 as [|f frames Hf _ IH]; [simpl; lia|].
  apply framed_length in Hf. unfold total_length in *. simpl. lia.
Qed.

(** X4: the demuxer loses nothing but junk.  The buffer handed to the inner
    loop is, in order, junk without start marker, a frame, junk, a frame,
    ..., and the bytes kept for the next read, which hold no complete
    frame.  So every frame is at least 4 bytes, the frames and the bytes
    kept never add up to more than the buffer, and for the whole output of
    a subprocess the frames are at most a quarter as many as the bytes
    read. *)
Theorem demux_conserves :
  (forall buffer frames rest,
      drain buffer = (frames, rest) ->
      exists junk,
        length junk = length frames /\
        buffer = interleave junk frames ++ rest /\
        Forall (fun j => bfind SOI j 0 = None) junk /\
        Forall framed frames /\
        next_frame rest = None /\
        total_length frames + length rest <= length buffer) /\
  (forall chunks,
      Forall (fun c => c <> []) chunks ->
      Forall framed (stream_frames chunks) /\
      4 * length (stream_frames chunks) <= total_length (stream_frames chunks) /\
      total_length (stream_frames chunks) <= total_length chunks).
Proof.
  assert (Hdrain : forall buffer frames rest,
      drain buffer = (frames, rest) ->
      exists junk,
        length junk = length frames /\
        buffer = interleave junk frames ++ rest /\
        Forall (fun j => bfind SOI j 0 = None) junk /\
        Forall framed frames /\
        next_frame rest = None /\
        total_length frames + length rest <= length buffer).
  { intros buffer frames rest Hd.
    destruct (drain_parts _ Hd) as (junk & Hlen & Hb & Hj & Hf & Hr).
    exists junk. repeat split; try assumption.
    rewrite Hb, length_app, interleave_length by assumption. lia. }
  split; [exact Hdrain|].
  intros chunks Hne. unfold stream_frames.
  rewrite (read_loop_chunks _ Hne). cbn [fst].
  rewrite feed_all_concat by reflexivity. cbn [app].
  destruct (drain (concat chunks)) as [frames rest] eqn:Hd. cbn [fst].
  destruct (Hdrain _ _ _ Hd) as (junk & _ & _ & _ & Hf & _ & Hle).
  split; [assumption|]. split; [apply total_length_framed, Hf|].
  assert (Hcat : length (concat chunks) = total_length chunks).
  { clear. induction chunks as [|c chunks IH]; [reflexivity|].
    simpl. rewrite length_app, IH. reflexivity. }
  lia.
Qed.

Lemma demux_conserves_witness :
  Forall framed (stream_frames [[x00; xff; xd8]; [x41; xff; xd9; x07]]) /\
  4 * length (stream_frames [[x00; xff; xd8]; [x41; xff; xd9; x07]])
  <= total_length (stream_frames [[x00; xff; xd8]; [x41; xff; xd9; x07]]) /\
  total_length (stream_frames [[x00; xff; xd8]; [x41; xff; xd9; x07]])
  <= total_length [[x00; xff; xd8]; [x41; xff; xd9; x07]].
Proof.
  apply (proj2 demux_conserves). repeat constructor; discriminate.
Defined.


(* ===================================================================== *)
(** * [mjpeg_stream]: what the consumer receives                          *)
(* ===================================================================== *)

Lemma read_loop_framed (reads : list read_result) :
  forall buffer, Forall framed (fst (read_loop reads buffer)).
Proof.
  induction reads as [|r rest IH]; intros buffer; simpl; [constructor|].
  destruct r as [[|b chunk]|e]; try constructor.
  unfold feed. destruct (drain (buffer ++ b :: chunk)) as [frames buffer'] eqn:Hd.
  specialize (IH buffer').
  destruct (read_loop rest buffer') as [later status]. cbn [fst] in *.
  apply Forall_app. split; [|assumption].
  destruct (drain_parts _ Hd) as (junk & _ & _ & _ & Hf & _). exact Hf.
Qed.

Lemma stream_via_ffmpeg_framed (p : ffmpeg) :
  Forall framed (fst (_stream_via_ffmpeg p)).
Proof.
  unfold _stream_via_ffmpeg. destruct (spawn p); [constructor|].
  pose proof (read_loop_framed (output p) []) as H.
  destruct (read_loop (output p) []) as [frames status]. exact H.
Qed.

Lemma framed_nonempty (frame : bytes) : framed frame -> frame <> [].
Proof. intros [payload ->]. discriminate. Qed.

Lemma images_of_nonempty (polls : list (option bytes)) :
  Forall (fun img => img <> []) (images_of polls).
Proof.
  induction polls as [|[[|b img]|] polls IH]; simpl; try assumption;
    [constructor|].
  constructor; [discriminate | assumption].
Qed.

Lemma distinct_run_incl (images : list bytes) :
  forall last img, In img (distinct_run last images) -> In img images.
Proof.
  induction images as [|x images IH]; intros last img; simpl; [tauto|].
  destruct last as [l|].
  - destruct (beqb x l).
    + intros H. right. eapply IH, H.
    + intros [H|H]; [left; assumption | right; eapply IH, H].
  - intros [H|H]; [left; assumption | right; eapply IH, H].
Qed.

Lemma distinct_run_length (images : list bytes) :
  forall last, length (distinct_run last images) <= length images.
Proof.
  induction images as [|x images IH]; intros last; simpl; [lia|].
  destruct last as [l|]; [destruct (beqb x l)|]; simpl;
    try (specialize (IH (Some x)); lia).
  specialize (IH (Some l)). lia.
Qed.

Lemma images_of_length (polls : list (option bytes)) :
  length (images_of polls) <= length polls.
Proof.
  induction polls as [|[[|b img]|] polls IH]; simpl; lia.
Qed.

Lemma beqb_refl (x : bytes) : beqb x x = true.
Proof.
  unfold beqb, seq_eqb. destruct (list_eq_dec Byte.byte_eq_dec x x); congruence.
Qed.

Lemma distinct_run_same (img : bytes) (images : list bytes) :
  Forall (fun x => x = img) images ->
  distinct_run (Some img) images = [] /\
  length (distinct_run None images) <= 1.
Proof.
  induction 1 as [|x images -> _ [IH _]].
  - simpl. split; [reflexivity | lia].
  - simpl. rewrite beqb_refl, IH. simpl. split; [reflexivity | lia].
Qed.

Lemma parts_app (a b : list bytes) : parts (a ++ b) = parts a ++ parts b.
Proof. unfold parts. apply flat_map_app. Qed.

Lemma parts_length (frames : list bytes) : length (parts frames) = 4 * length frames.
Proof. induction frames as [|f frames IH]; simpl in *; lia. Qed.

Section PollFacts.
Variable Svc : Type.
Variable snap_picture : Svc -> Svc * option exn.
Variable refresh : Svc -> Svc * option exn.
Variable image_from_cache : Svc -> option bytes.

Lemma polled_length (n : nat) :
  forall s, length (polled snap_picture refresh image_from_cache n s) <= n.
Proof.
  induction n as [|n IH]; intros s; simpl; [lia|].
  destruct (snap_picture s) as [s1 [e|]]; [specialize (IH s1); lia|].
  destruct (refresh s1) as [s2 [e|]]; [specialize (IH s2); lia|].
  simpl. specialize (IH s2). lia.
Qed.

Lemma polled_values (n : nat) :
  forall s img,
    In img (polled snap_picture refresh image_from_cache n s) ->
    exists s', image_from_cache s' = img.
Proof.
  induction n as [|n IH]; intros s img; simpl; [tauto|].
  destruct (snap_picture s) as [s1 [e|]]; [apply IH|].
  destruct (refresh s1) as [s2 [e|]]; [apply IH|].
  intros [H|H]; [exists s2; assumption | eapply IH, H].
Qed.

End PollFacts.

Section StreamFacts.
Variable Svc : Type.
Variable get_liveview : Svc -> Svc * result str.
Variable init_livestream : Svc -> Svc * option exn.
Variable livestream_stop : Svc -> Svc * option exn.

Lemma video_attempt_parts (p : ffmpeg) (s : Svc) :
  exists frames,
    fst (fst (video_attempt get_liveview init_livestream livestream_stop p s))
    = parts frames /\ Forall framed frames.
Proof.
  unfold video_attempt.
  destruct (get_liveview s) as [s1 [url|e]]; [|exists []; split; [reflexivity | constructor]].
  destruct (sstarts (lit "rtsps://") url).
  - pose proof (stream_via_ffmpeg_framed p) as Hf.
    destruct (_stream_via_ffmpeg p) as [frames status].
    exists frames. split; [reflexivity | exact Hf].
  - destruct (sstarts (lit "immis://") url);
      [|exists []; split; [reflexivity | constructor]].
    destruct (init_livestream s1) as [s2 [e|]];
      [exists []; split; [reflexivity | constructor]|].
    pose proof (stream_via_ffmpeg_framed p) as Hf.
    destruct (_stream_via_ffmpeg p) as [frames status].
    destruct (livestream_stop s2) as [s3 [e|]];
      exists frames; (split; [reflexivity | exact Hf]).
Qed.

End StreamFacts.

Lemma mjpeg_stream_fallback (Svc : Type)
    (get_liveview : Svc -> Svc * result str)
    (init_livestream livestream_stop snap_picture refresh : Svc -> Svc * option exn)
    (image_from_cache : Svc -> option bytes)
    (p : ffmpeg) (s s1 : Svc) (video : list bytes) (how : option exit_status) :
  video_attempt get_liveview init_livestream livestream_stop p s = (video, s1, how) ->
  how <> Some Returned ->
  mjpeg_stream get_liveview init_livestream livestream_stop
    snap_picture refresh image_from_cache p s
  = (video ++ parts (snapshot_frames snap_picture refresh image_from_cache s1),
     Returned).
Proof.
  intros Hatt Hhow. unfold mjpeg_stream, snapshot_frames. rewrite Hatt.
  rewrite snapshot_loop_frames.
  destruct how as [[|e]|]; [congruence | reflexivity | reflexivity].
Qed.

Lemma mjpeg_stream_returns (Svc : Type)
    (get_liveview : Svc -> Svc * result str)
    (init_livestream livestream_stop snap_picture refresh : Svc -> Svc * option exn)
    (image_from_cache : Svc -> option bytes)
    (p : ffmpeg) (s : Svc) :
  snd (mjpeg_stream get_liveview init_livestream livestream_stop
         snap_picture refresh image_from_cache p s) = Returned.
Proof.
  unfold mjpeg_stream.
  destruct (video_attempt get_liveview init_livestream livestream_stop p s)
    as [[video s1] how].
  rewrite snapshot_loop_frames.
  destruct how as [[|e]|]; reflexivity.
Qed.

(** An address of another scheme: no branch of the [try] block is taken,
    no exception is raised, and the snapshot loop runs. *)
Lemma mjpeg_stream_other_scheme (Svc : Type)
    (get_liveview : Svc -> Svc * result str)
    (init_livestream livestream_stop snap_picture refresh : Svc -> Svc * option exn)
    (image_from_cache : Svc -> option bytes)
    (p : ffmpeg) (s s1 : Svc) (url : str) :
  get_liveview s = (s1, Ok url) ->
  sstarts (lit "rtsps://") url = false ->
  sstarts (lit "immis://") url = false ->
  video_attempt get_liveview init_livestream livestream_stop p s = ([], s1, None) /\
  mjpeg_stream get_liveview init_livestream livestream_stop
    snap_picture refresh image_from_cache p s
  = (parts (snapshot_frames snap_picture refresh image_from_cache s1), Returned).
Proof.
  intros Hlive H1 H2.
  assert (Hatt : video_attempt get_liveview init_livestream livestream_stop p s
                 = ([], s1, None)).
  { unfold video_attempt. rewrite Hlive, H1, H2. reflexivity. }
  split; [exact Hatt|].
  rewrite (@mjpeg_stream_fallback Svc get_liveview init_livestream
             livestream_stop snap_picture refresh image_from_cache
             p s s1 [] None Hatt) by discriminate.
  rewrite app_nil_l. reflexivity.
Qed.

(** A read that raises ends the loop with its exception. *)
Lemma read_loop_raises (chunks : list bytes) (e : exn) (rest : list read_result) :
  Forall (fun c => c <> []) chunks ->
  forall buffer,
    snd (read_loop (map Chunk chunks ++ ReadRaises e :: rest) buffer) = Raised e.
Proof.
  induction 1 as [|chunk chunks Hc _ IH]; intros buffer; [reflexivity|].
  simpl. destruct chunk as [|b chunk]; [congruence|].
  destruct (feed buffer (b :: chunk)) as [frames buffer'].
  specialize (IH buffer').
  destruct (read_loop (map Chunk chunks ++ ReadRaises e :: rest) buffer')
    as [later status].
  exact IH.
Qed.

Lemma snapshot_frames_nonempty (Svc : Type)
    (snap_picture refresh : Svc -> Svc * option exn)
    (image_from_cache : Svc -> option bytes) (s : Svc) :
  Forall (fun f => f <> [])
    (snapshot_frames snap_picture refresh image_from_cache s).
Proof.
  unfold snapshot_frames. apply Forall_forall. intros f Hin.
  apply distinct_run_incl in Hin.
  pose proof (images_of_nonempty
                (polled snap_picture refresh image_from_cache 600 s)) as H.
  rewrite Forall_forall in H. apply H, Hin.
Qed.

(** C1 (as amended): [mjpeg_stream] never ends with an exception.  When
    the video attempt does not return, because [get_liveview], the start
    of the subprocess, a read, [process.terminate()], [init_livestream] or
    the stopping of the livestream raises, or because the address is of
    another scheme, the generator goes on with the snapshot loop.  The
    stream is then the parts of the video frames relayed before the
    failure, followed by the parts of the snapshots: the non-empty images
    read from the cache in the turns whose calls did not raise, each one
    that equals the snapshot before it being skipped.  A part is the
    boundary line, the header, the frame and CRLF.  When the failure comes
    before any video frame the stream is the snapshots alone, and no two
    frames in a row are equal. *)
Theorem snapshot_fallback (Svc : Type)
    (get_liveview : Svc -> Svc * result str)
    (init_livestream livestream_stop snap_picture refresh : Svc -> Svc * option exn)
    (image_from_cache : Svc -> option bytes)
    (p : ffmpeg) (s : Svc) :
  snd (mjpeg_stream get_liveview init_livestream livestream_stop
         snap_picture refresh image_from_cache p s) = Returned /\
  (forall frame,
      part frame
      = [list_byte_of_string "--frame" ++ [x0d; x0a];
         list_byte_of_string "Content-Type: image/jpeg" ++ [x0d; x0a; x0d; x0a];
         frame;
         [x0d; x0a]]) /\
  (forall s1,
      snapshot_frames snap_picture refresh image_from_cache s1
      = distinct_run None
          (images_of (polled snap_picture refresh image_from_cache 600 s1)) /\
      no_repeat (snapshot_frames snap_picture refresh image_from_cache s1) /\
      Forall (fun f => f <> [])
        (snapshot_frames snap_picture refresh image_from_cache s1)) /\
  (forall video s1 how,
      video_attempt get_liveview init_livestream livestream_stop p s
      = (video, s1, how) ->
      how <> Some Returned ->
      mjpeg_stream get_liveview init_livestream livestream_stop
        snap_picture refresh image_from_cache p s
      = (video ++ parts (snapshot_frames snap_picture refresh image_from_cache s1),
         Returned)) /\
  (forall s1 e,
      get_liveview s = (s1, Exc e) ->
      mjpeg_stream get_liveview init_livestream livestream_stop
        snap_picture refresh image_from_cache p s
      = (parts (snapshot_frames snap_picture refresh image_from_cache s1),
         Returned)) /\
  (forall s1 url frames e,
      get_liveview s = (s1, Ok url) -> sstarts (lit "rtsps://") url = true ->
      _stream_via_ffmpeg p = (frames, Raised e) ->
      mjpeg_stream get_liveview init_livestream livestream_stop
        snap_picture refresh image_from_cache p s
      = (parts frames
         ++ parts (snapshot_frames snap_picture refresh image_from_cache s1),
         Returned)) /\
  (forall s1 s2 url e,
      get_liveview s = (s1, Ok url) -> sstarts (lit "rtsps://") url = false ->
      sstarts (lit "immis://") url = true ->
      init_livestream s1 = (s2, Some e) ->
      mjpeg_stream get_liveview init_livestream livestream_stop
        snap_picture refresh image_from_cache p s
      = (parts (snapshot_frames snap_picture refresh image_from_cache s2),
         Returned)) /\
  (forall s1 s2 s3 url frames status stop,
      get_liveview s = (s1, Ok url) -> sstarts (lit "rtsps://") url = false ->
      sstarts (lit "immis://") url = true ->
      init_livestream s1 = (s2, None) ->
      _stream_via_ffmpeg p = (frames, status) ->
      livestream_stop s2 = (s3, stop) ->
      status <> Returned \/ stop <> None ->
      mjpeg_stream get_liveview init_livestream livestream_stop
        snap_picture refresh image_from_cache p s
      = (parts frames
         ++ parts (snapshot_frames snap_picture refresh image_from_cache s3),
         Returned)) /\
  (forall s1 url,
      get_liveview s = (s1, Ok url) -> sstarts (lit "rtsps://") url = false ->
      sstarts (lit "immis://") url = false ->
      mjpeg_stream get_liveview init_livestream livestream_stop
        snap_picture refresh image_from_cache p s
      = (parts (snapshot_frames snap_picture refresh image_from_cache s1),
         Returned)) /\
  (forall e, spawn p = Some e -> _stream_via_ffmpeg p = ([], Raised e)) /\
  (forall e,
      spawn p = None -> terminate p = Some e ->
      _stream_via_ffmpeg p = (fst (read_loop (output p) []), Raised e)) /\
  (spawn p = None -> terminate p = None ->
   _stream_via_ffmpeg p = read_loop (output p) []) /\
  (forall chunks e rest buffer,
      Forall (fun c => c <> []) chunks ->
      snd (read_loop (map Chunk chunks ++ ReadRaises e :: rest) buffer)
      = Raised e).
Proof.
  assert (Hfall : forall video s1 how,
      video_attempt get_liveview init_livestream livestream_stop p s
      = (video, s1, how) ->
      how <> Some Returned ->
      mjpeg_stream get_liveview init_livestream livestream_stop
        snap_picture refresh image_from_cache p s
      = (video ++ parts (snapshot_frames snap_picture refresh image_from_cache s1),
         Returned)).
  { intros video s1 how. apply mjpeg_stream_fallback. }
  assert (Hnil : forall s1 how,
      video_attempt get_liveview init_livestream livestream_stop p s
      = ([], s1, how) ->
      how <> Some Returned ->
      mjpeg_stream get_liveview init_livestream livestream_stop
        snap_picture refresh image_from_cache p s
      = (parts (snapshot_frames snap_picture refresh image_from_cache s1),
         Returned)).
  { intros s1 how Hatt Hhow. rewrite (Hfall _ _ _ Hatt Hhow).
    rewrite app_nil_l. reflexivity. }
  split; [apply mjpeg_stream_returns|].
  split; [intros frame; reflexivity|].
  split.
  { intros s1. split; [reflexivity|]. split.
    - apply distinct_run_no_repeat.
    - apply snapshot_frames_nonempty. }
  split; [exact Hfall|].
  split.
  { intros s1 e Hlive. apply (Hnil s1 (Some (Raised e))); [|discriminate].
    unfold video_attempt. rewrite Hlive. reflexivity. }
  split.
  { intros s1 url frames e Hlive Hurl Hff.
    apply (Hfall (parts frames) s1 (Some (Raised e))); [|discriminate].
    unfold video_attempt. rewrite Hlive, Hurl, Hff. reflexivity. }
  split.
  { intros s1 s2 url e Hlive Hurl1 Hurl2 Hinit.
    apply (Hnil s2 (Some (Raised e))); [|discriminate].
    unfold video_attempt. rewrite Hlive, Hurl1, Hurl2, Hinit. reflexivity. }
  split.
  { intros s1 s2 s3 url frames status stop Hlive Hurl1 Hurl2 Hinit Hff Hstop Hbad.
    apply (Hfall (parts frames) s3
             (Some (match stop with Some e => Raised e | None => status end))).
    - unfold video_attempt. rewrite Hlive, Hurl1, Hurl2, Hinit, Hff, Hstop.
      destruct stop; reflexivity.
    - destruct stop as [e|]; [discriminate|].
      destruct Hbad as [H|H]; [|congruence].
      intros [= Hs]. congruence. }
  split.
  { intros s1 url Hlive Hurl1 Hurl2.
    apply (mjpeg_stream_other_scheme get_liveview init_livestream livestream_stop
             snap_picture refresh image_from_cache p s Hlive Hurl1 Hurl2). }
  split.
  { intros e Hspawn. unfold _stream_via_ffmpeg. rewrite Hspawn. reflexivity. }
  split.
  { intros e Hspawn Hterm. unfold _stream_via_ffmpeg. rewrite Hspawn, Hterm.
    destruct (read_loop (output p) []); reflexivity. }
  split.
  { intros Hspawn Hterm. unfold _stream_via_ffmpeg. rewrite Hspawn, Hterm.
    destruct (read_loop (output p) []); reflexivity. }
  intros chunks e rest buffer Hc. apply read_loop_raises. assumption.
Qed.

Lemma snapshot_fallback_witness :
  counting_liveview 0 = (0, Exc TimeoutError) /\
  mjpeg_stream counting_liveview counting_call counting_call counting_call
    counting_refresh counting_image idle_ffmpeg 0
  = (parts (snapshot_frames counting_call counting_refresh counting_image 0),
     Returned) /\
  firstn 4 (parts (snapshot_frames counting_call counting_refresh counting_image 0))
  = [list_byte_of_string "--frame" ++ [x0d; x0a];
     list_byte_of_string "Content-Type: image/jpeg" ++ [x0d; x0a; x0d; x0a];
     [x01];
     [x0d; x0a]].
Proof.
  split; [reflexivity|]. split.
  - exact (proj1 (proj2 (proj2 (proj2 (proj2
             (snapshot_fallback counting_liveview counting_call counting_call
                counting_call counting_refresh counting_image idle_ffmpeg 0)))))
             0 TimeoutError eq_refl).
  - vm_compute. reflexivity.
Defined.

(** C1, as first stated, fails: the subprocess delivers one frame and the
    next read times out; the cache holds that same image.  The stream is
    the video frame and then the first snapshot, which is not compared
    with it: two identical frames in a row, and not the snapshots alone. *)
Lemma late_failure_repeats :
  mjpeg_stream rtsps_liveview counting_call counting_call counting_call
    counting_refresh same_image failing_ffmpeg 0
  = ([list_byte_of_string "--frame" ++ [x0d; x0a];
      list_byte_of_string "Content-Type: image/jpeg" ++ [x0d; x0a; x0d; x0a];
      [xff; xd8; xff; xd9];
      [x0d; x0a];
      list_byte_of_string "--frame" ++ [x0d; x0a];
      list_byte_of_string "Content-Type: image/jpeg" ++ [x0d; x0a; x0d; x0a];
      [xff; xd8; xff; xd9];
      [x0d; x0a]],
     Returned) /\
  _stream_via_ffmpeg failing_ffmpeg
  = ([[xff; xd8; xff; xd9]], Raised TimeoutError) /\
  snapshot_frames counting_call counting_refresh same_image 0
  = [[xff; xd8; xff; xd9]].
Proof. vm_compute. repeat split; reflexivity. Qed.

Example fallback_frames :
  length (snapshot_frames counting_call counting_refresh counting_image 0) = 301 /\
  firstn 3 (snapshot_frames counting_call counting_refresh counting_image 0)
  = [[x01]; [x02]; [x01]].
Proof. vm_compute. split; reflexivity. Qed.

(** X5: whatever happens, the stream is a whole number of MJPEG parts, each
    the boundary, the header, a non-empty frame and CRLF.  A video attempt
    cut short by an exception leaves no half part before the snapshots. *)
Theorem stream_is_parts (Svc : Type)
    (get_liveview : Svc -> Svc * result str)
    (init_livestream livestream_stop snap_picture refresh : Svc -> Svc * option exn)
    (image_from_cache : Svc -> option bytes)
    (p : ffmpeg) (s : Svc) :
  exists frames,
    fst (mjpeg_stream get_liveview init_livestream livestream_stop
           snap_picture refresh image_from_cache p s) = parts frames /\
    Forall (fun f => f <> []) frames /\
    length (fst (mjpeg_stream get_liveview init_livestream livestream_stop
                   snap_picture refresh image_from_cache p s))
    = 4 * length frames.
Proof.
  destruct (video_attempt_parts get_liveview init_livestream livestream_stop p s)
    as (vf & Hv & Hf).
  assert (Hvne : Forall (fun f => f <> []) vf).
  { eapply Forall_impl; [|exact Hf]. intros f. apply framed_nonempty. }
  unfold mjpeg_stream.
  destruct (video_attempt get_liveview init_livestream livestream_stop p s)
    as [[video s1] how]. cbn [fst] in Hv. subst video.
  rewrite snapshot_loop_frames.
  set (sf := distinct_run None
               (images_of (polled snap_picture refresh image_from_cache 600 s1))).
  assert (Hsne : Forall (fun f => f <> []) sf).
  { apply Forall_forall. intros f Hin. apply distinct_run_incl in Hin.
    pose proof (images_of_nonempty
                  (polled snap_picture refresh image_from_cache 600 s1)) as H.
    rewrite Forall_forall in H. apply H, Hin. }
  destruct how as [[|e]|]; cbn [fst].
  - exists vf. split; [reflexivity|]. split; [assumption | apply parts_length].
  - exists (vf ++ sf). rewrite parts_app. split; [reflexivity|].
    split; [apply Forall_app; auto|].
    rewrite <- parts_app. apply parts_length.
  - exists (vf ++ sf). rewrite parts_app. split; [reflexivity|].
    split; [apply Forall_app; auto|].
    rewrite <- parts_app. apply parts_length.
Qed.



(** X7: the snapshot loop is bounded and sends only what the cache held.
    In [n] turns it yields at most [n] frames (so at most 600 in a
    stream), each one an image the cache returned at some time; and while
    the cache keeps returning the same image, or none, one frame at most
    is sent. *)
Theorem snapshot_loop_bounds (Svc : Type)
    (snap_picture refresh : Svc -> Svc * option exn)
    (image_from_cache : Svc -> option bytes) (n : nat) (s : Svc) :
  exists frames,
    fst (snapshot_loop snap_picture refresh image_from_cache n s None)
    = parts frames /\
    length frames <= n /\
    (forall f, In f frames -> f <> [] /\ exists s', image_from_cache s' = Some f) /\
    (forall img,
        (forall s', image_from_cache s' = Some img \/ image_from_cache s' = None) ->
        length frames <= 1).
Proof.
  rewrite snapshot_loop_frames. cbn [fst].
  set (polls := polled snap_picture refresh image_from_cache n s).
  exists (distinct_run None (images_of polls)).
  split; [reflexivity|]. split; [|split].
  - pose proof (distinct_run_length (images_of polls) None).
    pose proof (images_of_length polls).
    pose proof (polled_length snap_picture refresh image_from_cache n s).
    fold polls in H1. lia.
  - intros f Hin. apply distinct_run_incl in Hin.
    assert (Himg : forall l f, In f (images_of l) -> f <> [] /\ In (Some f) l).
    { clear. induction l as [|[[|b img]|] l IH]; intros f; simpl; try tauto.
      - intros H. destruct (IH _ H). auto.
      - intros [<-|H]; [split; [discriminate | auto]|].
        destruct (IH _ H). auto.
      - intros H. destruct (IH _ H). auto. }
    destruct (Himg _ _ Hin) as [Hne Hp]. split; [assumption|].
    eapply polled_values, Hp.
  - intros img Hsame.
    apply (distinct_run_same (img := img)).
    apply Forall_forall. intros f Hin.
    assert (Himg : forall l f, In f (images_of l) -> In (Some f) l).
    { clear. induction l as [|[[|b i]|] l IH]; intros f; simpl; try tauto.
      - intros H. right. apply IH, H.
      - intros [<-|H]; [auto | right; apply IH, H].
      - intros H. right. apply IH, H. }
    apply Himg in Hin. unfold polls in Hin. apply polled_values in Hin.
    destruct Hin as [s' Hs']. destruct (Hsame s') as [H|H]; congruence.
Qed.

Lemma snapshot_loop_bounds_witness :
  exists frames,
    fst (snapshot_loop counting_call (fun n : nat => (n, @None exn))
           (fun _ : nat => Some [x07]) 5 0 None) = parts frames /\
    length frames <= 1.
Proof.
  destruct (snapshot_loop_bounds counting_call (fun n : nat => (n, @None exn))
              (fun _ : nat => Some [x07]) 5 0) as (frames & Hf & _ & _ & Hone).
  exists frames. split; [exact Hf|].
  apply (Hone [x07]). intros s'. left. reflexivity.
Defined.


(* ===================================================================== *)
(** * [IMMISStreamHandler]: life of a connection                          *)
(* ===================================================================== *)

Lemma connect_writer_open (failure : option exn) (h : IMMISStreamHandler) :
  writer_open h -> writer_open (fst (connect failure h)).
Proof.
  unfold connect. destruct failure; [auto|]. intros _ _. reflexivity.
Qed.

Lemma close_disconnects (wait_closed : option exn) (h : IMMISStreamHandler) :
  h_connected (fst (close wait_closed h)) = false.
Proof.
  unfold close. destruct (h_writer h); [destruct wait_closed|]; reflexivity.
Qed.

Lemma run_handler_writer_open (ops : list handler_op) :
  forall h, writer_open h -> writer_open (run_handler ops h).
Proof.
  induction ops as [|[failure|failure|wait_closed] rest IH]; intros h Hh; simpl.
  - exact Hh.
  - apply IH, connect_writer_open, Hh.
  - apply IH, Hh.
  - apply IH. intros Hc. rewrite close_disconnects in Hc. discriminate.
Qed.

(** X8: the subscription is written on an open connection or not at all.
    [start_stream] returns [False] without calling [write] on a handler
    that never connected, whose connection failed, or that was closed;
    through any sequence of [connect], [start_stream] and [close] a
    connected handler holds a writer that was not closed; and a [True]
    means that exactly the serialized subscription was written.  An
    exception leaves [start_stream] only on a connected handler whose
    payload cannot be built. *)
Theorem subscribe_only_when_connected (json_dumps : json -> bytes) :
  (forall failure h,
      h_connected h = false ->
      start_stream json_dumps failure h = Ok (false, None)) /\
  (forall wait_closed failure h,
      start_stream json_dumps failure (fst (close wait_closed h))
      = Ok (false, None)) /\
  (forall url token account client network camera h e failure r,
      new_handler url token account client network camera = Ok h ->
      start_stream json_dumps failure h = Ok (false, None) /\
      read_data r h = None /\
      connect (Some e) h = (h, false) /\
      start_stream json_dumps failure (fst (connect (Some e) h))
      = Ok (false, None)) /\
  (forall url token account client network camera h ops,
      new_handler url token account client network camera = Ok h ->
      writer_open (run_handler ops h)) /\
  (forall failure h written,
      start_stream json_dumps failure h = Ok (true, written) ->
      h_connected h = true /\ failure = None /\
      exists subscription,
        _build_subscription h = Ok subscription /\
        written = Some (json_dumps subscription)) /\
  (forall failure h e,
      start_stream json_dumps failure h = Exc e <->
      h_connected h = true /\ _build_subscription h = Exc e).
Proof.
  assert (Hoff : forall failure h,
             h_connected h = false ->
             start_stream json_dumps failure h = Ok (false, None)).
  { intros failure h Hc. unfold start_stream. rewrite Hc. reflexivity. }
  assert (Hnew : forall url token account client network camera h,
             new_handler url token account client network camera = Ok h ->
             h_connected h = false /\ h_writer h = None).
  { intros url token account client network camera h. unfold new_handler.
    destruct (_parse_url url) as [[[host port] path]|e]; [|discriminate].
    intros [= <-]. split; reflexivity. }
  split; [exact Hoff|]. split; [|split; [|split; [|split]]].
  - intros wait_closed failure h. apply Hoff, close_disconnects.
  - intros url token account client network camera h e failure r Hh.
    destruct (Hnew _ _ _ _ _ _ _ Hh) as [Hc Hw].
    repeat split.
    + apply Hoff, Hc.
    + unfold read_data. rewrite Hw. reflexivity.
    + apply Hoff. exact Hc.
  - intros url token account client network camera h ops Hh.
    apply run_handler_writer_open.
    destruct (Hnew _ _ _ _ _ _ _ Hh) as [Hc _].
    intros Hc'. congruence.
  - intros failure h written. unfold start_stream.
    destruct (h_connected h); [|discriminate]. cbn [negb].
    destruct (_build_subscription h) as [subscription|e]; [|discriminate].
    destruct (h_writer h); [|discriminate].
    destruct failure; [discriminate|].
    intros [= <-]. eauto.
  - intros failure h e. unfold start_stream.
    destruct (h_connected h); cbn [negb].
    + destruct (_build_subscription h) as [subscription|e'].
      * split; [|intros [_ H]; discriminate H].
        destruct (h_writer h); [destruct failure|]; discriminate.
      * split; [intros [= <-]; auto | intros [_ [= <-]]; reflexivity].
    + split; [discriminate | intros [H _]; discriminate H].
Qed.

Lemma subscribe_only_when_connected_witness :
  new_handler (lit "immis://h/p") [] 1%Z [] 2%Z 3%Z = Ok sample_handler /\
  start_stream (fun _ => [x7b; x7d]) None sample_handler = Ok (false, None) /\
  read_data (Reply [x00]) sample_handler = None.
Proof.
  split; [reflexivity|].
  destruct (proj1 (proj2 (proj2 (subscribe_only_when_connected (fun _ => [x7b; x7d]))))
              (lit "immis://h/p") [] 1%Z [] 2%Z 3%Z sample_handler
              TimeoutError None (Reply [x00]) eq_refl) as (H1 & H2 & _).
  split; [exact H1 | exact H2].
Defined.


(* ===================================================================== *)
(** * The HTTP handlers                                                   *)
(* ===================================================================== *)

(** [str] of an integer tells the integers apart. *)
Lemma decimal_inj (a b : Z) : decimal a = decimal b -> a = b.
Proof.
  unfold decimal, lit. intros H.
  assert (Hs : NilEmpty.string_of_int (Z.to_int a)
               = NilEmpty.string_of_int (Z.to_int b)).
  { rewrite <- (string_of_list_ascii_of_string (NilEmpty.string_of_int (Z.to_int a))),
      H. apply string_of_list_ascii_of_string. }
  assert (Hi : Z.to_int a = Z.to_int b).
  { pose proof (NilEmpty.isi (Z.to_int a)) as Ha.
    rewrite Hs, NilEmpty.isi in Ha. congruence. }
  rewrite <- (DecimalZ.of_to a), <- (DecimalZ.of_to b), Hi. reflexivity.
Qed.

Section ApiFacts.
Variable Svc : Type.
Variable cameras : Svc -> list (str * camera).

Lemma seq_eqb_eq (x y : str) : seq_eqb ascii_dec x y = true <-> x = y.
Proof.
  unfold seq_eqb. destruct (list_eq_dec ascii_dec x y); split; congruence.
Qed.

(** [_find_camera] gives the first camera, in the order of the
    dictionary, whose identifier is printed as [camera_id]. *)
Lemma find_camera_spec (s : Svc) (camera_id : str) :
  match _find_camera cameras s camera_id with
  | Some cam =>
      exists before name after,
        cameras s = before ++ (name, cam) :: after /\
        decimal (cam_id cam) = camera_id /\
        Forall (fun entry => decimal (cam_id (snd entry)) <> camera_id) before
  | None =>
      Forall (fun entry => decimal (cam_id (snd entry)) <> camera_id) (cameras s)
  end.
Proof.
  unfold _find_camera. induction (cameras s) as [|[name cam] l IH]; simpl.
  - constructor.
  - destruct (seq_eqb ascii_dec (decimal (cam_id cam)) camera_id) eqn:Heq.
    + simpl. exists [], name, l. apply seq_eqb_eq in Heq.
      repeat split; [assumption | constructor].
    + assert (Hne : decimal (cam_id cam) <> camera_id).
      { intros H. apply seq_eqb_eq in H. congruence. }
      destruct (List.find _ l) as [[name' cam']|]; simpl in *.
      * destruct IH as (before & n & after & -> & Hid & Hb).
        exists ((name, cam) :: before), n, after.
        repeat split; [assumption|]. constructor; assumption.
      * constructor; assumption.
Qed.

Lemma find_camera_none (s : Svc) (camera_id : str) :
  _find_camera cameras s camera_id = None <->
  Forall (fun entry => decimal (cam_id (snd entry)) <> camera_id) (cameras s).
Proof.
  pose proof (find_camera_spec s camera_id) as H. split.
  - intros Hn. rewrite Hn in H. exact H.
  - intros Hall. destruct (_find_camera cameras s camera_id) as [cam|];
      [|reflexivity].
    destruct H as (before & name & after & Hs & Hid & _).
    rewrite Hs in Hall. apply Forall_app in Hall. destruct Hall as [_ Hall].
    inversion Hall as [|x l Hx _]; subst. simpl in Hx. congruence.
Qed.

(** A camera of the dictionary is found under its own identifier, or an
    earlier camera with the same identifier is. *)
Lemma find_camera_listed (s : Svc) (name : str) (cam : camera) :
  In (name, cam) (cameras s) ->
  exists cam', _find_camera cameras s (decimal (cam_id cam)) = Some cam' /\
               cam_id cam' = cam_id cam.
Proof.
  intros Hin.
  destruct (_find_camera cameras s (decimal (cam_id cam))) as [cam'|] eqn:Hf.
  - exists cam'. split; [reflexivity|].
    pose proof (find_camera_spec s (decimal (cam_id cam))) as H.
    rewrite Hf in H. destruct H as (_ & _ & _ & _ & Hid & _).
    apply decimal_inj. exact Hid.
  - apply find_camera_none in Hf. rewrite Forall_forall in Hf.
    specialize (Hf _ Hin). simpl in Hf. congruence.
Qed.

End ApiFacts.


(** X9: [_find_camera] returns the first camera, in dictionary order, whose
    identifier prints as the text asked for, and [None] exactly when no
    camera does. *)
Theorem find_camera_first_match (Svc : Type)
    (cameras : Svc -> list (str * camera)) (s : Svc) (camera_id : str) :
  (forall cam,
      _find_camera cameras s camera_id = Some cam ->
      exists before name after,
        cameras s = before ++ (name, cam) :: after /\
        decimal (cam_id cam) = camera_id /\
        Forall (fun entry => decimal (cam_id (snd entry)) <> camera_id) before) /\
  (_find_camera cameras s camera_id = None <->
   Forall (fun entry => decimal (cam_id (snd entry)) <> camera_id) (cameras s)).
Proof.
  split.
  - intros cam Hc. pose proof (find_camera_spec cameras s camera_id) as H.
    rewrite Hc in H. exact H.
  - apply find_camera_none.
Qed.

(** X10: what [get_thumbnail] can answer.  No exception leaves it: it
    answers 503 exactly when [blink] is unset, 404 only with "Camera not
    found", an image that is never empty, or 500.  A cached image is
    returned without any call to the service; and when there is still no
    image after the refresh, the 404 raised inside the [try] is caught
    there and the answer is 500. *)
Theorem thumbnail_answers (Svc : Type)
    (cameras : Svc -> list (str * camera))
    (snap_picture : camera -> Svc -> Svc * option exn)
    (refresh : Svc -> Svc * option exn)
    (image_from_cache : camera -> Svc -> option bytes)
    (http_exception_str : nat -> string -> string)
    (blink : option Svc) (camera_id : str) :
  let get := get_thumbnail cameras snap_picture refresh image_from_cache
               http_exception_str in
  (forall e, snd (get blink camera_id) <> Unhandled e) /\
  (forall detail,
      snd (get blink camera_id) = HTTPException 503 detail <-> 
      blink = None /\ detail = "Not authenticated"%string) /\
  (forall detail,
      snd (get blink camera_id) = HTTPException 404 detail ->
      detail = "Camera not found"%string /\
      fst (get blink camera_id) = blink /\
      exists s, blink = Some s /\ _find_camera cameras s camera_id = None) /\
  (forall img,
      snd (get blink camera_id) = Responds img ->
      img <> [] /\
      exists s cam s',
        blink = Some s /\ _find_camera cameras s camera_id = Some cam /\
        fst (get blink camera_id) = Some s' /\
        image_from_cache cam s' = Some img) /\
  (forall s cam b img,
      blink = Some s -> _find_camera cameras s camera_id = Some cam ->
      image_from_cache cam s = Some (b :: img) ->
      get blink camera_id = (Some s, Responds (b :: img))) /\
  (forall s cam s1 s2,
      blink = Some s -> _find_camera cameras s camera_id = Some cam ->
      truthy (option_map (map (fun c : byte => "x"%char)) (image_from_cache cam s)) = false ->
      snap_picture cam s = (s1, None) -> refresh s1 = (s2, None) ->
      truthy (option_map (map (fun c : byte => "x"%char)) (image_from_cache cam s2)) = false ->
      get blink camera_id
      = (Some s2,
         HTTPException 500 (http_exception_str 404 "No thumbnail available"%string))).
Proof.
  intros get. unfold get, get_thumbnail.
  refine (conj _ (conj _ (conj _ (conj _ (conj _ _))))).
  - intros e.
    destruct blink as [s|]; [|discriminate].
    destruct (_find_camera cameras s camera_id) as [cam|]; [|discriminate].
    destruct (image_from_cache cam s) as [[|b0 img0]|]; try discriminate;
      destruct (snap_picture cam s) as [s1 [e1|]]; try discriminate;
      destruct (refresh s1) as [s2 [e2|]]; try discriminate;
      destruct (image_from_cache cam s2) as [[|b2 img2]|]; discriminate.
  - intros detail.
    destruct blink as [s|].
    2:{ cbn [snd]. split.
        - intros [= <-]. auto.
        - intros [_ ->]. reflexivity. }
    split; [|intros [H _]; discriminate H].
    destruct (_find_camera cameras s camera_id) as [cam|]; [|discriminate].
    destruct (image_from_cache cam s) as [[|b0 img0]|]; try discriminate;
      destruct (snap_picture cam s) as [s1 [e1|]]; try discriminate;
      destruct (refresh s1) as [s2 [e2|]]; try discriminate;
      destruct (image_from_cache cam s2) as [[|b2 img2]|]; discriminate.
  - intros detail.
    destruct blink as [s|]; [|discriminate].
    destruct (_find_camera cameras s camera_id) as [cam|] eqn:Hcam.
    2:{ cbn [fst snd]. intros [= <-].
        split; [reflexivity|split; [reflexivity|exists s; auto]]. }
    destruct (image_from_cache cam s) as [[|b0 img0]|]; try discriminate;
      destruct (snap_picture cam s) as [s1 [e1|]]; try discriminate;
      destruct (refresh s1) as [s2 [e2|]]; try discriminate;
      destruct (image_from_cache cam s2) as [[|b2 img2]|]; discriminate.
  - intros img.
    destruct blink as [s|]; [|discriminate].
    destruct (_find_camera cameras s camera_id) as [cam|] eqn:Hcam;
      [|discriminate].
    destruct (image_from_cache cam s) as [[|b0 img0]|] eqn:Hi0.
    2:{ cbn [fst snd]. intros [= <-]. split; [discriminate|].
        exists s, cam, s. auto. }
    all: destruct (snap_picture cam s) as [s1 [e1|]]; try discriminate;
      destruct (refresh s1) as [s2 [e2|]]; try discriminate;
      destruct (image_from_cache cam s2) as [[|b2 img2]|] eqn:Hi2;
      try discriminate;
      cbn [fst snd]; intros [= <-]; (split; [discriminate|]);
      exists s, cam, s2; auto.
  - intros s cam b img -> -> ->. reflexivity.
  - intros s cam s1 s2 -> -> Ht -> -> Ht2.
    destruct (image_from_cache cam s) as [[|b0 img0]|]; try discriminate Ht;
      destruct (image_from_cache cam s2) as [[|b2 img2]|];
      try discriminate Ht2; reflexivity.
Qed.


Section HandlerFacts.
Variable Svc : Type.
Variable cameras : Svc -> list (str * camera).
Variable snap_picture : camera -> Svc -> Svc * option exn.
Variable refresh : Svc -> Svc * option exn.
Variable image_from_cache : camera -> Svc -> option bytes.
Variable get_liveview : camera -> Svc -> Svc * result str.
Variable record : camera -> Svc -> Svc * option exn.
Variable clip : camera -> Svc -> option str.
Variable http_exception_str : nat -> string -> string.

(** X11: each of the four camera handlers answers 404 "Camera not found",
    and leaves the service as it was, exactly when no camera of the account
    has the identifier asked for. *)
Theorem unknown_camera_404 (s : Svc) (camera_id : str) :
  let absent :=
    Forall (fun entry => decimal (cam_id (snd entry)) <> camera_id) (cameras s) in
  (absent <->
   get_thumbnail cameras snap_picture refresh image_from_cache
     http_exception_str (Some s) camera_id
   = (Some s, HTTPException 404 "Camera not found")) /\
  (absent <->
   get_liveview_url cameras get_liveview (Some s) camera_id
   = (Some s, HTTPException 404 "Camera not found")) /\
  (absent <->
   record_clip cameras record (Some s) camera_id
   = (Some s, HTTPException 404 "Camera not found")) /\
  (absent <->
   get_latest_clip cameras refresh clip (Some s) camera_id
   = (Some s, HTTPException 404 "Camera not found")).
Proof.
  intros absent. unfold absent. clear absent.
  rewrite <- (find_camera_none cameras s camera_id).
  unfold get_thumbnail, get_liveview_url, record_clip, get_latest_clip.
  destruct (_find_camera cameras s camera_id) as [cam|].
  - refine (conj _ (conj _ (conj _ _))); (split; [discriminate|]).
    + destruct (image_from_cache cam s) as [[|b0 img0]|]; try discriminate;
        destruct (snap_picture cam s) as [s1 [e1|]]; try discriminate;
        destruct (refresh s1) as [s2 [e2|]]; try discriminate;
        destruct (image_from_cache cam s2) as [[|b2 img2]|]; discriminate.
    + destruct (get_liveview cam s) as [s1 [url|e]]; discriminate.
    + destruct (record cam s) as [s1 [e|]]; discriminate.
    + destruct (refresh s) as [s1 [e|]]; discriminate.
  - repeat split; reflexivity.
Qed.

(** X12: an exception of the account service is turned into a 500 with
    its text by [get_liveview_url] and [record_clip], which let no
    exception out; [get_latest_clip] never answers 500, and the exception
    raised by its refresh leaves the handler. *)
Theorem service_errors (blink : option Svc) (camera_id : str) :
  (forall e,
      snd (get_liveview_url cameras get_liveview blink camera_id) <> Unhandled e /\
      snd (record_clip cameras record blink camera_id) <> Unhandled e) /\
  (forall detail,
      snd (get_liveview_url cameras get_liveview blink camera_id)
      = HTTPException 500 detail <->
      exists s cam s' e,
        blink = Some s /\ _find_camera cameras s camera_id = Some cam /\
        get_liveview cam s = (s', Exc e) /\ detail = exn_str e) /\
  (forall detail,
      snd (record_clip cameras record blink camera_id)
      = HTTPException 500 detail <->
      exists s cam s' e,
        blink = Some s /\ _find_camera cameras s camera_id = Some cam /\
        record cam s = (s', Some e) /\ detail = exn_str e) /\
  (forall detail,
      snd (get_latest_clip cameras refresh clip blink camera_id)
      <> HTTPException 500 detail) /\
  (forall e,
      snd (get_latest_clip cameras refresh clip blink camera_id) = Unhandled e <->
      exists s cam s',
        blink = Some s /\ _find_camera cameras s camera_id = Some cam /\
        refresh s = (s', Some e)).
Proof.
  unfold get_liveview_url, record_clip, get_latest_clip.
  destruct blink as [s|].
  2:{ cbn [snd]. refine (conj _ (conj _ (conj _ (conj _ _)))).
      - intros e. split; discriminate.
      - intros detail. split; [discriminate|].
        intros (s & cam & s' & e & H & _). discriminate H.
      - intros detail. split; [discriminate|].
        intros (s & cam & s' & e & H & _). discriminate H.
      - discriminate.
      - intros e. split; [discriminate|].
        intros (s & cam & s' & H & _). discriminate H. }
  destruct (_find_camera cameras s camera_id) as [cam|] eqn:Hcam.
  2:{ cbn [snd]. refine (conj _ (conj _ (conj _ (conj _ _)))).
      - intros e. split; discriminate.
      - intros detail. split; [discriminate|].
        intros (s0 & cam & s' & e & [= <-] & H & _). congruence.
      - intros detail. split; [discriminate|].
        intros (s0 & cam & s' & e & [= <-] & H & _). congruence.
      - discriminate.
      - intros e. split; [discriminate|].
        intros (s0 & cam & s' & [= <-] & H & _). congruence. }
  refine (conj _ (conj _ (conj _ (conj _ _)))).
  - intros e0.
    destruct (get_liveview cam s) as [s1 [url|e]];
      destruct (record cam s) as [s2 [e'|]]; split; discriminate.
  - intros detail. destruct (get_liveview cam s) as [s1 [url|e]] eqn:Hl;
      cbn [snd]; split.
    + discriminate.
    + intros (s0 & cam0 & s' & e & [= <-] & Hc0 & Hg & _).
      rewrite Hcam in Hc0. injection Hc0 as <-.
      rewrite Hl in Hg. discriminate Hg.
    + intros [= <-]. exists s, cam, s1, e. auto.
    + intros (s0 & cam0 & s' & e0 & [= <-] & Hc0 & Hg & ->).
      rewrite Hcam in Hc0. injection Hc0 as <-.
      rewrite Hl in Hg. injection Hg as _ <-. reflexivity.
  - intros detail. destruct (record cam s) as [s1 [e|]] eqn:Hr;
      cbn [snd]; split.
    + intros [= <-]. exists s, cam, s1, e. auto.
    + intros (s0 & cam0 & s' & e0 & [= <-] & Hc0 & Hg & ->).
      rewrite Hcam in Hc0. injection Hc0 as <-.
      rewrite Hr in Hg. injection Hg as _ <-. reflexivity.
    + discriminate.
    + intros (s0 & cam0 & s' & e & [= <-] & Hc0 & Hg & _).
      rewrite Hcam in Hc0. injection Hc0 as <-.
      rewrite Hr in Hg. discriminate Hg.
  - intros detail. destruct (refresh s) as [s1 [e|]]; discriminate.
  - intros e0. destruct (refresh s) as [s1 [e|]] eqn:Hr; cbn [snd]; split.
    + intros [= <-]. exists s, cam, s1. auto.
    + intros (s0 & cam0 & s' & [= <-] & Hc0 & Hg).
      rewrite Hcam in Hc0. injection Hc0 as <-.
      rewrite Hr in Hg. injection Hg as _ <-. reflexivity.
    + discriminate.
    + intros (s0 & cam0 & s' & [= <-] & Hc0 & Hg).
      rewrite Hcam in Hc0. injection Hc0 as <-.
      rewrite Hr in Hg. discriminate Hg.
Qed.

End HandlerFacts.

(** X13: [get_cameras] lists one entry per camera, in the order of the
    dictionary.  The identifier of an entry is one that [_find_camera]
    resolves, to a camera with the same numeric identifier; the thumbnail
    address is built from it; and the camera type is never empty. *)
Theorem listed_cameras_resolve (Svc : Type)
    (cameras : Svc -> list (str * camera)) (s : Svc) :
  exists infos,
    get_cameras cameras (Some s) = Responds infos /\
    map ci_name infos = map fst (cameras s) /\
    map ci_camera_id infos = map (fun entry => decimal (cam_id (snd entry))) (cameras s) /\
    forall info,
      In info infos ->
      (exists cam,
          _find_camera cameras s (ci_camera_id info) = Some cam /\
          decimal (cam_id cam) = ci_camera_id info /\
          exists name cam',
            In (name, cam') (cameras s) /\ cam_id cam' = cam_id cam /\
            ci_name info = name) /\
      ci_thumbnail info
      = (lit "/api/cameras/" ++ ci_camera_id info ++ lit "/thumbnail")%list /\
      truthy (ci_camera_type info) = true.
Proof.
  eexists. split; [reflexivity|].
  split; [rewrite map_map; reflexivity|].
  split; [rewrite map_map; reflexivity|].
  intros info Hin. apply in_map_iff in Hin.
  destruct Hin as ([name cam] & <- & Hin). cbn [ci_camera_id ci_thumbnail
    ci_camera_type ci_name fst snd].
  split; [|split; [reflexivity|]].
  - destruct (find_camera_listed cameras s name cam Hin) as (cam' & Hf & Hid).
    exists cam'. split; [exact Hf|]. split; [rewrite Hid; reflexivity|].
    exists name, cam. auto.
  - unfold py_or.
    destruct (truthy (cam_type cam)) eqn:H1; cbn [truthy].
    + rewrite H1. exact H1.
    + destruct (truthy (cam_product_type cam)) eqn:H2; [exact H2|reflexivity].
Qed.


(* ===================================================================== *)
(** * The subscription loop, connection by connection                     *)
(* ===================================================================== *)

Lemma closed_after_range (vs : list (string * verdict)) :
  forall conn c, In c (closed_after conn vs) -> conn <= c < conn + length vs.
Proof.
  induction vs as [|[n v] rest IH]; intros conn c; simpl; [tauto|].
  intros Hin. apply in_app_or in Hin. destruct Hin as [Hin|Hin].
  - destruct (closes v); simpl in Hin; [|tauto]. destruct Hin as [<-|[]]. lia.
  - apply IH in Hin. lia.
Qed.

Lemma closed_after_NoDup (vs : list (string * verdict)) :
  forall conn, NoDup (closed_after conn vs).
Proof.
  induction vs as [|[n v] rest IH]; intros conn; simpl; [constructor|].
  destruct (closes v); simpl; [|apply IH].
  constructor; [|apply IH].
  intros Hin. apply closed_after_range in Hin. lia.
Qed.

Lemma closed_after_nth (vs : list (string * verdict)) :
  forall conn c,
    In c (closed_after conn vs) <->
    exists i name v,
      c = conn + i /\ nth_error vs i = Some (name, v) /\ closes v = true.
Proof.
  induction vs as [|[n v] rest IH]; intros conn c; simpl.
  - split; [tauto|]. intros ([|i] & name & v & _ & H & _); discriminate H.
  - rewrite in_app_iff, IH. split.
    + intros [Hin|(i & name & v' & -> & Hn & Hc)].
      * destruct (closes v) eqn:Hc; simpl in Hin; [|tauto].
        destruct Hin as [<-|[]]. exists 0, n, v.
        repeat split; [lia | assumption].
      * exists (S i), name, v'. repeat split; [lia | assumption | assumption].
    + intros ([|i] & name & v' & -> & Hn & Hc); simpl in Hn.
      * injection Hn as <- <-. left. rewrite Hc. left. lia.
      * right. exists i, name, v'. repeat split; [lia | assumption | assumption].
Qed.

Lemma attempt_writes_nth (peer : nat -> connection)
    (tried : list (string * bytes)) :
  forall conn i name payload,
    nth_error tried i = Some (name, payload) ->
    (exists drain r, peer (conn + i) = Connects drain r) ->
    In (conn + i, payload) (attempt_writes peer conn tried).
Proof.
  induction tried as [|[n p] rest IH]; intros conn [|i] name payload Hi Hp;
    simpl in Hi; try discriminate; simpl; apply in_or_app.
  - injection Hi as -> ->. left. rewrite Nat.add_0_r in *.
    destruct Hp as (drain & r & ->). left. reflexivity.
  - right. replace (conn + S i) with (S conn + i) in * by lia.
    eapply IH; eassumption.
Qed.

Section LoopFacts.
Variable json_loads : bytes -> option json.
Variable peer : nat -> connection.

(** What a run of the loop leaves, in terms of the connections met. *)
Lemma try_payloads_run (formats : list (string * bytes)) :
  forall d,
  exists vs,
    verdicts (try_payloads json_loads peer formats d) = verdicts d ++ vs /\
    opened (try_payloads json_loads peer formats d) = opened d + length vs /\
    closed (try_payloads json_loads peer formats d)
    = closed d ++ closed_after (opened d) vs /\
    (forall i name v,
        nth_error vs i = Some (name, v) ->
        v = attempt json_loads (peer (opened d + i)) /\
        nth_error (map fst formats) i = Some name) /\
    ((exists vs0 n,
         vs = vs0 ++ [(n, VideoDetected)] /\
         Forall (fun nv => snd nv <> VideoDetected) vs0 /\
         results (try_payloads json_loads peer formats d)
         = results d
           ++ [("IMMIS Subscription", true,
                "Video data received with '" ++ n ++ "' format")%string]) \/
     (Forall (fun nv => snd nv <> VideoDetected) vs /\
      length vs = length formats /\
      results (try_payloads json_loads peer formats d)
      = results d
        ++ [("IMMIS Subscription", false,
             "No valid video data received from any format")%string])).
Proof.
  induction formats as [|[name payload] rest IH]; intros d.
  - exists []. simpl. rewrite !app_nil_r.
    repeat split; try lia.
    + destruct i; discriminate.
    + destruct i; discriminate.
    + right. repeat split. constructor.
  - assert (Hnext : forall d1 v,
               v = attempt json_loads (peer (opened d)) ->
               v <> VideoDetected ->
               opened d1 = S (opened d) ->
               verdicts d1 = verdicts d ++ [(name, v)] ->
               closed d1 = (if closes v then closed d ++ [opened d] else closed d) ->
               results d1 = results d ->
               exists vs,
                 verdicts (try_payloads json_loads peer rest d1) = verdicts d ++ vs /\
                 opened (try_payloads json_loads peer rest d1)
                 = opened d + length vs /\
                 closed (try_payloads json_loads peer rest d1)
                 = closed d ++ closed_after (opened d) vs /\
                 (forall i name0 v0,
                     nth_error vs i = Some (name0, v0) ->
                     v0 = attempt json_loads (peer (opened d + i)) /\
                     nth_error (map fst ((name, payload) :: rest)) i = Some name0) /\
                 ((exists vs0 n,
                      vs = vs0 ++ [(n, VideoDetected)] /\
                      Forall (fun nv => snd nv <> VideoDetected) vs0 /\
                      results (try_payloads json_loads peer rest d1)
                      = results d
                        ++ [("IMMIS Subscription", true,
                             "Video data received with '" ++ n ++ "' format")%string]) \/
                  (Forall (fun nv => snd nv <> VideoDetected) vs /\
                   length vs = length ((name, payload) :: rest) /\
                   results (try_payloads json_loads peer rest d1)
                   = results d
                     ++ [("IMMIS Subscription", false,
                          "No valid video data received from any format")%string]))).
    { intros d1 v Hv Hnv Ho Hvs Hcl Hres.
      destruct (IH d1) as (vs & Hverd & Hopen & Hclosed & Hnth & Hend).
      exists ((name, v) :: vs).
      rewrite Hverd, Hopen, Hclosed, Ho, Hvs, Hcl, <- !app_assoc.
      split; [reflexivity|]. split; [simpl; lia|].
      split; [simpl; destruct (closes v); rewrite <- ?app_assoc; reflexivity|].
      split.
      - intros [|i] name0 v0 Hi; simpl in Hi.
        + injection Hi as <- <-. rewrite Nat.add_0_r. auto.
        + destruct (Hnth i name0 v0 Hi) as [Hv0 Hn0].
          rewrite Ho in Hv0. replace (opened d + S i) with (S (opened d) + i) by lia.
          auto.
      - rewrite Hres in Hend.
        destruct Hend as [(vs0 & n & -> & Hall & Hr)|(Hall & Hlen & Hr)].
        + left. exists ((name, v) :: vs0), n.
          repeat split; [|assumption]. constructor; assumption.
        + right. repeat split; [|simpl; lia|assumption].
          constructor; assumption. }
    cbn [try_payloads].
    destruct (peer (opened d)) as [e|drain r] eqn:Hpeer.
    + eapply (Hnext _ (Failed e));
        [try rewrite Hpeer; reflexivity | discriminate | reflexivity ..].
    + destruct drain as [e|];
        [eapply (Hnext _ (Failed e));
         [try rewrite Hpeer; reflexivity | discriminate | reflexivity ..]|].
      destruct r as [data| |[why| |other]];
        [| eapply (Hnext _ NoResponse);
           [try rewrite Hpeer; reflexivity | discriminate | reflexivity ..]
         | eapply (Hnext _ (Failed (ValueError why)));
           [try rewrite Hpeer; reflexivity | discriminate | reflexivity ..]
         | eapply (Hnext _ NoResponse);
           [try rewrite Hpeer; reflexivity | discriminate | reflexivity ..]
         | eapply (Hnext _ (Failed (OtherException other)));
           [try rewrite Hpeer; reflexivity | discriminate | reflexivity ..]].
      destruct (classify json_loads data) as [|resp| | | |e] eqn:Hc;
        [| eapply (Hnext _ (JsonReply resp));
           [try rewrite Hpeer; simpl; rewrite Hc; reflexivity | discriminate
           | reflexivity ..]
         | eapply (Hnext _ Unparsed);
           [try rewrite Hpeer; simpl; rewrite Hc; reflexivity | discriminate
           | reflexivity ..]
         | eapply (Hnext _ ZeroBytes);
           [try rewrite Hpeer; simpl; rewrite Hc; reflexivity | discriminate
           | reflexivity ..]
         | exfalso; revert Hc; unfold classify; destruct data; [discriminate|];
           destruct (has_start_code _); [discriminate|];
           destruct (json_loads _); discriminate
         | exfalso; revert Hc; unfold classify; destruct data; [discriminate|];
           destruct (has_start_code _); [discriminate|];
           destruct (json_loads _); discriminate ].
      exists [(name, VideoDetected)]. simpl. rewrite app_nil_r.
      split; [reflexivity|]. split; [lia|]. split; [reflexivity|]. split.
      * intros [|[|i]] name0 v0 Hi; simpl in Hi; try discriminate.
        injection Hi as <- <-. rewrite Nat.add_0_r, Hpeer. simpl.
        rewrite Hc. auto.
      * left. exists [], name. repeat split. constructor.
Qed.

(** X14: [_test_immis_connect] logs exactly one result.  It is the
    failure of "IMMIS Connection" when the first connection cannot be
    opened.  Otherwise it is "IMMIS Subscription": a success exactly when
    the last format tried was answered with video, no earlier one having
    been, and it names that format; a failure only after every format of
    the list has been tried, none with video. *)
Theorem immis_result_truthful (formats : list (string * bytes)) :
  let d := _test_immis_connect json_loads peer formats in
  exists name ok details,
    results d = [(name, ok, details)] /\
    ((exists e, peer 0 = ConnectFails e /\
                name = "IMMIS Connection"%string /\ ok = false /\
                details = exn_str e /\ verdicts d = [] /\ opened d = 1) \/
     (exists w r, peer 0 = Connects w r) /\
     name = "IMMIS Subscription"%string /\
     opened d = 1 + length (verdicts d) /\
     (ok = true ->
      exists vs n,
        verdicts d = vs ++ [(n, VideoDetected)] /\
        Forall (fun nv => snd nv <> VideoDetected) vs /\
        details = ("Video data received with '" ++ n ++ "' format")%string) /\
     (ok = false ->
      Forall (fun nv => snd nv <> VideoDetected) (verdicts d) /\
      map fst (verdicts d) = map fst formats /\
      details = "No valid video data received from any format"%string)).
Proof.
  intros d. unfold d, _test_immis_connect.
  destruct (peer 0) as [e|w r] eqn:Hp.
  - exists "IMMIS Connection"%string, false, (exn_str e).
    split; [reflexivity|]. left. exists e. repeat split.
  - destruct (try_payloads_run formats (note_open diag0))
      as (vs & Hverd & Hopen & _ & Hnth & Hend).
    simpl in Hverd, Hopen. rewrite Hverd, Hopen.
    destruct Hend as [(vs0 & n & -> & Hall & Hr)|(Hall & Hlen & Hr)];
      simpl in Hr; rewrite Hr.
    + eexists _, _, _. split; [reflexivity|]. right.
      split; [eauto|]. split; [reflexivity|]. split; [reflexivity|].
      split; [|discriminate]. intros _. exists vs0, n. auto.
    + eexists _, _, _. split; [reflexivity|]. right.
      split; [eauto|]. split; [reflexivity|]. split; [reflexivity|].
      split; [discriminate|]. intros _. split; [assumption|]. split; [|reflexivity].
      apply nth_error_ext. intros i.
      rewrite !nth_error_map.
      destruct (nth_error vs i) as [[name v]|] eqn:Hi; simpl.
      * destruct (Hnth i name v Hi) as [_ Hn]. rewrite nth_error_map in Hn.
        symmetry. exact Hn.
      * apply nth_error_None in Hi. rewrite Hlen in Hi.
        apply nth_error_None in Hi. rewrite Hi. reflexivity.
Qed.

(** X15: the verdict on a format is the one its own connection calls
    for, whatever the other connections met.  The loop closes a connection
    exactly when the read on it returned no video or timed out, the
    timeout being [asyncio.TimeoutError] from the read: the connection of
    the TLS test, a connection on which the connect, the drain or the
    read raised anything else, and the one that delivered video are left
    open.  No connection is closed twice, and none that was not written
    to. *)
Theorem writers_left_open (formats : list (string * bytes)) :
  let d := _test_immis_connect json_loads peer formats in
  (forall i name v,
      nth_error (verdicts d) i = Some (name, v) ->
      v = attempt json_loads (peer (S i)) /\
      (In (S i) (closed d) <-> closes v = true)) /\
  (forall c, In c (closed d) ->
             1 <= c <= length (verdicts d) /\
             exists payload, In (c, payload) (written d)) /\
  NoDup (closed d) /\
  length (closed d) < opened d.
Proof.
  intros d. unfold d, _test_immis_connect.
  destruct (peer 0) as [e|w r] eqn:Hp.
  - simpl. refine (conj _ (conj _ (conj _ _))).
    + intros [|i] name v H; discriminate H.
    + intros c [].
    + constructor.
    + lia.
  - destruct (try_payloads_run formats (note_open diag0))
      as (vs & Hverd & Hopen & Hclosed & Hnth & _).
    destruct (try_payloads_trace peer json_loads formats (note_open diag0))
      as (k & vs' & Hk & Hopen' & Hverd' & Hnames & Hwr).
    simpl in Hverd, Hopen, Hclosed, Hopen', Hverd', Hwr.
    rewrite Hverd in Hverd'. subst vs'.
    assert (Hkl : k = length vs) by lia. 
    rewrite Hverd, Hopen, Hclosed, Hwr.
    assert (Hin : forall c, In c (closed_after 1 vs) <->
                       exists i name v, c = S i /\ nth_error vs i = Some (name, v)
                                        /\ closes v = true).
    { intros c. rewrite closed_after_nth. reflexivity. }
    refine (conj _ (conj _ (conj _ _))).
    + intros i name v Hi. destruct (Hnth i name v Hi) as [Hv _].
      split; [exact Hv|]. rewrite Hin. split.
      * intros (j & name' & v' & [= <-] & Hj & Hc). congruence.
      * intros Hc. exists i, name, v. auto.
    + intros c Hc. split.
      * apply closed_after_range in Hc. lia.
      * apply Hin in Hc. destruct Hc as (i & name & v & -> & Hi & Hc).
        destruct (Hnth i name v Hi) as [Hv Hn]. simpl in Hv.
        assert (Hlt : i < k).
        { rewrite Hkl. apply nth_error_Some. congruence. }
        rewrite nth_error_map in Hn.
        destruct (nth_error formats i) as [[name' payload]|] eqn:Hf;
          [|discriminate Hn].
        exists payload.
        apply (attempt_writes_nth peer (firstn k formats) 1 i (name := name')).
        -- rewrite nth_error_firstn.
           destruct (Nat.ltb_spec i k); [assumption|lia].
        -- simpl. destruct (peer (S i)) as [e|dr rp]; [|eauto].
           subst v. discriminate Hc.
    + apply closed_after_NoDup.
    + pose proof (closed_after_NoDup vs 1) as Hnd.
      assert (Hincl : incl (closed_after 1 vs) (seq 1 (length vs))).
      { intros c Hc. apply closed_after_range in Hc. apply in_seq. lia. }
      pose proof (NoDup_incl_length Hnd Hincl) as Hlen.
      rewrite length_seq in Hlen. lia.
Qed.

End LoopFacts.


(* ===================================================================== *)
(** * The phases of the diagnostic                                        *)
(* ===================================================================== *)

Section FindCameraFacts.
Variable lower : str -> str.

Lemma scan_cameras_app (l1 l2 : list (str * camera)) (selected : option camera) :
  scan_cameras lower (l1 ++ l2) selected
  = scan_cameras lower l2 (scan_cameras lower l1 selected).
Proof. unfold scan_cameras. apply fold_left_app. Qed.

Lemma scan_cameras_none (cams : list (str * camera)) :
  forall selected,
    Forall (fun entry => is_mini lower (snd entry) = false) cams ->
    scan_cameras lower cams selected = selected.
Proof.
  induction cams as [|[name cam] rest IH]; intros selected Hall; [reflexivity|].
  inversion Hall as [|x l Hx Hrest]; subst. simpl in Hx.
  unfold scan_cameras in *. simpl. rewrite Hx. apply IH. assumption.
Qed.

Lemma scan_cameras_from (cams : list (str * camera)) :
  forall selected cam,
    scan_cameras lower cams selected = Some cam ->
    selected = Some cam \/
    (In cam (map snd cams) /\ is_mini lower cam = true).
Proof.
  induction cams as [|[name c] rest IH]; intros selected cam H.
  - left. exact H.
  - unfold scan_cameras in *. simpl in H.
    destruct (is_mini lower c) eqn:Hm.
    + apply IH in H. destruct H as [[= <-]|[Hin Hmini]].
      * right. split; [left; reflexivity | assumption].
      * right. split; [right; assumption | assumption].
    + apply IH in H. destruct H as [H|[Hin Hmini]]; [left; assumption|].
      right. split; [right; assumption | assumption].
Qed.

(** X16: the camera the diagnostic tests.  There is none exactly when
    the account has no camera.  The last camera whose type, in lower case,
    contains "mini" or "owl" is taken, whatever was selected before; when
    no camera has such a type, the first camera of the account is. *)
Theorem camera_selection (cams : list (str * camera)) :
  (select_camera lower cams None = None <-> cams = []) /\
  (forall cam,
      select_camera lower cams None = Some cam -> In cam (map snd cams)) /\
  (forall before name cam after selected,
      cams = before ++ (name, cam) :: after ->
      is_mini lower cam = true ->
      Forall (fun entry => is_mini lower (snd entry) = false) after ->
      select_camera lower cams selected = Some cam) /\
  (forall name cam rest,
      cams = (name, cam) :: rest ->
      Forall (fun entry => is_mini lower (snd entry) = false) cams ->
      select_camera lower cams None = Some cam).
Proof.
  refine (conj _ (conj _ (conj _ _))).
  - unfold select_camera. split.
    + destruct (scan_cameras lower cams None); [discriminate|].
      destruct cams as [|[n c] rest]; [reflexivity | discriminate].
    + intros ->. reflexivity.
  - intros cam. unfold select_camera.
    destruct (scan_cameras lower cams None) as [c|] eqn:Hs.
    + intros [= <-]. apply scan_cameras_from in Hs.
      destruct Hs as [H|[H _]]; [discriminate | assumption].
    + destruct cams as [|[n c] rest]; [discriminate|].
      intros [= <-]. left. reflexivity.
  - intros before name cam after selected -> Hmini Hafter.
    unfold select_camera.
    rewrite scan_cameras_app.
    replace (scan_cameras lower ((name, cam) :: after)
               (scan_cameras lower before selected))
      with (scan_cameras lower after (Some cam))
      by (unfold scan_cameras; simpl; rewrite Hmini; reflexivity).
    rewrite scan_cameras_none by assumption. reflexivity.
  - intros name cam rest -> Hall. unfold select_camera.
    rewrite scan_cameras_none by assumption. reflexivity.
Qed.

End FindCameraFacts.

Lemma camera_selection_witness :
  let mini := {| cam_name := lit "Hall"; cam_id := 7; cam_network_id := 1;
                 cam_type := Some (lit "Mini"); cam_product_type := None |} in
  let door := {| cam_name := lit "Door"; cam_id := 8; cam_network_id := 1;
                 cam_type := None; cam_product_type := Some (lit "doorbell") |} in
  select_camera ascii_lower [(lit "Hall", mini); (lit "Door", door)] None
  = Some mini.
Proof.
  intros mini door.
  apply (proj1 (proj2 (proj2 (camera_selection ascii_lower
                                [(lit "Hall", mini); (lit "Door", door)])))
           [] (lit "Hall") mini [(lit "Door", door)] None).
  - reflexivity.
  - vm_compute. reflexivity.
  - constructor; [vm_compute; reflexivity | constructor].
Defined.


Ltac proxy_facts :=
  cbn [fst snd results log_result started stop_called];
  eexists; split; [rewrite <- ?app_assoc; reflexivity|];
  cbn [length app existsb entry_success entry_test fst snd orb];
  refine (conj _ (conj _ (conj _ (conj _ _))));
  [ lia
  | repeat constructor
  | try (intros; reflexivity); try (intros H; discriminate H);
    try (intros _ H; discriminate H)
  | split;
    [ try (intros H; discriminate H); try (intros _; eauto 10)
    | try reflexivity;
      intros (b & data & H1 & H2 & H3 & H4); congruence ]
  | split;
    [ try (intros [H _]; discriminate H);
      try (intros [_ H]; discriminate H);
      try (intros _; split; [reflexivity|]; split; [reflexivity|];
           eexists; split; cycle 1; [eauto 10 | discriminate])
    | try (split; reflexivity);
      intros (H1 & H2 & e0 & Hne & [H|[H3 [H|(dt & H & H4)]]]);
      congruence ] ].

(** X17: [_test_blinkpy_proxy] appends between one and three results to
    those logged before, all named "blinkpy Proxy", and exactly one when
    closing the writer and stopping the stream raise nothing.  A success is
    among them exactly when the read returned data.  The stream, once
    started, is left running exactly when the connection, the read or
    [writer.close()] raised something other than a timeout: the cleanup
    lines are then skipped. *)
Theorem proxy_results (p : proxy) (d : diag) :
  let out := _test_blinkpy_proxy p d in
  exists rs,
    results (fst out) = results d ++ rs /\
    1 <= length rs <= 3 /\
    Forall (fun r => entry_test r = "blinkpy Proxy"%string) rs /\
    (px_close p = None -> px_stop p = None -> length rs = 1) /\
    (existsb entry_success rs = true <->
     exists b data,
       px_init p = None /\ px_start p = None /\ px_connect p = None /\
       px_read p = Reply (b :: data)) /\
    (started (snd out) = true /\ stop_called (snd out) = false <->
     px_init p = None /\ px_start p = None /\
     exists e,
       e <> TimeoutError /\
       (px_connect p = Some e \/
        px_connect p = None /\
        (px_read p = ReplyError e \/
         exists data, px_read p = Reply data /\ px_close p = Some e))).
Proof.
  destruct p as [init start connect read close stop].
  unfold _test_blinkpy_proxy, proxy_cleanup, proxy_error; cbn [px_init px_start
    px_connect px_read px_close px_stop].
  destruct init as [e|]; [proxy_facts|].
  destruct start as [e|]; [proxy_facts|].
  destruct connect as [[why| |name]|].
  - proxy_facts.
  - destruct stop as [e|]; proxy_facts.
  - proxy_facts.
  - destruct read as [[|b data]| |[why| |name]].
    + destruct close as [[why| |name]|]; try destruct stop as [e|]; proxy_facts.
    + destruct close as [[why| |name]|]; try destruct stop as [e|]; proxy_facts.
    + destruct stop as [e|]; proxy_facts.
    + proxy_facts.
    + destruct stop as [e|]; proxy_facts.
    + proxy_facts.
Qed.


Lemma filter_split_length (A : Type) (f : A -> bool) (l : list A) :
  length (filter f l) + length (filter (fun x => negb (f x)) l) = length l.
Proof.
  induction l as [|x l IH]; simpl; [reflexivity|].
  destruct (f x); simpl; lia.
Qed.

Lemma no_failure (results : list entry) :
  length (filter (fun r => negb (entry_success r)) results) = 0 <->
  Forall (fun r => entry_success r = true) results.
Proof.
  induction results as [|r rest IH]; simpl.
  - split; [constructor | reflexivity].
  - destruct (entry_success r) eqn:Hr; simpl.
    + rewrite IH. split; [constructor; assumption|].
      intros H. inversion H; assumption.
    + split; [discriminate|]. intros H. inversion H; congruence.
Qed.

(** The recommendation looks at the failures of two kinds of test only. *)
Lemma all_passed_iff (results : list entry) :
  sm_all_passed (_print_summary results) = true <->
  Forall (fun r => entry_success r = false ->
                   entry_test r <> "blinkpy Proxy"%string /\
                   scontains (lit "IMMIS") (lit (entry_test r)) = false)
    results.
Proof.
  unfold _print_summary, proxy_failed, immis_failed. cbn [sm_all_passed].
  rewrite negb_true_iff, orb_false_iff.
  induction results as [|r rest IH]; cbn [existsb].
  - split; [constructor | auto].
  - rewrite !orb_false_iff, !andb_false_iff, negb_false_iff. split.
    + intros [[Hp Hrest1] [Hi Hrest2]]. constructor; [|apply IH; auto].
      intros Hf. split.
      * destruct Hp as [Hp|Hp]; [|congruence].
        apply String.eqb_neq. exact Hp.
      * destruct Hi as [Hi|Hi]; [assumption | congruence].
    + intros H. inversion H as [|x l Hr Hrest]; subst.
      apply IH in Hrest. destruct Hrest as [H1 H2].
      destruct (entry_success r) eqn:Hs.
      * repeat split; auto.
      * destruct (Hr eq_refl) as [Hn Hc]. apply String.eqb_neq in Hn.
        repeat split; auto.
Qed.



Section RunFacts.
Variable json_dumps : json -> bytes.
Variable json_loads : bytes -> option json.
Variable peer : nat -> connection.
Variable resolves : str -> bool.

Lemma test_immis_results (ctx : context) (url : str) (immis : diag) :
  _test_immis json_dumps json_loads peer resolves ctx url = Ok immis ->
  length (results immis) <= 1 /\ Forall immis_or_proxy (results immis).
Proof.
  unfold _test_immis.
  destruct (_test_immis_parse url) as [[[host port] path]|e]; [|discriminate].
  destruct (resolves host).
  2:{ intros [= <-]. simpl. split; [lia | constructor]. }
  intros [= <-]. unfold _test_immis_connect.
  destruct (peer 0) as [e|w r].
  - simpl. split; [lia|]. repeat constructor.
  - destruct (try_payloads_run json_loads peer (payloads json_dumps ctx path)
                (note_open diag0)) as (vs & _ & _ & _ & _ & Hend).
    destruct Hend as [(vs0 & n & _ & _ & Hr)|(_ & _ & Hr)];
      cbn [results note_open diag0 app] in Hr; rewrite Hr;
      cbn [length]; (split; [lia|]);
      constructor; [right; left; reflexivity | constructor
                   | right; left; reflexivity | constructor].
Qed.

End RunFacts.

Ltac proxy_appended :=
  cbn [fst results log_result];
  eexists; split; [rewrite <- ?app_assoc; reflexivity|];
  split; [cbn [length app]; lia|];
  repeat (apply Forall_cons; [right; right; reflexivity|]); apply Forall_nil.

Lemma proxy_appends (p : proxy) (d : diag) :
  exists rs,
    results (fst (_test_blinkpy_proxy p d)) = results d ++ rs /\
    1 <= length rs <= 3 /\
    Forall immis_or_proxy rs.
Proof.
  destruct p as [init start connect read close stop].
  unfold _test_blinkpy_proxy, proxy_cleanup, proxy_error; cbn [px_init px_start
    px_connect px_read px_close px_stop].
  destruct init as [e|]; [proxy_appended|].
  destruct start as [e|]; [proxy_appended|].
  destruct connect as [[why| |name]|].
  - proxy_appended.
  - destruct stop as [e|]; proxy_appended.
  - proxy_appended.
  - destruct read as [[|b data]| |[why| |name]].
    + destruct close as [[why| |name]|]; try destruct stop as [e|];
        proxy_appended.
    + destruct close as [[why| |name]|]; try destruct stop as [e|];
        proxy_appended.
    + destruct stop as [e|]; proxy_appended.
    + proxy_appended.
    + destruct stop as [e|]; proxy_appended.
    + proxy_appended.
Qed.

(** The recommendation is right about a list whose failures can only be
    those of the IMMIS and proxy tests. *)
Lemma summary_truthful (passes rest : list entry) :
  Forall (fun r => entry_success r = true) passes ->
  Forall immis_or_proxy rest ->
  (sm_all_passed (_print_summary (passes ++ rest)) = true <->
   sm_failed (_print_summary (passes ++ rest)) = 0).
Proof.
  intros Hp Hr. rewrite all_passed_iff. unfold _print_summary. cbn [sm_failed].
  rewrite no_failure, !Forall_app. split.
  - intros [_ H]. split; [assumption|].
    rewrite Forall_forall in *. intros r Hin.
    destruct (entry_success r) eqn:Hs; [reflexivity|].
    destruct (H r Hin Hs) as [Hn Hc].
    destruct (Hr r Hin) as [Ht|[Ht|Ht]]; rewrite Ht in *;
      [vm_compute in Hc; discriminate Hc | vm_compute in Hc; discriminate Hc
      | congruence].
  - intros [H1 H2]. split; apply Forall_forall; intros r Hin Hs.
    + rewrite Forall_forall in H1. specialize (H1 r Hin). congruence.
    + rewrite Forall_forall in H2. specialize (H2 r Hin). congruence.
Qed.



Section RunEnds.
Variable json_dumps : json -> bytes.
Variable json_loads : bytes -> option json.
Variable peer : nat -> connection.
Variable resolves : str -> bool.
Variable lower : str -> str.

Lemma select_camera_none (cams : list (str * camera)) :
  select_camera lower cams None = None <-> cams = [].
Proof.
  unfold select_camera. split.
  - destruct (scan_cameras lower cams None); [discriminate|].
    destruct cams as [|[n c] rest]; [reflexivity | discriminate].
  - intros ->. reflexivity.
Qed.

Lemma test_immis_raises (ctx : context) (url : str) (e : exn) :
  _test_immis json_dumps json_loads peer resolves ctx url = Exc e <->
  _test_immis_parse url = Exc e.
Proof.
  unfold _test_immis.
  destruct (_test_immis_parse url) as [[[host port] path]|e'].
  - destruct (resolves host); split; discriminate.
  - split; intros [= <-]; reflexivity.
Qed.


End RunEnds.
